(** * Quantum Mechanics for Engineers (EE 421/521): the homework notebooks

    A shallow embedding of the code cells of
    [Homeworks/HW2_quantum_phenomena.ipynb] and
    [Homeworks/HW4_cats_and_qubits.ipynb].

    Conventions of the embedding.
    - NumPy's float64 arrays are lists of real numbers ([R]); complex arrays
      are lists of pairs of reals.  Rounding is not modelled: an arithmetic
      statement below is about the exact value of the formula the cell
      evaluates, under the conditions that keep the formula away from a
      division by zero.  Where the code branches on a float32 (the
      normalisation of the complex64 coefficients) the range of the format
      is modelled: underflow to 0.0 and overflow to inf.
    - A 2-D array is the list of its rows.
    - A code cell is a computation in a state-and-exception monad over the
      world outside the notebook's variables (printed text, figures, calls
      into qiskit, files); the variables a cell reads are its arguments and
      the ones it binds are its result.  As in Python, what a cell did
      before it raised stays done.
    - [np.linalg.eig], [np.argsort] and the qiskit simulators are not
      computed: their results are parameters, described by what the
      libraries promise about them.  What the libraries write outside the
      process on their own account, when a module is imported or a circuit
      is transpiled, is a parameter as well; the other calls into them are
      taken to work in memory.
    - The cells run top to bottom, once each. *)

From Stdlib Require Import String Ascii.
From Stdlib Require Import ZArith Bool Arith.
From Stdlib Require Import Reals Lra Lia List Permutation Sorted.
Import ListNotations.

Set Implicit Arguments.

Local Open Scope R_scope.

(* ===================================================================== *)
(** * Python values that cross cell boundaries                            *)
(* ===================================================================== *)

(** Complex numbers, as NumPy's complex dtypes store them. *)
Record complex : Type := mkC { Re : R; Im : R }.

Definition C0 : complex := mkC 0 0.
(** Python's literal [1j]. *)
Definition Ci : complex := mkC 0 1.

Definition Cadd (x y : complex) : complex := mkC (Re x + Re y) (Im x + Im y).
Definition Copp (x : complex) : complex := mkC (- Re x) (- Im x).
Definition Cmul (x y : complex) : complex :=
  mkC (Re x * Re y - Im x * Im y) (Re x * Im y + Im x * Re y).
(** complex * real and complex / real, as NumPy promotes the real operand. *)
Definition Cscale (x : complex) (r : R) : complex := mkC (Re x * r) (Im x * r).
Definition Cdivr (x : complex) (r : R) : complex := mkC (Re x / r) (Im x / r).
(** [np.abs] on a complex number. *)
Definition Cabs (x : complex) : R := sqrt (Re x * Re x + Im x * Im x).
(** [np.exp] on a complex number. *)
Definition Cexp (x : complex) : complex :=
  mkC (exp (Re x) * cos (Im x)) (exp (Re x) * sin (Im x)).
(** [astype(np.complex64)] on a real. *)
Definition RtoC (r : R) : complex := mkC r 0.

Definition vector := list R.
Definition matrix := list (list R).
Definition cvector := list complex.
Definition cmatrix := list (list complex).

(** State that outlives the Python process. *)
Record persistent : Type :=
  { files : list (string * string);
    database : list (string * string);
    network : list string }.

(* ===================================================================== *)
(** * The NumPy operations the notebooks call                             *)
(* ===================================================================== *)

Module np.

(** Element-wise binary operation on two arrays of one shape. *)
Fixpoint map2 {A B C : Type} (f : A -> B -> C) (xs : list A) (ys : list B)
  : list C :=
  match xs, ys with
  | x :: xs', y :: ys' => f x y :: map2 f xs' ys'
  | _, _ => []
  end.

(** [np.eye(N, k=k)]: ones on the k-th diagonal, [M[i][j] = 1] iff
    [j = i + k]. *)
Definition eye (N : nat) (k : Z) : matrix :=
  map (fun i =>
         map (fun j => if (Z.of_nat j =? Z.of_nat i + k)%Z then 1 else 0)
             (seq 0 N))
      (seq 0 N).

(** [np.ones(n)]. *)
Definition ones (n : nat) : vector := repeat 1 n.

(** scalar * 2-D array, scalar * 1-D array, scalar + 1-D array. *)
Definition smul2 (c : R) (M : matrix) : matrix := map (map (Rmult c)) M.
Definition smul (c : R) (v : vector) : vector := map (Rmult c) v.
Definition sadd (c : R) (v : vector) : vector := map (Rplus c) v.

(** 1-D array * 2-D array: NumPy broadcasts the vector along the last
    axis, so entry (i, j) is [v[j] * M[i][j]]. *)
Definition bmul (v : vector) (M : matrix) : matrix :=
  map (fun row => map2 Rmult v row) M.

(** 2-D array + 2-D array. *)
Definition add2 (A B : matrix) : matrix := map2 (map2 Rplus) A B.

(** [np.linspace(start, stop, num=num)] with the default [endpoint=True]:
    [num] samples, [start + i * (stop - start) / (num - 1)]. *)
Definition linspace (start stop : R) (num : nat) : vector :=
  let step := (stop - start) / INR (num - 1) in
  map (fun i => INR i * step + start) (seq 0 num).

(** [np.abs(A) ** 2] on real and on complex arrays. *)
Definition abs_sq (x : R) : R := (Rabs x) ^ 2.
Definition cabs_sq (z : complex) : R := (Cabs z) ^ 2.

(** [A.sum()] on a 1-D array. *)
Definition sum (v : vector) : R := fold_right Rplus 0 v.
Definition csum (v : cvector) : complex := fold_right Cadd C0 v.

(** Column [j] of a 2-D array, [M[:, j]]. *)
Definition col {A : Type} (d : A) (j : nat) (M : list (list A)) : list A :=
  map (fun row => nth j row d) M.

(** Number of columns of a 2-D array. *)
Definition ncols {A : Type} (M : list (list A)) : nat :=
  match M with
  | [] => 0%nat
  | row :: _ => length row
  end.

(** [M[:, order]]: the columns of M picked in the order given. *)
Definition take_cols {A : Type} (d : A) (order : list nat)
           (M : list (list A)) : list (list A) :=
  map (fun row => map (fun j => nth j row d) order) M.

(** [v[order]]. *)
Definition take {A : Type} (d : A) (order : list nat) (v : list A)
  : list A :=
  map (fun j => nth j v d) order.

(** [M.T]. *)
Definition transpose {A : Type} (d : A) (M : list (list A))
  : list (list A) :=
  map (fun j => col d j M) (seq 0 (ncols M)).

(** [M @ v] for a 2-D array and a 1-D array. *)
Definition dot (u v : vector) : R := sum (map2 Rmult u v).
Definition matvec (M : matrix) (v : vector) : vector :=
  map (fun row => dot row v) M.

(** [c @ psi] for a complex 1-D array [c] and a complex 2-D array [psi]:
    entry [j] is the sum over [m] of [c[m] * psi[m][j]]. *)
Definition cvecmat (c : cvector) (psi : cmatrix) : cvector :=
  map (fun j => csum (map2 Cmul c (col C0 j psi))) (seq 0 (ncols psi)).

(** [np.arange(n)] for a Python int [n]. *)
Definition arange (n : Z) : list Z := map Z.of_nat (seq 0 (Z.to_nat n)).

(** [A.mean()] on a 1-D array. *)
Definition mean (v : vector) : R := sum v / INR (length v).

(** What is left to the installed libraries: the results of
    [np.linalg.eig] and [np.argsort], and what an import statement of HW2
    (or its magic [%matplotlib widget]) makes the interpreter and the
    imported module write outside the process, such as a bytecode cache or
    matplotlib's font cache on a first import.  The statement is given as
    it stands in the source. *)
Record routines : Type :=
  { linalg_eig : matrix -> vector * matrix;
    argsort : vector -> list nat;
    import_writes : string -> persistent -> persistent }.

End np.

(* ===================================================================== *)
(** * Exceptions, the outside world, and the monad of a cell              *)
(* ===================================================================== *)

(** The two [assert] statements of the source, told apart as Python's
    traceback tells them apart: by where they stand. *)
Inductive assert_site : Type :=
| norm_is_positive        (* HW2, normalisation cell: [assert norm > 0] *)
| evolve_lengths_agree.   (* HW2, [evolve]: [assert len(coeff) == len(psi) == len(E)] *)

Inductive exn : Type :=
| AssertionError (site : assert_site)
| TypeError
| IndexError
| ValueError
| KeyError
| ZeroDivisionError
| CircuitError.

Inductive outcome (A : Type) : Type :=
| Normal (a : A)
| Raised (e : exn).
Arguments Normal {A} a.
Arguments Raised {A} e.

(** A computation over a state [S] that may raise.  The state is returned in
    both cases. *)
Definition M (S A : Type) : Type := S -> outcome A * S.

Definition ret {S A : Type} (a : A) : M S A := fun s => (Normal a, s).

Definition bind {S A B : Type} (c : M S A) (k : A -> M S B) : M S B :=
  fun s =>
    match c s with
    | (Normal a, s') => k a s'
    | (Raised e, s') => (Raised e, s')
    end.

Definition raise {S A : Type} (e : exn) : M S A := fun s => (Raised e, s).

Definition modify {S : Type} (f : S -> S) : M S unit :=
  fun s => (Normal tt, f s).

(** [assert b], standing at [site]. *)
Definition assert_ {S : Type} (site : assert_site) (b : bool) : M S unit :=
  if b then ret tt else raise (AssertionError site).

Definition is_AssertionError (e : exn) : bool :=
  match e with
  | AssertionError _ => true
  | _ => false
  end.

(** [try: body  except AssertionError: handler]. *)
Definition try_except_AssertionError {S A : Type}
           (body : M S A) (handler : M S A) : M S A :=
  fun s =>
    match body s with
    | (Normal a, s') => (Normal a, s')
    | (Raised e, s') =>
        if is_AssertionError e then handler s' else (Raised e, s')
    end.

Declare Scope cell_scope.
Delimit Scope cell_scope with cell.
Notation "x <- c ;; k" := (bind c (fun x => k))
  (at level 61, c at next level, right associativity) : cell_scope.
Notation "' pat <- c ;; k" :=
  (bind c (fun x => match x with pat => k end))
  (at level 61, pat pattern, c at next level, right associativity)
  : cell_scope.
Notation "c ;; k" := (bind c (fun _ => k))
  (at level 61, right associativity) : cell_scope.

(** [for x in xs: body(x)]. *)
Fixpoint for_ {S A : Type} (xs : list A) (body : A -> M S unit) : M S unit :=
  match xs with
  | [] => ret tt
  | x :: xs' => (body x ;; for_ xs' body)%cell
  end.

(** [enumerate(xs)]. *)
Definition enumerate {A : Type} (xs : list A) : list (nat * A) :=
  combine (seq 0 (length xs)) xs.

(* ===================================================================== *)
(** * qiskit, as far as HW4 calls into it                                 *)
(* ===================================================================== *)

Module qiskit.

Inductive instruction : Type :=
| h (qubit : nat)
| cx (control target : nat)
| barrier
| measure (qubit clbit : nat).

(** A [QuantumCircuit]: its qubits, its classical bits, the instructions
    appended so far. *)
Record QuantumCircuit : Type :=
  { num_qubits : nat; num_clbits : nat; data : list instruction }.

(** [QuantumCircuit(n)] *)
Definition new (n : nat) : QuantumCircuit :=
  {| num_qubits := n; num_clbits := 0; data := [] |}.

Definition append (i : instruction) (qc : QuantumCircuit) : QuantumCircuit :=
  {| num_qubits := num_qubits qc;
     num_clbits := num_clbits qc;
     data := data qc ++ [i] |}.

(** [qc.measure_all()]: a barrier, a new classical register [meas] with
    one bit per qubit, and a measurement of every qubit into it. *)
Definition measure_all (qc : QuantumCircuit) : QuantumCircuit :=
  {| num_qubits := num_qubits qc;
     num_clbits := num_clbits qc + num_qubits qc;
     data := data qc ++ barrier
               :: map (fun k => measure k (num_clbits qc + k))
                      (seq 0 (num_qubits qc)) |}.

(** The calls HW4 makes into qiskit, qiskit_aer and qiskit_ibm_runtime,
    as they are logged in the order made. *)
Inductive call : Type :=
| QuantumCircuit_ (n : nat)
| qc_h (qubit : nat)
| qc_cx (control target : nat)
| qc_measure_all
| qc_draw (output : string)
| StatevectorSampler_
| sampler_run (qc : QuantumCircuit)
| job_result
| get_bitstrings
| get_counts
| plot_histogram (counts : list (string * nat))
| FakeSherbrooke_
| transpile (qc : QuantumCircuit)
| backend_run (qc : QuantumCircuit).

(** The three stages the course text walks through. *)
Inductive stage : Type := construction | transpilation | sampling.

(** The stage a call belongs to; drawing, plotting and creating the
    sampler or backend object belong to none. *)
Definition stage_of (c : call) : option stage :=
  match c with
  | QuantumCircuit_ _ | qc_h _ | qc_cx _ _ | qc_measure_all =>
      Some construction
  | transpile _ => Some transpilation
  | sampler_run _ | backend_run _ | job_result | get_bitstrings
  | get_counts => Some sampling
  | qc_draw _ | plot_histogram _ | StatevectorSampler_ | FakeSherbrooke_ =>
      None
  end.

(** What the simulators answer.  Their results are random samples; one
    run of the notebook sees one answer per call. *)
Record simulators : Type :=
  { (** [StatevectorSampler().run([qc]).result()[0].data.meas.get_bitstrings()]:
        the bitstring measured in each shot. *)
    statevector_bitstrings : QuantumCircuit -> list string;
    (** [transpile(qc, FakeSherbrooke())] *)
    transpile_for_backend : QuantumCircuit -> QuantumCircuit;
    (** [FakeSherbrooke().run(circuit).result().get_counts()] *)
    backend_counts : QuantumCircuit -> list (string * nat);
    (** What an import statement of HW4 makes the interpreter and the
        imported module write outside the process. *)
    import_writes : string -> persistent -> persistent;
    (** What [transpile(qc, FakeSherbrooke())] writes outside the process
        (qiskit's caches). *)
    transpile_writes : QuantumCircuit -> persistent -> persistent }.

(** [get_counts()] on sampled data: how often each bitstring was
    measured, keyed in order of first appearance. *)
Fixpoint bump (k : string) (d : list (string * nat)) : list (string * nat) :=
  match d with
  | [] => [(k, 1%nat)]
  | (k', n) :: d' =>
      if String.eqb k k' then (k', S n) :: d' else (k', n) :: bump k d'
  end.

Definition counts_of (bitstrings : list string) : list (string * nat) :=
  fold_left (fun d k => bump k d) bitstrings [].

End qiskit.

(* ===================================================================== *)
(** * The outside world of a notebook                                     *)
(* ===================================================================== *)

(** A value substituted into a format string. *)
Inductive pyval : Type :=
| PyInt (z : Z)
| PyFloat (r : R)
| PyComplex (z : complex)
| PyCArray (v : cvector)
| PyCounts (d : list (string * nat))
| PyProbs (d : list (string * R)).

(** What [print], [plt.title], ... are handed: the format string and the
    values for its fields.  Formatting floats to digits is not modelled. *)
Record text : Type := fmt { template : string; args : list pyval }.

Definition lit (s : string) : text := fmt s [].

(** The newline character of Python's ["\n"]. *)
Definition LF : string := String (Ascii.ascii_of_nat 10) EmptyString.

(** The three [Line2D] handles of the animation cell. *)
Inductive line : Type := wave_real | wave_imag | dens.

(** matplotlib calls.  Styling keywords (colours, markers, alpha,
    shared axes) are left out. *)
Inductive fig_cmd : Type :=
| figure (width height : Z)
| subplots (nrows ncols : nat)
| sca (axis : nat)
| plot (xs ys : vector)
| fill_between (xs ys : vector)
| xlabel (s : text)
| ylabel (s : text)
| title (s : text)
| tight_layout
| ax_set_title (axis : nat) (s : text)
| ax_set_xlabel (axis : nat) (s : text)
| ax_set_ylabel (axis : nat) (s : text)
| ax_plot (axis : nat) (l : line) (xs ys : vector)
| ax_grid (axis : nat)
| ax_set_ylim (axis : nat) (lo hi : R)
| set_data (l : line) (xs ys : vector)
| FuncAnimation (interval : Z) (save_count : Z)
| show
| draw
| circuit_drawing (qc : qiskit.QuantumCircuit)
| histogram (counts : list (string * nat)).

Record world : Type :=
  { stdout : list text;
    figures : list fig_cmd;
    qiskit_calls : list qiskit.call;
    outside : persistent }.

Definition print (x : text) : M world unit :=
  modify (fun w => {| stdout := stdout w ++ [x];
                      figures := figures w;
                      qiskit_calls := qiskit_calls w;
                      outside := outside w |}).

Definition plt (c : fig_cmd) : M world unit :=
  modify (fun w => {| stdout := stdout w;
                      figures := figures w ++ [c];
                      qiskit_calls := qiskit_calls w;
                      outside := outside w |}).

Definition api (c : qiskit.call) : M world unit :=
  modify (fun w => {| stdout := stdout w;
                      figures := figures w;
                      qiskit_calls := qiskit_calls w ++ [c];
                      outside := outside w |}).

(** A write of a library, on its own account, to the state outside the
    process. *)
Definition library_write (f : persistent -> persistent) : M world unit :=
  modify (fun w => {| stdout := stdout w;
                      figures := figures w;
                      qiskit_calls := qiskit_calls w;
                      outside := f (outside w) |}).

(** An import statement (or a magic that imports), given what the
    installed libraries write when it runs.  The names it binds are not
    values of the model. *)
Definition import_ (writes : string -> persistent -> persistent)
           (statement : string) : M world unit :=
  library_write (writes statement).

(** [plt.plot(x, y)]: ValueError unless x and y have one length. *)
Definition plt_plot (xs ys : vector) : M world unit :=
  if (length xs =? length ys)%nat then plt (plot xs ys) else raise ValueError.

Definition plt_fill_between (xs ys : vector) : M world unit :=
  if (length xs =? length ys)%nat then plt (fill_between xs ys)
  else raise ValueError.

Definition plt_ax_plot (axis : nat) (l : line) (xs ys : vector)
  : M world unit :=
  if (length xs =? length ys)%nat then plt (ax_plot axis l xs ys)
  else raise ValueError.

(** Comparisons of floats, as Python evaluates them to a [bool]. *)
Definition Rltb (x y : R) : bool := if Rlt_dec x y then true else false.
Definition Rleb (x y : R) : bool := if Rle_dec x y then true else false.
Definition Rneqb (x y : R) : bool := if Req_dec_T x y then false else true.

(** [v[i]] on a 1-D array or a list: IndexError out of range. *)
Definition getitem {S A : Type} (v : list A) (i : nat) : M S A :=
  match nth_error v i with
  | Some x => ret x
  | None => raise IndexError
  end.

(** [v[i] = x]: IndexError out of range. *)
Fixpoint update {A : Type} (v : list A) (i : nat) (x : A) : list A :=
  match v, i with
  | [], _ => []
  | _ :: v', O => x :: v'
  | y :: v', S i' => y :: update v' i' x
  end.

Definition setitem {S A : Type} (v : list A) (i : nat) (x : A) : M S (list A) :=
  if (i <? length v)%nat then ret (update v i x) else raise IndexError.

(** [v[mask]] for a boolean mask of the length of [v]: IndexError when the
    lengths differ. *)
Fixpoint select {A : Type} (mask : list bool) (v : list A) : list A :=
  match mask, v with
  | b :: mask', x :: v' => if b then x :: select mask' v' else select mask' v'
  | _, _ => []
  end.

Definition getmask {S A : Type} (v : list A) (mask : list bool) : M S (list A) :=
  if (length mask =? length v)%nat then ret (select mask v)
  else raise IndexError.

(** [mapM]: run [f] on every element, left to right. *)
Fixpoint mapM {S A B : Type} (f : A -> M S B) (xs : list A) : M S (list B) :=
  match xs with
  | [] => ret []
  | x :: xs' => (y <- f x ;; ys <- mapM f xs' ;; ret (y :: ys))%cell
  end.

(** [max(v)] and [v.max()]: ValueError on an empty array. *)
Definition maximum {S : Type} (v : vector) : M S R :=
  match v with
  | [] => raise ValueError
  | x :: v' => ret (fold_left Rmax v' x)
  end.

(* ===================================================================== *)
(** * float32, as far as its range goes                                   *)
(* ===================================================================== *)

(** The coefficients of the superposition are a complex64 array (HW2 line
    480: [np.zeros(cutoff, dtype=np.complex64)]), so their moduli, the
    squares, the sum of the squares and its square root are float32
    numbers.  A float32 result is read as the real number it stands for
    while that number is within the range of the format; a result too
    small for the format is 0.0 and one too large is inf.  Rounding within
    the range is not modelled.  Only results that are not negative occur
    here. *)
Module float32.

Inductive t : Type :=
| Finite (x : R)
| Inf.

(** Half of the smallest positive float32, 2^-149: a result up to here
    rounds to 0.0. *)
Definition underflow : R := / 2 ^ 150.

(** Half way from the largest float32, 2^128 - 2^104, to 2^128: a result
    from here on rounds to inf. *)
Definition overflow : R := 2 ^ 128 - 2 ^ 103.

(** The smallest normal float32. *)
Definition min_normal : R := / 2 ^ 126.

(** The float32 that an operation with the exact result [x >= 0] gives. *)
Definition round (x : R) : t :=
  if Rle_dec x underflow then Finite 0
  else if Rle_dec overflow x then Inf
  else Finite x.

(** [np.abs(z)] for a complex64 [z]. *)
Definition abs (z : complex) : t := round (Cabs z).

(** [x ** 2] *)
Definition square (x : t) : t :=
  match x with
  | Finite r => round (r ^ 2)
  | Inf => Inf
  end.

(** [x + y] *)
Definition add (x y : t) : t :=
  match x, y with
  | Finite a, Finite b => round (a + b)
  | _, _ => Inf
  end.

(** [A.sum()] on a 1-D float32 array. *)
Definition sum (v : list t) : t := fold_right add (Finite 0) v.

(** [np.sqrt(x)] *)
Definition sqrt (x : t) : t :=
  match x with
  | Finite r => round (R_sqrt.sqrt r)
  | Inf => Inf
  end.

(** [x > 0] *)
Definition positive (x : t) : bool :=
  match x with
  | Finite r => Rltb 0 r
  | Inf => true
  end.

(** [z / x] for a complex64 [z]: a finite number over inf is 0. *)
Definition divide (z : complex) (x : t) : complex :=
  match x with
  | Finite r => Cdivr z r
  | Inf => C0
  end.

End float32.

(* ===================================================================== *)
(** * HW2_quantum_phenomena.ipynb                                         *)
(* ===================================================================== *)

Module HW2.

(** ** The numerical core (lines 69-73, 103, 112, 122-125; again 430-445) *)

(** [X = np.linspace(0,L,num=N) - L/2] *)
Definition X (N : nat) (L : R) : vector :=
  map (fun x => x - L / 2) (np.linspace 0 L N).

(** [a = X[1] - X[0] # grid spacing] *)
Definition a {S : Type} (X : vector) : M S R :=
  (x1 <- getitem X 1 ;;
   x0 <- getitem X 0 ;;
   ret (x1 - x0))%cell.

(** [t = -eta**2 / (2 * m * a**2)] *)
Definition t (eta m a : R) : R := - eta ^ 2 / (2 * m * a ^ 2).

(** [eps = -2*t + q * V(X)], given the array [VX = V(X)]. *)
Definition eps (t q : R) (VX : vector) : vector :=
  np.sadd (-2 * t) (np.smul q VX).

(** [H = t*np.eye(N, k=-1) + eps*np.eye(N) + t*np.eye(N, k=1)] *)
Definition H (N : nat) (t : R) (eps : vector) : matrix :=
  np.add2 (np.add2 (np.smul2 t (np.eye N (-1))) (np.bmul eps (np.eye N 0)))
          (np.smul2 t (np.eye N 1)).

(** The same line as a statement: [eps*np.eye(N)] is a ValueError unless
    [eps] has N entries.  (A one-entry [eps] would broadcast; neither [V]
    of the notebook returns one for a longer grid.) *)
Definition build_H {S : Type} (N : nat) (t : R) (eps : vector) : M S matrix :=
  if (length eps =? N)%nat then ret (H N t eps) else raise ValueError.

(** The potential of the tunnelling part (lines 52-56):
[[
  def V(x):
      n = len(x)
      V = np.ones(n)*0
      V[np.abs(x)<=w/2] = 0.05
      return V
]]
    [w] is the notebook's global. *)
Module Tunnelling.
Definition V (w : R) (x : vector) : vector :=
  let n := length x in
  let V0 := map (fun o => o * 0) (np.ones n) in
  let mask := map (fun xi => Rleb (Rabs xi) (w / 2)) x in
  np.map2 (fun (b : bool) v => if b then 0.05 else v) mask V0.
End Tunnelling.

(** The potential of the superposition part (lines 422-423):
[[
  def V(x):
      return 0.001 * x**2
]] *)
Module Superposition.
Definition V (x : vector) : vector := map (fun xi => 0.001 * xi ^ 2) x.
End Superposition.

(** The reordering step that follows [vals, vecs = np.linalg.eig(H)]:
[[
  vals, vecs = vals[order], vecs[:, order]
  vecs = vecs.T
  vecs /= np.sqrt(a)
]] *)
Definition reorder (a : R) (order : list nat) (vals : vector) (vecs : matrix)
  : vector * matrix :=
  let vals' := np.take 0 order vals in
  let vecs1 := np.take_cols 0 order vecs in
  let vecs2 := np.transpose 0 vecs1 in
  let vecs3 := map (map (fun x => x / sqrt a)) vecs2 in
  (vals', vecs3).

(** [p = np.abs(vecs)**2] (line 215) *)
Definition p (vecs : matrix) : matrix := map (map np.abs_sq) vecs.

(** [p = np.abs(wave)**2] (lines 567 and 585) *)
Definition p_wave (wave : cvector) : vector := map np.cabs_sq wave.

(** The sum of [|coeff[m]|^2] over the reals, and the division of every
    entry by the square root of a real: what lines 506 and 508 come to
    when no intermediate result leaves the range of float32. *)
Definition norm (coeff : cvector) : R := np.sum (map np.cabs_sq coeff).

Definition divide_by_sqrt (coeff : cvector) (norm : R) : cvector :=
  map (fun c => Cdivr c (sqrt norm)) coeff.

(** [norm = (np.abs(coeff)**2).sum()] (line 506), in float32 as NumPy
    computes it for a complex64 [coeff]. *)
Definition norm_float32 (coeff : cvector) : float32.t :=
  float32.sum (map (fun z => float32.square (float32.abs z)) coeff).

(** [coeff /= np.sqrt(norm)] (line 508) *)
Definition divide_by_sqrt_float32 (coeff : cvector) (norm : float32.t)
  : cvector :=
  map (fun c => float32.divide c (float32.sqrt norm)) coeff.

(** ** The generator [evolve] (lines 528-537)
[[
  def evolve(coeff, psi, E, timestep=5, num_step=300):
      assert len(coeff) == len(psi) == len(E)
      ts = np.arange(num_step)*timestep
      t = 0
      cnt = 0
      while num_step is None or cnt < num_step:
          c = coeff * np.exp(- 1j * E / eta * t)
          cnt += 1
          t += timestep
          yield t, c @ psi
]]
    A generator object is its frame: the arguments, the locals and where
    it stands.  [timestep] is any Python number, hence a complex;
    [num_step] is an int or None. *)
Module Evolve.

Inductive status : Type := NotStarted | Suspended | Exhausted.

Record frame : Type :=
  { coeff : cvector;
    psi : cmatrix;
    E : vector;
    timestep : complex;
    num_step : option Z;
    ts : cvector;
    t : complex;
    cnt : Z;
    at_ : status }.

(** What [next(g)] gives. *)
Inductive next_result : Type :=
| Yielded (data : complex * cvector)
| StopIteration
| Raises (e : exn).

Definition exhausted (f : frame) : frame :=
  {| coeff := coeff f; psi := psi f; E := E f; timestep := timestep f;
     num_step := num_step f; ts := ts f; t := t f; cnt := cnt f;
     at_ := Exhausted |}.

(** The statements before the loop.  [np.arange(None)] is a TypeError. *)
Definition prologue (f : frame) : outcome frame :=
  if ((length (coeff f) =? length (psi f))
      && (length (psi f) =? length (E f)))%nat
  then
    match num_step f with
    | None => Raised TypeError
    | Some n =>
        Normal
          {| coeff := coeff f; psi := psi f; E := E f;
             timestep := timestep f; num_step := num_step f;
             ts := map (fun k => Cscale (timestep f) (IZR k)) (np.arange n);
             t := C0;
             cnt := 0;
             at_ := NotStarted |}
    end
  else Raised (AssertionError evolve_lengths_agree).

(** [c = coeff * np.exp(- 1j * E / eta * t)] *)
Definition c (eta : R) (f : frame) : cvector :=
  np.map2 Cmul (coeff f)
          (map (fun e => Cexp (Cmul (Cdivr (Cscale (Copp Ci) e) eta) (t f)))
               (E f)).

(** From the loop test to the next [yield], or out of the loop. *)
Definition loop (eta : R) (f : frame) : next_result * frame :=
  if match num_step f with
     | None => true
     | Some n => (cnt f <? n)%Z
     end
  then
    let c := c eta f in
    let cnt' := (cnt f + 1)%Z in
    let t' := Cadd (t f) (timestep f) in
    (Yielded (t', np.cvecmat c (psi f)),
     {| coeff := coeff f; psi := psi f; E := E f; timestep := timestep f;
        num_step := num_step f; ts := ts f; t := t'; cnt := cnt';
        at_ := Suspended |})
  else (StopIteration, exhausted f).

(** [next(g)], with the notebook's global [eta] as it is at the call. *)
Definition next (eta : R) (f : frame) : next_result * frame :=
  match at_ f with
  | Exhausted => (StopIteration, f)
  | Suspended => loop eta f
  | NotStarted =>
      match prologue f with
      | Normal f' => loop eta f'
      | Raised e => (Raises e, exhausted f)
      end
  end.

(** What a consumer that calls [next] up to [fuel] times collects, and
    how the generator ended, if it did. *)
Inductive ending : Type := stopped | raised (e : exn) | still_running.

Fixpoint collect (eta : R) (fuel : nat) (f : frame)
  : list (complex * cvector) * ending :=
  match fuel with
  | O => ([], still_running)
  | S fuel' =>
      match next eta f with
      | (Yielded data, f') =>
          let '(rest, e) := collect eta fuel' f' in (data :: rest, e)
      | (StopIteration, _) => ([], stopped)
      | (Raises e, _) => ([], raised e)
      end
  end.

End Evolve.

(** Calling [evolve(...)] runs none of its body. *)
Definition evolve (coeff : cvector) (psi : cmatrix) (E : vector)
           (timestep : complex) (num_step : option Z) : Evolve.frame :=
  {| Evolve.coeff := coeff; Evolve.psi := psi; Evolve.E := E;
     Evolve.timestep := timestep; Evolve.num_step := num_step;
     Evolve.ts := []; Evolve.t := C0; Evolve.cnt := 0;
     Evolve.at_ := Evolve.NotStarted |}.

(** The defaults [timestep=5, num_step=300]. *)
Definition default_timestep : complex := RtoC 5.
Definition default_num_step : option Z := Some 300%Z.


(** ** The code cells, in the order of the file.

    A cell takes the variables it reads and returns the ones it binds.
    Literals a student is invited to change ([N], [L], [w], the
    coefficients, [timestep], ...) are arguments; [notebook] below passes
    the values written in the file. *)

Local Open Scope cell_scope.
Local Open Scope string_scope.

(** Lines 30-32:
[[
  import numpy as np
  %matplotlib widget
  import matplotlib.pyplot as plt
]] *)
Definition cell_imports (lib : np.routines) : M world unit :=
  import_ (np.import_writes lib) "import numpy as np" ;;
  import_ (np.import_writes lib) "%matplotlib widget" ;;
  import_ (np.import_writes lib) "import matplotlib.pyplot as plt".

(** Lines 48-60: [N = 300], [L = 100], [w = 30], the definition of [V]
    ([Tunnelling.V], which reads [w] when called), [eta = 1], [m = 1],
    [q = 1].  It returns [(N, L, w, eta, m, q)]. *)
Definition cell_parameters : M world (nat * R * R * R * R * R) :=
  ret (300%nat, 100, 30, 1, 1, 1).

(** Lines 69-73. *)
Definition cell_grid (V : vector -> vector) (N : nat) (L eta m q : R)
  : M world (vector * R * R * vector) :=
  let X := X N L in
  a <- a X ;;
  let t := t eta m a in
  let eps := eps t q (V X) in
  ret (X, a, t, eps).

(** Lines 82-87, 144-149 and 454-459: the potential energy figure. *)
Definition cell_plot_potential (width height : Z) (V : vector -> vector)
           (X : vector) : M world unit :=
  plt (figure width height) ;;
  plt_plot X (V X) ;;
  plt (xlabel (lit "x")) ;;
  plt (ylabel (lit "V(x)")) ;;
  plt (title (lit "Potential Energy Surface")) ;;
  plt tight_layout.

(** Line 103. *)
Definition cell_H (N : nat) (t : R) (eps : vector) : M world matrix :=
  build_H N t eps.

(** Line 112: [vals, vecs = np.linalg.eig(H)]. *)
Definition cell_eig (lib : np.routines) (H : matrix)
  : M world (vector * matrix) :=
  ret (np.linalg_eig lib H).

(** Lines 122-126. *)
Definition cell_order (lib : np.routines) (a : R) (vals : vector)
           (vecs : matrix) : M world (list nat * vector * matrix) :=
  let order := np.argsort lib vals in
  let '(vals, vecs) := reorder a order vals vecs in
  print (lit "") ;;
  ret (order, vals, vecs).

(** Lines 144-162. *)
Definition cell_lowest (V : vector -> vector) (X vals : vector)
           (vecs : matrix) : M world unit :=
  cell_plot_potential 8 2 V X ;;
  plt (figure 8 2) ;;
  psi0 <- getitem vecs 0 ;;
  plt_plot X psi0 ;;
  plt (xlabel (lit "x")) ;;
  plt (ylabel (lit "Psi 0")) ;;
  E0 <- getitem vals 0 ;;
  plt (title (fmt "Lowest Energy Eigenfunction of a Particle in a Box With a Barrier (E_0 = {:.4f})"
                  [PyFloat E0])) ;;
  plt tight_layout ;;
  E0 <- getitem vals 0 ;;
  E0' <- getitem vals 0 ;;
  print (fmt (LF ++ "The lowest energy eigenvalue (E_0 = {:.4f}) is smaller than the potential energy from x = -15 to x = 15, "
                 ++ "which is 0.05 (see figure above). Yet, the energy eigenfunction is non-zero in this range. Classically, it would "
                 ++ "be impossible to find a particle with a total energy of {:.4f} in the range from x = -15 to 15.")
              [PyFloat E0; PyFloat E0']).

(** Lines 187-197. *)
Definition cell_eigenfunctions (X vals : vector) (vecs : matrix)
  : M world unit :=
  print (lit "") ;;
  plt (subplots 8 1) ;;
  plt (sca 0) ;;
  plt (title (lit "Energy eigenfunctions of a particle in a box, with a barrier")) ;;
  for_ (enumerate (firstn 8 (combine vecs vals)))
       (fun '(i, (psi, E)) =>
          plt (sca i) ;;
          plt (ylabel (fmt "Psi {}" [PyInt (Z.of_nat i)])) ;;
          plt_plot X psi ;;
          print (fmt "E_{} = {:.4f}" [PyInt (Z.of_nat i); PyFloat E])) ;;
  plt (xlabel (lit "x")).

(** Line 215. *)
Definition cell_p (vecs : matrix) : M world matrix := ret (p vecs).

(** Lines 224-232. *)
Definition cell_distributions (X : vector) (p : matrix) : M world unit :=
  plt (subplots 8 1) ;;
  plt (sca 0) ;;
  plt (title (lit "Position Distributions of a Particle in a Box with Barrier")) ;;
  for_ (enumerate (firstn 8 p))
       (fun '(i, p_i) =>
          plt (sca i) ;;
          plt (ylabel (fmt "p_{}(x)" [PyInt (Z.of_nat i)])) ;;
          plt_plot X p_i ;;
          plt_fill_between X p_i) ;;
  plt (xlabel (lit "x")).

(** Lines 262-291. *)
Definition cell_barrier (V : vector -> vector) (X : vector) (a : R)
           (vals : vector) (p : matrix) : M world (list bool * vector) :=
  let B := map (fun v => Rneqb v 0) (V X) in
  inside <- mapM (fun row => getmask row B) p ;;
  let barrier := np.smul a (map np.sum inside) in
  let num := 8%nat in
  plt (subplots 1 2) ;;
  plt (sca 0) ;;
  plt (title (lit "Energy Eigenvalue")) ;;
  plt_plot (map INR (seq 0 num)) (firstn num vals) ;;
  VB <- getmask (V X) B ;;
  plt_plot (map INR (seq 0 num)) (np.smul (np.mean VB) (np.ones num)) ;;
  plt (xlabel (lit "Level")) ;;
  plt (ylabel (lit "Energy (arb units)")) ;;
  plt (sca 1) ;;
  plt (title (lit "Probability of Being in Barrier")) ;;
  plt_plot (map INR (seq 0 num)) (firstn num barrier) ;;
  plt (xlabel (lit "Level")) ;;
  plt (ylabel (lit "Probability")) ;;
  plt tight_layout ;;
  print (lit "") ;;
  print (lit "Level | Energy Eigenvalue | Prob(B)") ;;
  print (lit "------+-------------------+--------") ;;
  for_ (enumerate (combine (firstn 8 vals) barrier))
       (fun '(i, (E, prob_barrier)) =>
          print (fmt "{:6}|       {:.4f}      |  {:.4f}"
                     [PyInt (Z.of_nat i); PyFloat E; PyFloat prob_barrier])) ;;
  ret (B, barrier).

(** Lines 400-403:
[[
  import matplotlib.animation as animation
  np.set_printoptions(precision=4, linewidth=110)

  print()
]] *)
Definition cell_printoptions (lib : np.routines) : M world unit :=
  import_ (np.import_writes lib) "import matplotlib.animation as animation" ;;
  print (lit "").

(** Lines 419-445: the whole numerical core in one cell.  It returns
    [X], [a], [H] and the energies and wavefunctions [vals], [vecs]. *)
Definition cell_solve (lib : np.routines) (V : vector -> vector) (N : nat)
           (L eta m q : R)
  : M world (vector * R * matrix * vector * matrix) :=
  let X := X N L in
  a <- a X ;;
  let t := t eta m a in
  let eps := eps t q (V X) in
  H <- build_H N t eps ;;
  let '(vals, vecs) := np.linalg_eig lib H in
  let order := np.argsort lib vals in
  let '(vals, vecs) := reorder a order vals vecs in
  ret (X, a, H, vals, vecs).

(** Lines 477-488.  [assignments] are the lines [coeff[k] = z]. *)
Fixpoint assign_all (coeff : cvector) (assignments : list (nat * complex))
  : M world cvector :=
  match assignments with
  | [] => ret coeff
  | (k, z) :: rest => coeff <- setitem coeff k z ;; assign_all coeff rest
  end.

Definition cell_superposition (cutoff : nat)
           (assignments : list (nat * complex)) (vals : vector)
           (vecs : matrix) : M world (cmatrix * vector * cvector) :=
  let psi := map (map RtoC) (firstn cutoff vecs) in
  let E := firstn cutoff vals in
  let coeff := repeat C0 cutoff in
  coeff <- assign_all coeff assignments ;;
  print (lit "") ;;
  ret (psi, E, coeff).

(** Lines 505-512:
[[
  try:
      norm = (np.abs(coeff)**2).sum()
      assert norm > 0
      coeff /= np.sqrt(norm)
  except AssertionError:
      print('Error: Norm is zero, you must set the coeffients to nonzero')

  print('\nCoeffients:', coeff)
]]
    [coeff] is the complex64 array of line 480, so [norm] is a float32.
    It returns [coeff] and [norm] as they are bound when the cell ends. *)
Definition normalize_try (coeff : cvector) : M world (cvector * float32.t) :=
  let norm := norm_float32 coeff in
  assert_ norm_is_positive (float32.positive norm) ;;
  let coeff := divide_by_sqrt_float32 coeff norm in
  ret (coeff, norm).

Definition normalize_except (coeff : cvector)
  : M world (cvector * float32.t) :=
  print (lit "Error: Norm is zero, you must set the coeffients to nonzero") ;;
  ret (coeff, norm_float32 coeff).

Definition cell_normalize (coeff : cvector)
  : M world (cvector * float32.t) :=
  r <- try_except_AssertionError (normalize_try coeff)
                                 (normalize_except coeff) ;;
  print (fmt (LF ++ "Coeffients: {}") [PyCArray (fst r)]) ;;
  ret r.

(** Lines 528-537: the cell that defines [evolve]. *)
Definition cell_def_evolve : M world unit := ret tt.

(** [run(data)] of lines 576-590: one frame of the animation. *)
Definition run (X : vector) (data : complex * cvector) : M world unit :=
  let '(t, wave) := data in
  plt (ax_set_title 0 (fmt "Wavefunction (t={:.2f})" [PyComplex t])) ;;
  plt (set_data wave_real X (map Re wave)) ;;
  plt (set_data wave_imag X (map Im wave)) ;;
  let p := p_wave wave in
  plt (set_data dens X p).

(** [c @ psi] as a statement: ValueError unless [psi] has len(c) rows. *)
Definition matmul {S : Type} (c : cvector) (psi : cmatrix) : M S cvector :=
  if (length c =? length psi)%nat then ret (np.cvecmat c psi)
  else raise ValueError.

(** [(coeff)**2 @ E] *)
Definition av_E {S : Type} (coeff : cvector) (E : vector) : M S complex :=
  if (length coeff =? length E)%nat
  then ret (np.csum (np.map2 (fun c e => Cscale (Cmul c c) e) coeff E))
  else raise ValueError.

(** real / complex *)
Definition Rdivc (r : R) (z : complex) : complex :=
  let d := Re z * Re z + Im z * Im z in
  mkC (r * Re z / d) (- (r * Im z) / d).

(** Lines 546-594, up to and including [plt.show()].  It returns the
    generator [evolution] that the animation will draw from, the initial
    [wave], and [p]. *)
Definition cell_animation (timestep : option complex) (num_step : option Z)
           (eta : R) (X : vector) (coeff : cvector) (psi : cmatrix)
           (E : vector) : M world (Evolve.frame * cvector * vector) :=
  timestep <-
    match timestep with
    | Some ts => ret ts
    | None =>
        av_E <- av_E coeff E ;;
        match num_step with
        | None => raise TypeError
        | Some n =>
            let timestep := Cdivr (Rdivc (2 * PI * eta) av_E) (IZR n) in
            print (fmt "Using timestep: {:.4f}" [PyComplex timestep]) ;;
            ret timestep
        end
    end ;;
  let evolution := evolve coeff psi E timestep num_step in
  print (lit (LF ++ "Real component in blue, imaginary in red")) ;;
  plt (subplots 2 1) ;;
  plt (ax_set_title 0 (lit "Wavefunction")) ;;
  plt (ax_set_ylabel 0 (lit "psi(x)")) ;;
  plt (ax_set_title 1 (lit "Probability Density")) ;;
  plt (ax_set_ylabel 1 (lit "p(x)")) ;;
  plt (ax_set_xlabel 1 (lit "x")) ;;
  wave <- matmul coeff psi ;;
  plt_ax_plot 0 wave_real X (map Re wave) ;;
  plt_ax_plot 0 wave_imag X (map Im wave) ;;
  let p := p_wave wave in
  plt_ax_plot 1 dens X p ;;
  plt (ax_grid 0) ;;
  plt (ax_grid 1) ;;
  top <- maximum (map sqrt p) ;;
  let lim := top + 0.1 in
  plt (ax_set_ylim 0 (- lim) lim) ;;
  pmax <- maximum p ;;
  plt (ax_set_ylim 1 (- 0.0001) (pmax + 0.02)) ;;
  plt (FuncAnimation 10 1000) ;;
  plt show ;;
  ret (evolution, wave, p).

(** One frame drawn by [FuncAnimation(fig, run, evolution, ...)]: it takes
    the next item of the generator and hands it to [run]; when the
    generator is exhausted the animation stops ([repeat=False]). *)
Definition animation_frame (eta : R) (X : vector) (evolution : Evolve.frame)
  : M world Evolve.frame :=
  match Evolve.next eta evolution with
  | (Evolve.Yielded data, evolution') => run X data ;; ret evolution'
  | (Evolve.StopIteration, evolution') => ret evolution'
  | (Evolve.Raises e, _) => raise e
  end.

Fixpoint animation_frames (frames : nat) (eta : R) (X : vector)
         (evolution : Evolve.frame) : M world Evolve.frame :=
  match frames with
  | O => ret evolution
  | S frames' =>
      evolution' <- animation_frame eta X evolution ;;
      animation_frames frames' eta X evolution'
  end.

(** ** The notebook as written: every cell once, top to bottom, with the
    literals of the file; the figure of the last cell is left open for
    [frames] frames. *)
Definition notebook (lib : np.routines) (frames : nat) : M world unit :=
  cell_imports lib ;;
  '(N, L, w, eta, m, q) <- cell_parameters ;;
  let V := Tunnelling.V w in
  '(X, a, t, eps) <- cell_grid V N L eta m q ;;
  cell_plot_potential 3 2 V X ;;
  H <- cell_H N t eps ;;
  '(vals, vecs) <- cell_eig lib H ;;
  '(order, vals, vecs) <- cell_order lib a vals vecs ;;
  cell_lowest V X vals vecs ;;
  cell_eigenfunctions X vals vecs ;;
  p <- cell_p vecs ;;
  cell_distributions X p ;;
  _ <- cell_barrier V X a vals p ;;
  cell_printoptions lib ;;
  (* lines 419-428: N = 200, L = 100, V, eta = m = q = 1 *)
  let eta := 1 in
  '(X, a, H, vals, vecs) <-
    cell_solve lib Superposition.V 200 100 eta 1 1 ;;
  cell_plot_potential 3 2 Superposition.V X ;;
  '(psi, E, coeff) <-
    cell_superposition 20
      [(4%nat, RtoC 1); (0%nat, Ci); (3%nat, RtoC (-2.5))] vals vecs ;;
  '(coeff, norm) <- cell_normalize coeff ;;
  cell_def_evolve ;;
  '(evolution, wave, p) <-
    cell_animation (Some (RtoC 1)) (Some 300%Z) eta X coeff psi E ;;
  _ <- animation_frames frames eta X evolution ;;
  ret tt.

End HW2.


(** What NumPy's LAPACK and sorting routines return is not computed here;
    it is described.  [np.linalg.eig(H)] returns [(vals, vecs)] with column
    [j] of [vecs] an eigenvector of [H] for [vals[j]]. *)
Definition eigenpair (H : matrix) (lam : R) (v : vector) : Prop :=
  np.matvec H v = np.smul lam v.

Definition eig_result (N : nat) (H : matrix) (vals : vector) (vecs : matrix)
  : Prop :=
  length vals = N /\ length vecs = N /\
  (forall row, In row vecs -> length row = N) /\
  forall j, (j < N)%nat -> eigenpair H (nth j vals 0) (np.col 0 j vecs).

(** [np.argsort(vals)] returns the indices [0 .. len(vals)-1] in an order
    that sorts [vals] (which of two equal values comes first is the
    routine's choice). *)
Definition argsort_result (vals : vector) (order : list nat) : Prop :=
  Permutation order (seq 0 (length vals)) /\
  Sorted Rle (np.take 0 order vals).

(* ===================================================================== *)
(** * HW4_cats_and_qubits.ipynb                                           *)
(* ===================================================================== *)

(** A Python [dict] with string keys, in insertion order. *)
Fixpoint dict_get {V : Type} (d : list (string * V)) (k : string) : option V :=
  match d with
  | [] => None
  | (k', v) :: d' => if String.eqb k k' then Some v else dict_get d' k
  end.

Fixpoint dict_set {V : Type} (d : list (string * V)) (k : string) (v : V)
  : list (string * V) :=
  match d with
  | [] => [(k, v)]
  | (k', v') :: d' =>
      if String.eqb k k' then (k', v) :: d' else (k', v') :: dict_set d' k v
  end.

(** [d[k]]: KeyError for a missing key. *)
Definition dict_item {S V : Type} (d : list (string * V)) (k : string) : M S V :=
  match dict_get d k with
  | Some v => ret v
  | None => raise KeyError
  end.

(** [n / m] on Python ints. *)
Definition true_div {S : Type} (n m : nat) : M S R :=
  if (m =? 0)%nat then raise ZeroDivisionError else ret (INR n / INR m).

(** A [for] loop that updates the variables [acc]. *)
Fixpoint for_acc {S A B : Type} (xs : list A) (acc : B)
         (body : A -> B -> M S B) : M S B :=
  match xs with
  | [] => ret acc
  | x :: xs' => (acc' <- body x acc ;; for_acc xs' acc' body)%cell
  end.

Module HW4.

Local Open Scope cell_scope.
Local Open Scope string_scope.

(** Lines 41-48:
[[
  import numpy as np
  %matplotlib widget
  import matplotlib.pyplot as plt
  from qiskit import QuantumCircuit
  from qiskit.primitives import StatevectorSampler
  from qiskit_aer import AerSimulator # for simulating circuits
  from qiskit.visualization import plot_histogram
  from qiskit.transpiler.preset_passmanagers import generate_preset_pass_manager
]] *)
Definition cell_imports (sim : qiskit.simulators) : M world unit :=
  import_ (qiskit.import_writes sim) "import numpy as np" ;;
  import_ (qiskit.import_writes sim) "%matplotlib widget" ;;
  import_ (qiskit.import_writes sim) "import matplotlib.pyplot as plt" ;;
  import_ (qiskit.import_writes sim) "from qiskit import QuantumCircuit" ;;
  import_ (qiskit.import_writes sim)
          "from qiskit.primitives import StatevectorSampler" ;;
  import_ (qiskit.import_writes sim) "from qiskit_aer import AerSimulator" ;;
  import_ (qiskit.import_writes sim)
          "from qiskit.visualization import plot_histogram" ;;
  import_ (qiskit.import_writes sim)
          "from qiskit.transpiler.preset_passmanagers import generate_preset_pass_manager".

(** [qc.draw("mpl")] followed by [plt.draw()]. *)
Definition draw_circuit (qc : qiskit.QuantumCircuit) : M world unit :=
  api (qiskit.qc_draw "mpl") ;;
  plt (circuit_drawing qc) ;;
  plt draw.

(** [qc.h(qubit)]: CircuitError for a qubit the circuit does not have. *)
Definition h (qubit : nat) (qc : qiskit.QuantumCircuit)
  : M world qiskit.QuantumCircuit :=
  if (qubit <? qiskit.num_qubits qc)%nat
  then api (qiskit.qc_h qubit) ;; ret (qiskit.append (qiskit.h qubit) qc)
  else raise CircuitError.

(** [qc.cx(control, target)]: CircuitError for a missing or repeated
    qubit. *)
Definition cx (control target : nat) (qc : qiskit.QuantumCircuit)
  : M world qiskit.QuantumCircuit :=
  if ((control <? qiskit.num_qubits qc) && (target <? qiskit.num_qubits qc)
      && negb (control =? target))%nat
  then api (qiskit.qc_cx control target) ;;
       ret (qiskit.append (qiskit.cx control target) qc)
  else raise CircuitError.

(** [qc.measure_all()] *)
Definition measure_all (qc : qiskit.QuantumCircuit)
  : M world qiskit.QuantumCircuit :=
  api qiskit.qc_measure_all ;; ret (qiskit.measure_all qc).

(** Line 64 (and line 228 with the drawing): [qc = QuantumCircuit(n)]. *)
Definition cell_new_circuit (n : nat) : M world qiskit.QuantumCircuit :=
  api (qiskit.QuantumCircuit_ n) ;; ret (qiskit.new n).

(** Lines 82-83. *)
Definition cell_draw (qc : qiskit.QuantumCircuit) : M world unit := draw_circuit qc.

(** Lines 103-106. *)
Definition cell_hadamard_measure (qc : qiskit.QuantumCircuit)
  : M world qiskit.QuantumCircuit :=
  qc <- h 0 qc ;;
  qc <- measure_all qc ;;
  draw_circuit qc ;;
  ret qc.

(** Lines 142-145.  [data] is what was sampled: one bitstring per shot. *)
Definition cell_sample (sim : qiskit.simulators) (qc : qiskit.QuantumCircuit)
  : M world (list string) :=
  api qiskit.StatevectorSampler_ ;;
  api (qiskit.sampler_run qc) ;;
  api qiskit.job_result ;;
  ret (qiskit.statevector_bitstrings sim qc).

(** Lines 154-155. *)
Definition cell_bitstrings (data : list string) : M world (list string) :=
  api qiskit.get_bitstrings ;;
  let bitstrings := data in
  print (fmt "The number of bitstrings is: {}"
             [PyInt (Z.of_nat (length bitstrings))]) ;;
  ret bitstrings.

(** Lines 165-168. *)
Definition cell_counts (data : list string) : M world (list (string * nat)) :=
  api qiskit.get_counts ;;
  let counts := qiskit.counts_of data in
  print (fmt "The counts are: {}" [PyCounts counts]) ;;
  api (qiskit.plot_histogram counts) ;;
  plt (histogram counts) ;;
  plt draw ;;
  ret counts.

(** Lines 177-185:
[[
  probs = {}
  total_counts = len(bitstrings)
  total_prob = 0

  for state in counts.keys():
      probs[state] = counts[state]/total_counts
      total_prob += counts[state]/total_counts

  print(f"The probabilities of each state: {probs}")
]] *)
Definition cell_probs (bitstrings : list string)
           (counts : list (string * nat))
  : M world (list (string * R) * nat * R) :=
  let probs := [] in
  let total_counts := length bitstrings in
  let total_prob := 0%R in
  '(probs, total_prob) <-
    for_acc (map fst counts) (probs, total_prob)
      (fun state '(probs, total_prob) =>
         n <- dict_item counts state ;;
         x <- true_div n total_counts ;;
         let probs := dict_set probs state x in
         n <- dict_item counts state ;;
         y <- true_div n total_counts ;;
         let total_prob := (total_prob + y)%R in
         ret (probs, total_prob)) ;;
  print (fmt "The probabilities of each state: {}" [PyProbs probs]) ;;
  ret (probs, total_counts, total_prob).

(** Lines 228-230. *)
Definition cell_new_circuit_drawn (n : nat) : M world qiskit.QuantumCircuit :=
  qc <- cell_new_circuit n ;;
  draw_circuit qc ;;
  ret qc.

(** Lines 253-255. *)
Definition cell_hadamard (qc : qiskit.QuantumCircuit)
  : M world qiskit.QuantumCircuit :=
  qc <- h 0 qc ;;
  draw_circuit qc ;;
  ret qc.

(** Lines 273-276. *)
Definition cell_cnot_measure (qc : qiskit.QuantumCircuit)
  : M world qiskit.QuantumCircuit :=
  qc <- cx 0 1 qc ;;
  qc <- measure_all qc ;;
  draw_circuit qc ;;
  ret qc.

(** Lines 305-316:
[[
  from qiskit_ibm_runtime.fake_provider import FakeSherbrooke
  from qiskit import transpile

  backend = FakeSherbrooke()
  # Transpile circuit
  transpiled_circuit = transpile(qc, backend)
  # Run using sampler
  job = backend.run(transpiled_circuit)
  counts = job.result().get_counts()
  print(f"The counts are: {counts}")
  plot_histogram(counts)
  plt.draw()
]] *)
Definition cell_backend (sim : qiskit.simulators)
           (qc : qiskit.QuantumCircuit) : M world (list (string * nat)) :=
  import_ (qiskit.import_writes sim)
          "from qiskit_ibm_runtime.fake_provider import FakeSherbrooke" ;;
  import_ (qiskit.import_writes sim) "from qiskit import transpile" ;;
  api qiskit.FakeSherbrooke_ ;;
  api (qiskit.transpile qc) ;;
  library_write (qiskit.transpile_writes sim qc) ;;
  let transpiled_circuit := qiskit.transpile_for_backend sim qc in
  api (qiskit.backend_run transpiled_circuit) ;;
  api qiskit.job_result ;;
  api qiskit.get_counts ;;
  let counts := qiskit.backend_counts sim transpiled_circuit in
  print (fmt "The counts are: {}" [PyCounts counts]) ;;
  api (qiskit.plot_histogram counts) ;;
  plt (histogram counts) ;;
  plt draw ;;
  ret counts.

(** Lines 393-419: three cells that hold comments only. *)
Definition cell_empty : M world unit := ret tt.

(** The notebook as written: every cell once, top to bottom. *)
Definition notebook (sim : qiskit.simulators) : M world unit :=
  cell_imports sim ;;
  qc <- cell_new_circuit 1 ;;
  cell_draw qc ;;
  qc <- cell_hadamard_measure qc ;;
  data <- cell_sample sim qc ;;
  bitstrings <- cell_bitstrings data ;;
  counts <- cell_counts data ;;
  _ <- cell_probs bitstrings counts ;;
  qc <- cell_new_circuit_drawn 2 ;;
  qc <- cell_hadamard qc ;;
  qc <- cell_cnot_measure qc ;;
  counts <- cell_backend sim qc ;;
  cell_empty ;;
  cell_empty ;;
  cell_empty.

(** The stages of the calls a run made, in order, with repeats of one
    stage merged. *)
Fixpoint merge_repeats (l : list qiskit.stage) : list qiskit.stage :=
  match l with
  | [] => []
  | s :: l' =>
      match merge_repeats l' with
      | [] => [s]
      | s' :: r =>
          match s, s' with
          | qiskit.construction, qiskit.construction
          | qiskit.transpilation, qiskit.transpilation
          | qiskit.sampling, qiskit.sampling => s' :: r
          | _, _ => s :: s' :: r
          end
      end
  end.

Fixpoint stages_of (calls : list qiskit.call) : list qiskit.stage :=
  match calls with
  | [] => []
  | c :: calls' =>
      match qiskit.stage_of c with
      | Some s => s :: stages_of calls'
      | None => stages_of calls'
      end
  end.

Definition stages (calls : list qiskit.call) : list qiskit.stage :=
  merge_repeats (stages_of calls).

(** "Construction, then transpilation, then sampling": no call of an
    earlier stage after a call of a later one. *)
Definition rank (s : qiskit.stage) : nat :=
  match s with
  | qiskit.construction => 0
  | qiskit.transpilation => 1
  | qiskit.sampling => 2
  end.

Fixpoint in_order (l : list qiskit.stage) : bool :=
  match l with
  | [] => true
  | s :: l' =>
      forallb (fun s' => (rank s <=? rank s')%nat) l' && in_order l'
  end.

End HW4.

(** The initial world: nothing printed, drawn, called or stored. *)
Definition empty_world : world :=
  {| stdout := []; figures := []; qiskit_calls := [];
     outside := {| files := []; database := []; network := [] |} |}.

(* ===================================================================== *)
(** * Worlds and sample inputs used in the statements below               *)
(* ===================================================================== *)

(** The world [w] after the lines [x] were printed. *)
Definition printed (x : list text) (w : world) : world :=
  {| stdout := stdout w ++ x; figures := figures w;
     qiskit_calls := qiskit_calls w; outside := outside w |}.

(** A 2 by 2 example: what [np.linalg.eig] and [np.argsort] return for
    [[2, -1], [-1, 2]] when LAPACK lists the eigenvalue 3 first. *)
Definition sample_matrix : matrix := [[2; -1]; [-1; 2]].

Definition sample_lib : np.routines :=
  {| np.linalg_eig := fun _ => ([3; 1], [[1; 1]; [-1; 1]]);
     np.argsort := fun _ => [1%nat; 0%nat];
     np.import_writes := fun _ o => o |}.

Definition sample_vecs : matrix := [[3; -4]].

(** An assert statement fires when some run of the code around it raises
    its AssertionError: the [try] body of the normalisation cell, or a
    [next] on an [evolve] generator. *)
Definition fires (s : assert_site) : Prop :=
  (exists coeff w,
      fst (HW2.normalize_try coeff w) = Raised (AssertionError s)) \/
  (exists eta g,
      fst (HW2.Evolve.next eta g) = HW2.Evolve.Raises (AssertionError s)).

(** "Exactly one assert statement": any two assertion failures come from
    the same statement. *)
Definition one_assert_statement : Prop :=
  forall s1 s2 : assert_site, fires s1 -> fires s2 -> s1 = s2.

(** "No failure recovery": whatever the [try] body of the normalisation
    cell raises leaves the cell as that exception. *)
Definition no_failure_recovery : Prop :=
  forall coeff w e,
    fst (HW2.normalize_try coeff w) = Raised e ->
    fst (HW2.cell_normalize coeff w) = Raised e.

(** The frame of [evolve(coeff, psi, E, timestep, n)] when [k] pairs have
    been yielded. *)
Definition evolve_at (coeff : cvector) (psi : cmatrix) (E : vector)
           (timestep : complex) (n : Z) (k : nat) (st : HW2.Evolve.status)
  : HW2.Evolve.frame :=
  {| HW2.Evolve.coeff := coeff; HW2.Evolve.psi := psi; HW2.Evolve.E := E;
     HW2.Evolve.timestep := timestep; HW2.Evolve.num_step := Some n;
     HW2.Evolve.ts := map (fun j => Cscale timestep (IZR j)) (np.arange n);
     HW2.Evolve.t := Cscale timestep (INR k);
     HW2.Evolve.cnt := Z.of_nat k;
     HW2.Evolve.at_ := st |}.

(** The pair of the k-th [yield] (from 0) in closed form:
    [((k+1)*timestep, (coeff * exp(-1j * E * (k*timestep) / eta)) @ psi)]. *)
Definition kth_pair (eta : R) (coeff : cvector) (psi : cmatrix) (E : vector)
           (timestep : complex) (k : nat) : complex * cvector :=
  (Cscale timestep (INR (k + 1)),
   np.cvecmat
     (np.map2 Cmul coeff
        (map (fun e =>
                Cexp (Cdivr (Cmul (Cscale (Copp Ci) e)
                                  (Cscale timestep (INR k))) eta))
             E))
     psi).

(** The code cells of the two notebooks (and the animation callback and
    its driver), at any values of the variables they read. *)
(** The circuits the notebook builds. *)
Definition one_qubit_circuit : qiskit.QuantumCircuit :=
  qiskit.measure_all (qiskit.append (qiskit.h 0) (qiskit.new 1)).

Definition cat_state_circuit : qiskit.QuantumCircuit :=
  qiskit.measure_all
    (qiskit.append (qiskit.cx 0 1) (qiskit.append (qiskit.h 0) (qiskit.new 2))).

(** The import statements of the two notebooks, as they stand in the
    source (a trailing comment left out). *)
Definition HW2_import_statements : list string :=
  ["import numpy as np"; "%matplotlib widget";
   "import matplotlib.pyplot as plt"]%string.

Definition HW2_animation_import : string :=
  "import matplotlib.animation as animation"%string.

Definition HW4_import_statements : list string :=
  ["import numpy as np"; "%matplotlib widget";
   "import matplotlib.pyplot as plt";
   "from qiskit import QuantumCircuit";
   "from qiskit.primitives import StatevectorSampler";
   "from qiskit_aer import AerSimulator";
   "from qiskit.visualization import plot_histogram";
   "from qiskit.transpiler.preset_passmanagers import generate_preset_pass_manager"]%string.

Definition HW4_backend_import_statements : list string :=
  ["from qiskit_ibm_runtime.fake_provider import FakeSherbrooke";
   "from qiskit import transpile"]%string.

(** The code cells of the two notebooks (and the animation callback and
    its driver), at any values of the variables they read, each with the
    writes it hands to the libraries, in the order of the cell: those of
    its import statements and of [transpile].  Most cells have none. *)
Inductive cell :
  forall A : Type, M world A -> list (persistent -> persistent) -> Prop :=
| HW2_imports lib :
    cell (HW2.cell_imports lib)
         (map (np.import_writes lib) HW2_import_statements)
| HW2_parameters : cell HW2.cell_parameters []
| HW2_grid V N L eta m q : cell (HW2.cell_grid V N L eta m q) []
| HW2_plot_potential wd ht V X : cell (HW2.cell_plot_potential wd ht V X) []
| HW2_H N t eps : cell (HW2.cell_H N t eps) []
| HW2_eig lib H : cell (HW2.cell_eig lib H) []
| HW2_order lib a vals vecs : cell (HW2.cell_order lib a vals vecs) []
| HW2_lowest V X vals vecs : cell (HW2.cell_lowest V X vals vecs) []
| HW2_eigenfunctions X vals vecs :
    cell (HW2.cell_eigenfunctions X vals vecs) []
| HW2_p vecs : cell (HW2.cell_p vecs) []
| HW2_distributions X p : cell (HW2.cell_distributions X p) []
| HW2_barrier V X a vals p : cell (HW2.cell_barrier V X a vals p) []
| HW2_printoptions lib :
    cell (HW2.cell_printoptions lib)
         [np.import_writes lib HW2_animation_import]
| HW2_solve lib V N L eta m q : cell (HW2.cell_solve lib V N L eta m q) []
| HW2_superposition cutoff assignments vals vecs :
    cell (HW2.cell_superposition cutoff assignments vals vecs) []
| HW2_normalize coeff : cell (HW2.cell_normalize coeff) []
| HW2_def_evolve : cell HW2.cell_def_evolve []
| HW2_animation timestep num_step eta X coeff psi E :
    cell (HW2.cell_animation timestep num_step eta X coeff psi E) []
| HW2_run X data : cell (HW2.run X data) []
| HW2_animation_frames frames eta X evolution :
    cell (HW2.animation_frames frames eta X evolution) []
| HW2_notebook lib frames :
    cell (HW2.notebook lib frames)
         (map (np.import_writes lib)
              (HW2_import_statements ++ [HW2_animation_import]))
| HW4_imports sim :
    cell (HW4.cell_imports sim)
         (map (qiskit.import_writes sim) HW4_import_statements)
| HW4_new_circuit n : cell (HW4.cell_new_circuit n) []
| HW4_draw qc : cell (HW4.cell_draw qc) []
| HW4_hadamard_measure qc : cell (HW4.cell_hadamard_measure qc) []
| HW4_sample sim qc : cell (HW4.cell_sample sim qc) []
| HW4_bitstrings data : cell (HW4.cell_bitstrings data) []
| HW4_counts data : cell (HW4.cell_counts data) []
| HW4_probs bitstrings counts : cell (HW4.cell_probs bitstrings counts) []
| HW4_new_circuit_drawn n : cell (HW4.cell_new_circuit_drawn n) []
| HW4_hadamard qc : cell (HW4.cell_hadamard qc) []
| HW4_cnot_measure qc : cell (HW4.cell_cnot_measure qc) []
| HW4_backend sim qc :
    cell (HW4.cell_backend sim qc)
         (map (qiskit.import_writes sim) HW4_backend_import_statements
          ++ [qiskit.transpile_writes sim qc])
| HW4_empty : cell HW4.cell_empty []
| HW4_notebook sim :
    cell (HW4.notebook sim)
         (map (qiskit.import_writes sim)
              (HW4_import_statements ++ HW4_backend_import_statements)
          ++ [qiskit.transpile_writes sim cat_state_circuit]).

(** The library writes [l], done in order on the state [o]. *)
Definition after_writes (l : list (persistent -> persistent))
           (o : persistent) : persistent :=
  fold_left (fun o f => f o) l o.

(** The effect of [c] is confined to the process, but for the library
    writes [l]: text is printed, figure commands and qiskit calls are
    added, and what outlives the process (files, database, network) is
    what the writes of [l] that were reached have made of it: all of them
    when [c] ends normally, the first of them when an exception ends it
    before the others. *)
Definition confined (l : list (persistent -> persistent)) {A : Type}
           (c : M world A) : Prop :=
  forall w : world,
    (exists done rest,
        l = done ++ rest /\
        outside (snd (c w)) = after_writes done (outside w) /\
        (forall a, fst (c w) = Normal a -> rest = [])) /\
    (exists out, stdout (snd (c w)) = stdout w ++ out) /\
    (exists figs, figures (snd (c w)) = figures w ++ figs) /\
    (exists calls, qiskit_calls (snd (c w)) = qiskit_calls w ++ calls).

(** "No operation writes persistent state": whatever the libraries are,
    every cell leaves what outlives the process as it was. *)
Definition nothing_persistent_written : Prop :=
  forall (A : Type) (c : M world A) (l : list (persistent -> persistent))
         (w : world),
    cell c l -> outside (snd (c w)) = outside w.

(** An installation in which matplotlib is imported for the first time:
    the import builds the font cache and writes it to a file.  Nothing
    else is written. *)
Definition font_cache : string * string :=
  ("matplotlib/fontlist.json", "the fonts found on this machine")%string.

Definition first_import_writes (statement : string) (o : persistent)
  : persistent :=
  if String.eqb statement "import matplotlib.pyplot as plt"
  then {| files := files o ++ [font_cache];
          database := database o;
          network := network o |}
  else o.

Definition first_import_lib : np.routines :=
  {| np.linalg_eig := np.linalg_eig sample_lib;
     np.argsort := np.argsort sample_lib;
     np.import_writes := first_import_writes |}.

(** Simulators that answer with fixed samples: two shots for the sampler,
    counts with a little noise for the backend.  The installation writes
    nothing. *)
Definition sample_sim : qiskit.simulators :=
  {| qiskit.statevector_bitstrings := fun _ => ["0"; "1"]%string;
     qiskit.transpile_for_backend := fun qc => qc;
     qiskit.backend_counts :=
       fun _ => [("00", 500%nat); ("11", 510%nat); ("01", 14%nat)]%string;
     qiskit.import_writes := fun _ o => o;
     qiskit.transpile_writes := fun _ o => o |}.

(** The same simulators on an installation where matplotlib is imported
    for the first time and [transpile] leaves a cache file. *)
Definition transpile_cache : string * string :=
  ("qiskit/transpile.cache", "the passes of the last transpilation")%string.

Definition first_run_sim : qiskit.simulators :=
  {| qiskit.statevector_bitstrings := qiskit.statevector_bitstrings sample_sim;
     qiskit.transpile_for_backend := qiskit.transpile_for_backend sample_sim;
     qiskit.backend_counts := qiskit.backend_counts sample_sim;
     qiskit.import_writes := first_import_writes;
     qiskit.transpile_writes :=
       fun _ o => {| files := files o ++ [transpile_cache];
                     database := database o;
                     network := network o |} |}.

(** The quotient [counts[state]/total_counts] of the loop of lines 181-183. *)
Definition quotient (counts : list (string * nat)) (total_counts : nat)
           (state : string) : R :=
  match dict_get counts state with
  | Some n => INR n / INR total_counts
  | None => 0
  end.

(** The calls into qiskit that one run of HW4 makes, in order. *)
Definition HW4_calls (sim : qiskit.simulators) : list qiskit.call :=
  [ qiskit.QuantumCircuit_ 1;
    qiskit.qc_draw "mpl";
    qiskit.qc_h 0;
    qiskit.qc_measure_all;
    qiskit.qc_draw "mpl";
    qiskit.StatevectorSampler_;
    qiskit.sampler_run one_qubit_circuit;
    qiskit.job_result;
    qiskit.get_bitstrings;
    qiskit.get_counts;
    qiskit.plot_histogram
      (qiskit.counts_of (qiskit.statevector_bitstrings sim one_qubit_circuit));
    qiskit.QuantumCircuit_ 2;
    qiskit.qc_draw "mpl";
    qiskit.qc_h 0;
    qiskit.qc_draw "mpl";
    qiskit.qc_cx 0 1;
    qiskit.qc_measure_all;
    qiskit.qc_draw "mpl";
    qiskit.FakeSherbrooke_;
    qiskit.transpile cat_state_circuit;
    qiskit.backend_run (qiskit.transpile_for_backend sim cat_state_circuit);
    qiskit.job_result;
    qiskit.get_counts;
    qiskit.plot_histogram
      (qiskit.backend_counts
         sim (qiskit.transpile_for_backend sim cat_state_circuit)) ].

(** [c] ends normally with the value [a], having made exactly the qiskit
    calls [l], in whatever world it starts. *)
Definition makes {A : Type} (c : M world A) (a : A) (l : list qiskit.call)
  : Prop :=
  forall w : world,
    fst (c w) = Normal a /\ qiskit_calls (snd (c w)) = qiskit_calls w ++ l.

(** The same when the value does not matter. *)
Definition makes_any {A : Type} (c : M world A) (l : list qiskit.call)
  : Prop :=
  forall w : world,
  exists a : A,
    fst (c w) = Normal a /\ qiskit_calls (snd (c w)) = qiskit_calls w ++ l.

(* ===================================================================== *)
(** * Further notions used in the statements below                        *)
(* ===================================================================== *)

(** [u[i-1]] with the wall at the left end: 0 for [i = 0]. *)
Definition left_neighbour (u : vector) (i : nat) : R :=
  match i with
  | O => 0
  | S k => nth k u 0
  end.

(** A diagonal 2 by 2 example with eigenvectors of unit length, as
    [np.linalg.eig] normalises them. *)
Definition diagonal_matrix : matrix := [[2; 0]; [0; 1]].
Definition diagonal_vals : vector := [2; 1].
Definition diagonal_vecs : matrix := [[1; 0]; [0; 1]].

(** [c] ends normally with the value [a], in whatever world it starts. *)
Definition returns {A : Type} (c : M world A) (a : A) : Prop :=
  forall w : world, fst (c w) = Normal a.

(** [c] ends normally, in whatever world it starts. *)
Definition completes {A : Type} (c : M world A) : Prop :=
  forall w : world, exists a : A, fst (c w) = Normal a.

(** The shapes of what NumPy's routines return: [np.linalg.eig] of an N by
    N array gives N eigenvalues and an N by N array of eigenvectors;
    [np.argsort] of an array gives a permutation of its indices. *)
Definition eig_shapes (lib : np.routines) : Prop :=
  forall (H : matrix) (N : nat),
    length H = N -> (forall row, In row H -> length row = N) ->
    length (fst (np.linalg_eig lib H)) = N /\
    length (snd (np.linalg_eig lib H)) = N /\
    forall row, In row (snd (np.linalg_eig lib H)) -> length row = N.

Definition argsort_permutes (lib : np.routines) : Prop :=
  forall vals : vector,
    Permutation (np.argsort lib vals) (seq 0 (length vals)).

(** Routines with the right shapes (and the right answers on a diagonal
    matrix with increasing entries). *)
Definition shape_lib : np.routines :=
  {| np.linalg_eig :=
       fun H => (map (fun i => nth i (nth i H []) 0) (seq 0 (length H)),
                 np.eye (length H) 0);
     np.argsort := fun vals => seq 0 (length vals);
     np.import_writes := fun _ o => o |}.

(** [c] raises [e], in whatever world it starts. *)
Definition raises {A : Type} (c : M world A) (e : exn) : Prop :=
  forall w : world, fst (c w) = Raised e.

(** What the lines [coeff[k] = z], run in order, leave at index [k]: the
    value of the last of them that names [k], if any. *)
Fixpoint last_assigned (assignments : list (nat * complex)) (k : nat)
  : option complex :=
  match assignments with
  | [] => None
  | (k', z) :: rest =>
      match last_assigned rest k with
      | Some z' => Some z'
      | None => if (k =? k')%nat then Some z else None
      end
  end.

(** The number of shots a dictionary of counts accounts for. *)
Definition total_of (counts : list (string * nat)) : nat :=
  fold_right Nat.add 0%nat (map snd counts).

(** Rows that are orthogonal to each other, each with [row . row = s]. *)
Fixpoint orthonormal (s : R) (rows : matrix) : Prop :=
  match rows with
  | [] => True
  | r :: rest =>
      np.dot r r = s /\ Forall (fun r' => np.dot r r' = 0) rest /\
      orthonormal s rest
  end.

(** [sum over m of x[m] * rows[m][j]]: entry [j] of [x @ rows]. *)
Definition combination (x : vector) (rows : matrix) (j : nat) : R :=
  np.sum (np.map2 (fun xm row => xm * nth j row 0) x rows).

(** A 3-point example with a potential that is not constant: the grid
    [-1, 0, 1], [V(x) = (1 - x^2)/2], [eta = m = q = 1], for which
    [H = [[1, -1/2, 0], [-1/2, 3/2, -1/2], [0, -1/2, 1]]] has the
    eigenvalues 1/2, 1 and 2; [np.linalg.eig] may list them in any order,
    here 2, 1/2, 1. *)
Definition bump_potential (x : R) : R := (1 - x ^ 2) / 2.

Definition three_point_lib : np.routines :=
  {| np.linalg_eig :=
       fun _ => ([2; 1 / 2; 1], [[1; 1; 1]; [-2; 1; 0]; [1; 1; -1]]);
     np.argsort := fun _ => [1%nat; 2%nat; 0%nat];
     np.import_writes := fun _ o => o |}.

(* ===================================================================== *)
(** * Lists and arrays                                                    *)
(* ===================================================================== *)

Section ArrayLemmas.

Lemma nth_map_seq {A : Type} (f : nat -> A) (n i : nat) (d : A) :
  (i < n)%nat -> nth i (map f (seq 0 n)) d = f i.
Proof.
  intros Hi.
  rewrite (nth_indep _ d (f 0%nat)) by (rewrite length_map, length_seq; exact Hi).
  rewrite (map_nth f (seq 0 n) 0%nat i).
  rewrite seq_nth by exact Hi. reflexivity.
Qed.

Lemma length_map2 {A B C : Type} (f : A -> B -> C) (xs : list A) (ys : list B) :
  length (np.map2 f xs ys) = Nat.min (length xs) (length ys).
Proof.
  revert ys; induction xs as [|x xs IH]; intros [|y ys]; simpl; auto.
Qed.

Lemma nth_map2 {A B C : Type} (f : A -> B -> C) (xs : list A) (ys : list B)
      (i : nat) (da : A) (db : B) (dc : C) :
  (i < length xs)%nat -> (i < length ys)%nat ->
  nth i (np.map2 f xs ys) dc = f (nth i xs da) (nth i ys db).
Proof.
  revert ys i; induction xs as [|x xs IH]; intros [|y ys] [|i]; simpl;
    intros Hx Hy; try lia; auto.
  apply IH; lia.
Qed.

Lemma nth_map_in {A B : Type} (f : A -> B) (l : list A) (i : nat) (da : A) (db : B) :
  (i < length l)%nat -> nth i (map f l) db = f (nth i l da).
Proof.
  intros Hi. rewrite (nth_indep _ db (f da)) by (rewrite length_map; exact Hi).
  apply map_nth.
Qed.

End ArrayLemmas.

(* ===================================================================== *)
(** * The discretized Hamiltonian                                         *)
(* ===================================================================== *)

Section Hamiltonian.

Lemma length_eye (N : nat) (k : Z) : length (np.eye N k) = N.
Proof. unfold np.eye. now rewrite length_map, length_seq. Qed.

Lemma nth_eye_row (N : nat) (k : Z) (i : nat) :
  (i < N)%nat ->
  nth i (np.eye N k) [] =
    map (fun j => if (Z.of_nat j =? Z.of_nat i + k)%Z then 1 else 0) (seq 0 N).
Proof. intros Hi. unfold np.eye. now rewrite nth_map_seq. Qed.

Lemma nth_eye (N : nat) (k : Z) (i j : nat) :
  (i < N)%nat -> (j < N)%nat ->
  nth j (nth i (np.eye N k) []) 0 =
    if (Z.of_nat j =? Z.of_nat i + k)%Z then 1 else 0.
Proof. intros Hi Hj. rewrite nth_eye_row by exact Hi. now rewrite nth_map_seq. Qed.

Lemma length_eye_row (N : nat) (k : Z) (i : nat) :
  (i < N)%nat -> length (nth i (np.eye N k) []) = N.
Proof. intros Hi. rewrite nth_eye_row by exact Hi. now rewrite length_map, length_seq. Qed.

Lemma length_H (N : nat) (t : R) (eps : vector) : length (HW2.H N t eps) = N.
Proof.
  unfold HW2.H, np.add2, np.smul2, np.bmul.
  rewrite !length_map2, !length_map, !length_eye. lia.
Qed.

(** Row [i] of [H], entry by entry, before any case analysis. *)
Lemma nth_H_row (N : nat) (t : R) (eps : vector) (i : nat) :
  (i < N)%nat ->
  nth i (HW2.H N t eps) [] =
    np.map2 Rplus
      (np.map2 Rplus (map (Rmult t) (nth i (np.eye N (-1)) []))
                     (np.map2 Rmult eps (nth i (np.eye N 0) [])))
      (map (Rmult t) (nth i (np.eye N 1) [])).
Proof.
  intros Hi. unfold HW2.H, np.add2, np.smul2, np.bmul.
  rewrite (nth_map2 _ _ _ [] []).
  2:{ rewrite length_map2, !length_map, !length_eye. lia. }
  2:{ rewrite length_map, length_eye. lia. }
  rewrite (nth_map2 _ _ _ [] []) by (rewrite length_map, length_eye; lia).
  rewrite !(nth_map_in _ _ [] []) by (rewrite length_eye; lia).
  reflexivity.
Qed.

Lemma length_H_row (N : nat) (t : R) (eps : vector) (i : nat) :
  (i < N)%nat -> length eps = N -> length (nth i (HW2.H N t eps) []) = N.
Proof.
  intros Hi He. rewrite nth_H_row by exact Hi.
  rewrite !length_map2, !length_map, !length_eye_row by exact Hi. lia.
Qed.

Lemma nth_H (N : nat) (t : R) (eps : vector) (i j : nat) :
  (i < N)%nat -> (j < N)%nat -> length eps = N ->
  nth j (nth i (HW2.H N t eps) []) 0 =
    t * (if (Z.of_nat j =? Z.of_nat i + -1)%Z then 1 else 0)
    + nth j eps 0 * (if (Z.of_nat j =? Z.of_nat i + 0)%Z then 1 else 0)
    + t * (if (Z.of_nat j =? Z.of_nat i + 1)%Z then 1 else 0).
Proof.
  intros Hi Hj He. rewrite nth_H_row by exact Hi.
  rewrite (nth_map2 _ _ _ 0 0).
  2:{ rewrite length_map2, length_map2, length_map, !length_eye_row by exact Hi. lia. }
  2:{ rewrite length_map, length_eye_row by exact Hi. lia. }
  rewrite (nth_map2 _ _ _ 0 0).
  2:{ rewrite length_map, length_eye_row by exact Hi. lia. }
  2:{ rewrite length_map2, length_eye_row by exact Hi. lia. }
  rewrite (nth_map2 _ _ _ 0 0) by (rewrite ?length_eye_row by exact Hi; lia).
  rewrite !(nth_map_in _ _ 0 0) by (rewrite length_eye_row by exact Hi; lia).
  rewrite !nth_eye by assumption. reflexivity.
Qed.

Lemma length_eps (t q : R) (VX : vector) : length (HW2.eps t q VX) = length VX.
Proof. unfold HW2.eps, np.sadd, np.smul. now rewrite !length_map. Qed.

Lemma nth_eps (t q : R) (VX : vector) (i : nat) :
  (i < length VX)%nat -> nth i (HW2.eps t q VX) 0 = -2 * t + q * nth i VX 0.
Proof.
  intros Hi. unfold HW2.eps, np.sadd, np.smul.
  rewrite (nth_map_in _ _ 0 0) by (rewrite length_map; exact Hi).
  now rewrite (nth_map_in _ _ 0 0) by exact Hi.
Qed.

(** Entry (i, j) of [H] by the position of (i, j) relative to the diagonal. *)
Lemma H_entry (N : nat) (t : R) (eps : vector) (i j : nat) :
  (i < N)%nat -> (j < N)%nat -> length eps = N ->
  nth j (nth i (HW2.H N t eps) []) 0 =
    if ((j =? i + 1) || (i =? j + 1))%nat then t
    else if (i =? j)%nat then nth i eps 0
    else 0.
Proof.
  intros Hi Hj He. rewrite nth_H by assumption.
  destruct (Nat.eqb_spec j (i + 1)) as [E1|E1];
    destruct (Nat.eqb_spec i (j + 1)) as [E2|E2];
    destruct (Nat.eqb_spec i j) as [E3|E3]; simpl; try lia;
    repeat match goal with
           | |- context [(?u =? ?v)%Z] => destruct (Z.eqb_spec u v); try lia
           end; subst; try lra.
Qed.

End Hamiltonian.

(* ===================================================================== *)
(** * The grid and the cells that solve the Schroedinger equation         *)
(* ===================================================================== *)

Section Grid.

Lemma length_X (N : nat) (L : R) : length (HW2.X N L) = N.
Proof. unfold HW2.X, np.linspace. now rewrite !length_map, length_seq. Qed.

(** With at least two grid points, [a = X[1] - X[0]] raises nothing and
    is the step of the grid. *)
Lemma a_is_the_step (S : Type) (N : nat) (L : R) (s : S) :
  (2 <= N)%nat -> HW2.a (HW2.X N L) s = (Normal (L / INR (N - 1)), s).
Proof.
  intros HN. destruct N as [|[|n]]; try lia.
  unfold HW2.a, HW2.X, np.linspace, bind, getitem, ret.
  cbn [seq map nth_error].
  f_equal. f_equal.
  change (INR 1) with 1. change (INR 0) with 0.
  unfold Rdiv. ring.
Qed.

(** Both potentials of the notebook act entry by entry. *)
Lemma Tunnelling_V_elementwise (w : R) (x : vector) :
  HW2.Tunnelling.V w x =
    map (fun xi => if Rleb (Rabs xi) (w / 2) then 0.05 else 0) x.
Proof.
  unfold HW2.Tunnelling.V, np.ones.
  induction x as [|xi x IH]; simpl; [reflexivity|].
  rewrite IH. f_equal. destruct (Rleb (Rabs xi) (w / 2)); [reflexivity|ring].
Qed.

Lemma Superposition_V_elementwise (x : vector) :
  HW2.Superposition.V x = map (fun xi => 0.001 * xi ^ 2) x.
Proof. reflexivity. Qed.

End Grid.

Section SolveCells.

Variable lib : np.routines.
Variable V : R -> R.
Variables (N : nat) (L eta m q : R).

Let X := HW2.X N L.
Let a := L / INR (N - 1).
Let t := HW2.t eta m a.
Let eps := HW2.eps t q (map V X).
Let H := HW2.H N t eps.

Lemma length_eps_grid : length eps = N.
Proof. unfold eps. rewrite length_eps, length_map. apply length_X. Qed.

Lemma build_H_grid (S : Type) (s : S) :
  HW2.build_H N t eps s = (Normal H, s).
Proof.
  unfold HW2.build_H. rewrite length_eps_grid, Nat.eqb_refl. reflexivity.
Qed.

Lemma cell_grid_runs (w : world) :
  (2 <= N)%nat ->
  HW2.cell_grid (map V) N L eta m q w = (Normal (X, a, t, eps), w).
Proof.
  intros HN. unfold HW2.cell_grid, bind.
  rewrite (a_is_the_step L w HN). reflexivity.
Qed.

Lemma cell_solve_runs (w : world) :
  (2 <= N)%nat ->
  HW2.cell_solve lib (map V) N L eta m q w =
    (Normal
       (X, a, H,
        fst (HW2.reorder a (np.argsort lib (fst (np.linalg_eig lib H)))
                         (fst (np.linalg_eig lib H))
                         (snd (np.linalg_eig lib H))),
        snd (HW2.reorder a (np.argsort lib (fst (np.linalg_eig lib H)))
                         (fst (np.linalg_eig lib H))
                         (snd (np.linalg_eig lib H)))),
     w).
Proof.
  intros HN. unfold HW2.cell_solve, bind.
  rewrite (a_is_the_step L w HN).
  fold X a t. fold eps. rewrite build_H_grid. fold H.
  destruct (np.linalg_eig lib H) as [vals vecs]. reflexivity.
Qed.

End SolveCells.

(* ===================================================================== *)
(** * The reordering step                                                 *)
(* ===================================================================== *)

Section Reorder.

Lemma dot_scale_r (c : R) (u v : vector) :
  np.dot u (map (fun x => x * c) v) = np.dot u v * c.
Proof.
  unfold np.dot, np.sum.
  revert v; induction u as [|x u IH]; intros [|y v]; simpl; try ring.
  rewrite IH. ring.
Qed.

Lemma matvec_scale (c : R) (M : matrix) (v : vector) :
  np.matvec M (map (fun x => x * c) v) = map (fun y => y * c) (np.matvec M v).
Proof.
  unfold np.matvec. rewrite map_map. apply map_ext. intros row.
  apply dot_scale_r.
Qed.

(** An eigenvector divided by a number is an eigenvector for the same
    eigenvalue. *)
Lemma eigenpair_div (M : matrix) (lam s : R) (v : vector) :
  eigenpair M lam v -> eigenpair M lam (map (fun x => x / s) v).
Proof.
  unfold eigenpair. intros Hv. unfold Rdiv.
  rewrite matvec_scale, Hv. unfold np.smul. rewrite !map_map.
  apply map_ext. intros x. ring.
Qed.

Lemma ncols_take_cols {A : Type} (d : A) (order : list nat) (M : list (list A)) :
  M <> [] -> np.ncols (np.take_cols d order M) = length order.
Proof.
  destruct M as [|row M]; [congruence|]. intros _. simpl.
  now rewrite length_map.
Qed.

Lemma col_take_cols {A : Type} (d : A) (order : list nat) (M : list (list A))
      (i : nat) :
  (i < length order)%nat ->
  np.col d i (np.take_cols d order M) = np.col d (nth i order 0%nat) M.
Proof.
  intros Hi. unfold np.col, np.take_cols. rewrite map_map.
  apply map_ext. intros row.
  now rewrite (nth_map_in _ _ 0%nat d) by exact Hi.
Qed.

(** Row [i] of [vecs[:, order].T] is column [order[i]] of [vecs]. *)
Lemma nth_transpose_take_cols {A : Type} (d : A) (order : list nat)
      (M : list (list A)) (i : nat) :
  M <> [] -> (i < length order)%nat ->
  nth i (np.transpose d (np.take_cols d order M)) [] =
    np.col d (nth i order 0%nat) M.
Proof.
  intros HM Hi. unfold np.transpose.
  rewrite ncols_take_cols by exact HM.
  rewrite nth_map_seq by exact Hi.
  now apply col_take_cols.
Qed.

Lemma length_transpose_take_cols {A : Type} (d : A) (order : list nat)
      (M : list (list A)) :
  M <> [] -> length (np.transpose d (np.take_cols d order M)) = length order.
Proof.
  intros HM. unfold np.transpose.
  now rewrite length_map, length_seq, ncols_take_cols.
Qed.

Lemma argsort_length (vals : vector) (order : list nat) :
  argsort_result vals order -> length order = length vals.
Proof.
  intros [Hp _]. apply Permutation_length in Hp. now rewrite length_seq in Hp.
Qed.

Lemma argsort_in_range (vals : vector) (order : list nat) (i : nat) :
  argsort_result vals order -> (i < length vals)%nat ->
  (nth i order 0 < length vals)%nat.
Proof.
  intros Hs Hi. pose proof (argsort_length Hs) as Hl. destruct Hs as [Hp _].
  assert (Hin : In (nth i order 0%nat) order) by (apply nth_In; lia).
  apply (Permutation_in _ Hp) in Hin. apply in_seq in Hin. lia.
Qed.

(** [vals[order]] holds the values of [vals], each as often. *)
Lemma take_permutation (vals : vector) (order : list nat) :
  Permutation order (seq 0 (length vals)) ->
  Permutation (np.take 0 order vals) vals.
Proof.
  intros Hp. unfold np.take.
  apply (Permutation_map (fun j => nth j vals 0)) in Hp.
  etransitivity; [exact Hp|].
  clear Hp order.
  assert (Hgen : forall (l : vector) (k : nat) (pre : vector),
             length pre = k ->
             map (fun j => nth j (pre ++ l) 0) (seq k (length l)) = l).
  { induction l as [|x l IH]; intros k pre Hk; simpl; [reflexivity|].
    f_equal.
    - rewrite app_nth2 by lia. now rewrite Hk, Nat.sub_diag.
    - specialize (IH (S k) (pre ++ [x])).
      rewrite <- app_assoc in IH. simpl in IH. apply IH.
      rewrite length_app. simpl. lia. }
  pose proof (Hgen vals 0%nat [] eq_refl) as Hg. simpl in Hg.
  rewrite Hg. apply Permutation_refl.
Qed.

End Reorder.

(** The reordering step on any eigen-decomposition and any sorting order. *)
Lemma reorder_spec (N : nat) (H : matrix) (a : R)
      (vals0 : vector) (vecs0 : matrix) (order : list nat) :
  eig_result N H vals0 vecs0 ->
  argsort_result vals0 order ->
  length (fst (HW2.reorder a order vals0 vecs0)) = N /\
  length (snd (HW2.reorder a order vals0 vecs0)) = N /\
  forall i, (i < N)%nat ->
    nth i (fst (HW2.reorder a order vals0 vecs0)) 0 =
      nth (nth i order 0%nat) vals0 0 /\
    nth i (snd (HW2.reorder a order vals0 vecs0)) [] =
      map (fun x => x / sqrt a) (np.col 0 (nth i order 0%nat) vecs0) /\
    eigenpair H (nth i (fst (HW2.reorder a order vals0 vecs0)) 0)
                (nth i (snd (HW2.reorder a order vals0 vecs0)) []).
Proof.
  intros (Hlv & Hlm & Hrows & Heig) Hsort.
  pose proof (argsort_length Hsort) as Hlo. rewrite Hlv in Hlo.
  unfold HW2.reorder. cbn [fst snd].
  split; [unfold np.take; now rewrite length_map|].
  split.
  { rewrite length_map. destruct vecs0 as [|row0 rest].
    - simpl in Hlm. rewrite <- Hlm in Hlo |- *.
      destruct order; [reflexivity|discriminate].
    - rewrite length_transpose_take_cols by discriminate. exact Hlo. }
  intros i Hi.
  assert (Hne : vecs0 <> []).
  { intros E. rewrite E in Hlm. simpl in Hlm. lia. }
  assert (Hv : nth i (np.take 0 order vals0) 0 = nth (nth i order 0%nat) vals0 0).
  { unfold np.take. now rewrite (nth_map_in _ _ 0%nat 0) by lia. }
  assert (Hr : nth i (map (map (fun x => x / sqrt a))
                          (np.transpose 0 (np.take_cols 0 order vecs0))) [] =
               map (fun x => x / sqrt a) (np.col 0 (nth i order 0%nat) vecs0)).
  { rewrite (nth_map_in _ _ [] []).
    - rewrite nth_transpose_take_cols by (try exact Hne; lia). reflexivity.
    - rewrite length_transpose_take_cols by exact Hne. lia. }
  repeat split; [exact Hv|exact Hr|].
  rewrite Hv, Hr. apply eigenpair_div. apply Heig.
  rewrite <- Hlv. apply argsort_in_range; [exact Hsort|lia].
Qed.

(** C8.  Given what [np.linalg.eig] and [np.argsort] return, after the
    reordering step [vals] is sorted in non-decreasing order and holds the
    same eigenvalues; entry [i] of [vals] and row [i] of [vecs] are the
    eigenvalue and the eigenvector column that stood at position
    [order[i]], the eigenvector divided by [sqrt a] for a grid spacing
    [a > 0]; so [(vals[i], vecs[i])] is still an eigenpair of [H]. *)
Theorem reorder_sorted_eigenpairs
        (lib : np.routines) (N : nat) (H : matrix) (a : R) (w : world) :
  let vals0 := fst (np.linalg_eig lib H) in
  let vecs0 := snd (np.linalg_eig lib H) in
  let order := np.argsort lib vals0 in
  let vals := fst (HW2.reorder a order vals0 vecs0) in
  let vecs := snd (HW2.reorder a order vals0 vecs0) in
  0 < a ->
  eig_result N H vals0 vecs0 ->
  argsort_result vals0 order ->
  fst (HW2.cell_order lib a vals0 vecs0 w) = Normal (order, vals, vecs) /\
  Sorted Rle vals /\
  Permutation vals vals0 /\
  length vals = N /\
  length vecs = N /\
  forall i, (i < N)%nat ->
    nth i vals 0 = nth (nth i order 0%nat) vals0 0 /\
    nth i vecs [] =
      map (fun x => x / sqrt a) (np.col 0 (nth i order 0%nat) vecs0) /\
    eigenpair H (nth i vals 0) (nth i vecs []).
Proof.
  intros vals0 vecs0 order vals vecs _ Heig Hsort.
  destruct (reorder_spec a Heig Hsort) as (Hl1 & Hl2 & Hpairs).
  split; [reflexivity|].
  split; [exact (proj2 Hsort)|].
  split; [exact (@take_permutation _ _ (proj1 Hsort))|].
  split; [exact Hl1|].
  split; [exact Hl2|].
  exact Hpairs.
Qed.

Lemma reorder_sorted_eigenpairs_witness :
  let H := sample_matrix in
  let vals0 := fst (np.linalg_eig sample_lib H) in
  let vecs0 := snd (np.linalg_eig sample_lib H) in
  let order := np.argsort sample_lib vals0 in
  (0 < 1/3 /\ eig_result 2 H vals0 vecs0 /\ argsort_result vals0 order) /\
  Sorted Rle (fst (HW2.reorder (1/3) order vals0 vecs0)) /\
  eigenpair H (nth 0 (fst (HW2.reorder (1/3) order vals0 vecs0)) 0)
              (nth 0 (snd (HW2.reorder (1/3) order vals0 vecs0)) []).
Proof.
  intros H vals0 vecs0 order.
  assert (Heig : eig_result 2 H vals0 vecs0).
  { repeat split.
    - intros row [E|[E|[]]]; subst row; reflexivity.
    - intros j Hj. destruct j as [|[|j]]; [| |lia];
        unfold eigenpair, H, vals0, vecs0; simpl;
        unfold np.dot; simpl;
        repeat (apply f_equal2; [ring|]); reflexivity. }
  assert (Hsort : argsort_result vals0 order).
  { split.
    - apply perm_swap.
    - unfold order, vals0; simpl. unfold np.take; simpl.
      repeat constructor. lra. }
  assert (Ha : 0 < 1/3) by lra.
  split; [split; [exact Ha|split; assumption]|].
  pose proof (@reorder_sorted_eigenpairs sample_lib 2 H (1/3) empty_world
                                         Ha Heig Hsort) as Hthm.
  cbv zeta in Hthm.
  destruct Hthm as (_ & Hsorted & _ & _ & _ & Hpairs).
  split; [exact Hsorted|].
  exact (proj2 (proj2 (Hpairs 0%nat (le_S _ _ (le_n 1))))).
Defined.

(* ===================================================================== *)
(** * Probability densities                                               *)
(* ===================================================================== *)

Section Density.

Lemma Cabs_sq (z : complex) : (Cabs z) ^ 2 = Re z * Re z + Im z * Im z.
Proof.
  unfold Cabs. simpl. rewrite Rmult_1_r. apply sqrt_sqrt.
  pose proof (Rle_0_sqr (Re z)). pose proof (Rle_0_sqr (Im z)).
  unfold Rsqr in *. lra.
Qed.

Lemma abs_sq_eq (x : R) : np.abs_sq x = x * x.
Proof.
  unfold np.abs_sq. simpl. rewrite Rmult_1_r.
  unfold Rabs. destruct (Rcase_abs x); ring.
Qed.

Lemma cabs_sq_eq (z : complex) : np.cabs_sq z = Re z * Re z + Im z * Im z.
Proof. apply Cabs_sq. Qed.

Lemma cabs_sq_nonneg (z : complex) : 0 <= np.cabs_sq z.
Proof.
  rewrite cabs_sq_eq.
  pose proof (Rle_0_sqr (Re z)). pose proof (Rle_0_sqr (Im z)).
  unfold Rsqr in *. lra.
Qed.

(** What [run] draws, command by command. *)
Lemma run_figures (X : vector) (t : complex) (wave : cvector) (w : world) :
  HW2.run X (t, wave) w =
    (Normal tt,
     {| stdout := stdout w;
        figures :=
          figures w ++
            [ax_set_title 0 (fmt "Wavefunction (t={:.2f})" [PyComplex t]);
             set_data wave_real X (map Re wave);
             set_data wave_imag X (map Im wave);
             set_data dens X (HW2.p_wave wave)];
        qiskit_calls := qiskit_calls w;
        outside := outside w |}).
Proof.
  unfold HW2.run, bind, plt, modify. cbn. rewrite <- !app_assoc. reflexivity.
Qed.

End Density.

(* ===================================================================== *)
(** * The normalisation cell                                              *)
(* ===================================================================== *)

Section Normalisation.

Lemma sum_nonneg (v : vector) : Forall (fun x => 0 <= x) v -> 0 <= np.sum v.
Proof.
  induction 1 as [|x v Hx _ IH]; simpl; [lra|].
  change (fold_right Rplus 0 v) with (np.sum v). lra.
Qed.

Lemma norm_nonneg (coeff : cvector) : 0 <= HW2.norm coeff.
Proof.
  unfold HW2.norm. apply sum_nonneg. apply Forall_forall.
  intros x Hx. apply in_map_iff in Hx. destruct Hx as (z & <- & _).
  apply cabs_sq_nonneg.
Qed.

Lemma norm_cons (z : complex) (coeff : cvector) :
  HW2.norm (z :: coeff) = np.cabs_sq z + HW2.norm coeff.
Proof. reflexivity. Qed.

Lemma cabs_sq_pos (z : complex) : z <> C0 -> 0 < np.cabs_sq z.
Proof.
  intros Hz. rewrite cabs_sq_eq. destruct z as [x y]. simpl.
  destruct (Req_dec x 0) as [Hx|Hx].
  - destruct (Req_dec y 0) as [Hy|Hy].
    + subst. exfalso. apply Hz. reflexivity.
    + pose proof (Rle_0_sqr x). pose proof (Rsqr_pos_lt y Hy).
      unfold Rsqr in *. lra.
  - pose proof (Rle_0_sqr y). pose proof (Rsqr_pos_lt x Hx).
    unfold Rsqr in *. lra.
Qed.

(** The norm is positive exactly when some coefficient is not zero. *)
Lemma norm_pos (coeff : cvector) :
  Exists (fun z => z <> C0) coeff -> 0 < HW2.norm coeff.
Proof.
  induction 1 as [z coeff Hz|z coeff _ IH]; rewrite norm_cons.
  - pose proof (cabs_sq_pos Hz). pose proof (norm_nonneg coeff). lra.
  - pose proof (cabs_sq_nonneg z). lra.
Qed.

Lemma norm_zero (coeff : cvector) :
  Forall (fun z => z = C0) coeff -> HW2.norm coeff = 0.
Proof.
  induction 1 as [|z coeff Hz _ IH]; [reflexivity|].
  rewrite norm_cons, IH, Hz, cabs_sq_eq. simpl. ring.
Qed.

Lemma cabs_sq_divide (z : complex) (n : R) :
  0 < n -> np.cabs_sq (Cdivr z (sqrt n)) = np.cabs_sq z / n.
Proof.
  intros Hn. rewrite !cabs_sq_eq. simpl.
  assert (Hs : sqrt n * sqrt n = n) by (apply sqrt_sqrt; lra).
  assert (Hs0 : sqrt n <> 0).
  { intros E. rewrite E in Hs. lra. }
  transitivity ((Re z * Re z + Im z * Im z) / (sqrt n * sqrt n)).
  - field. exact Hs0.
  - now rewrite Hs.
Qed.

Lemma norm_divide (coeff : cvector) (n : R) :
  0 < n -> HW2.norm (HW2.divide_by_sqrt coeff n) = HW2.norm coeff / n.
Proof.
  intros Hn. induction coeff as [|z coeff IH].
  - unfold HW2.norm. simpl. unfold Rdiv. ring.
  - change (HW2.divide_by_sqrt (z :: coeff) n)
      with (Cdivr z (sqrt n) :: HW2.divide_by_sqrt coeff n).
    rewrite !norm_cons, IH, cabs_sq_divide by exact Hn.
    unfold Rdiv. ring.
Qed.

(** Dividing by the square root of the norm gives norm one. *)
Lemma norm_normalized (coeff : cvector) :
  0 < HW2.norm coeff ->
  HW2.norm (HW2.divide_by_sqrt coeff (HW2.norm coeff)) = 1.
Proof.
  intros Hn. rewrite norm_divide by exact Hn. field. lra.
Qed.

Lemma Rltb_true (x y : R) : x < y -> Rltb x y = true.
Proof. intros H. unfold Rltb. destruct (Rlt_dec x y); [reflexivity|contradiction]. Qed.

Lemma Rltb_false (x y : R) : ~ x < y -> Rltb x y = false.
Proof. intros H. unfold Rltb. destruct (Rlt_dec x y); [contradiction|reflexivity]. Qed.

(** ** The range of float32 *)

Lemma underflow_pos : 0 < float32.underflow.
Proof. unfold float32.underflow. lra. Qed.

Lemma round_zero : float32.round 0 = float32.Finite 0.
Proof.
  unfold float32.round. pose proof underflow_pos.
  destruct (Rle_dec 0 float32.underflow); [reflexivity|lra].
Qed.

Lemma round_small (x : R) :
  x <= float32.underflow -> float32.round x = float32.Finite 0.
Proof.
  intros Hx. unfold float32.round.
  destruct (Rle_dec x float32.underflow); [reflexivity|contradiction].
Qed.

Lemma round_large (x : R) :
  float32.overflow <= x -> float32.round x = float32.Inf.
Proof.
  intros Hx. unfold float32.round.
  destruct (Rle_dec x float32.underflow) as [Hu|_].
  - exfalso. unfold float32.underflow, float32.overflow in *. lra.
  - destruct (Rle_dec float32.overflow x); [reflexivity|contradiction].
Qed.

Lemma round_in_range (x : R) :
  float32.underflow < x -> x < float32.overflow ->
  float32.round x = float32.Finite x.
Proof.
  intros Hlo Hhi. unfold float32.round.
  destruct (Rle_dec x float32.underflow); [lra|].
  destruct (Rle_dec float32.overflow x); [lra|reflexivity].
Qed.

Lemma Cabs_nonneg (z : complex) : 0 <= Cabs z.
Proof. apply sqrt_pos. Qed.

Lemma Cabs_pow (z : complex) : Cabs z ^ 2 = np.cabs_sq z.
Proof. reflexivity. Qed.

Lemma Cabs_C0 : Cabs C0 = 0.
Proof.
  unfold Cabs, C0. simpl. replace (0 * 0 + 0 * 0) with 0 by ring.
  apply sqrt_0.
Qed.

(** [|z|^2] of an entry that is zero is 0.0. *)
Lemma abs_sq_float32_zero :
  float32.square (float32.abs C0) = float32.Finite 0.
Proof.
  unfold float32.abs. rewrite Cabs_C0, round_zero. unfold float32.square.
  replace (0 ^ 2) with 0 by ring. apply round_zero.
Qed.

(** [|z|^2] is 0.0 as soon as the exact square is too small for float32. *)
Lemma abs_sq_float32_small (z : complex) :
  np.cabs_sq z <= float32.underflow ->
  float32.square (float32.abs z) = float32.Finite 0.
Proof.
  intros Hz. unfold float32.abs.
  destruct (Rle_dec (Cabs z) float32.underflow) as [Hu|Hu].
  - rewrite (round_small Hu). unfold float32.square.
    replace (0 ^ 2) with 0 by ring. apply round_zero.
  - rewrite round_in_range.
    + unfold float32.square. rewrite Cabs_pow. now apply round_small.
    + lra.
    + pose proof (Cabs_nonneg z) as H0. rewrite <- Cabs_pow in Hz.
      destruct (Rlt_dec (Cabs z) 1) as [H1|H1].
      * unfold float32.overflow. lra.
      * exfalso.
        assert (H2 : 1 * 1 <= Cabs z * Cabs z)
          by (apply Rmult_le_compat; lra).
        unfold float32.underflow in Hz. simpl pow at 1 in Hz. lra.
Qed.

(** [|z|^2] is inf as soon as the exact square is too large for float32. *)
Lemma abs_sq_float32_large (z : complex) :
  float32.overflow <= np.cabs_sq z ->
  float32.square (float32.abs z) = float32.Inf.
Proof.
  intros Hz. unfold float32.abs.
  destruct (Rle_dec float32.overflow (Cabs z)) as [Ho|Ho].
  - now rewrite (round_large Ho).
  - rewrite round_in_range.
    + unfold float32.square. rewrite Cabs_pow. now apply round_large.
    + pose proof (Cabs_nonneg z) as H0. rewrite <- Cabs_pow in Hz.
      destruct (Rlt_dec 1 (Cabs z)) as [H1|H1].
      * unfold float32.underflow. lra.
      * exfalso.
        assert (H2 : Cabs z * Cabs z <= 1 * 1)
          by (apply Rmult_le_compat; lra).
        unfold float32.overflow in Hz. simpl pow at 3 in Hz. lra.
    + lra.
Qed.

(** [|z|^2] is the exact square when that is a normal float32 below
    2^127. *)
Lemma abs_sq_float32_in_range (z : complex) :
  float32.min_normal <= np.cabs_sq z -> np.cabs_sq z <= 2 ^ 127 ->
  float32.square (float32.abs z) = float32.Finite (np.cabs_sq z).
Proof.
  intros Hlo Hhi. pose proof (Cabs_nonneg z) as H0.
  assert (Hsq : Cabs z * Cabs z = np.cabs_sq z)
    by (rewrite <- Cabs_pow; ring).
  unfold float32.abs. rewrite round_in_range.
  - unfold float32.square. rewrite Cabs_pow. apply round_in_range.
    + unfold float32.min_normal, float32.underflow in *. lra.
    + unfold float32.overflow. lra.
  - destruct (Rlt_dec float32.underflow (Cabs z)) as [Hu|Hu]; [exact Hu|].
    exfalso.
    assert (H2 : Cabs z * Cabs z <= float32.underflow * float32.underflow).
    { pose proof underflow_pos. apply Rmult_le_compat; lra. }
    unfold float32.min_normal, float32.underflow in *. lra.
  - destruct (Rlt_dec (Cabs z) float32.overflow) as [Ho|Ho]; [exact Ho|].
    exfalso.
    assert (H2 : float32.overflow * float32.overflow <= Cabs z * Cabs z).
    { apply Rmult_le_compat; unfold float32.overflow in *; lra. }
    unfold float32.overflow in *. lra.
Qed.

Lemma norm_float32_cons (z : complex) (coeff : cvector) :
  HW2.norm_float32 (z :: coeff) =
  float32.add (float32.square (float32.abs z)) (HW2.norm_float32 coeff).
Proof. reflexivity. Qed.

(** The float32 norm of coefficients that are zero, or too small for
    their squares to be float32 numbers, is 0.0. *)
Lemma norm_float32_small (coeff : cvector) :
  Forall (fun z => np.cabs_sq z <= float32.underflow) coeff ->
  HW2.norm_float32 coeff = float32.Finite 0.
Proof.
  induction 1 as [|z coeff Hz _ IH]; [reflexivity|].
  rewrite norm_float32_cons, IH, (abs_sq_float32_small Hz).
  unfold float32.add. replace (0 + 0) with 0 by ring. apply round_zero.
Qed.

Lemma cabs_sq_C0 : np.cabs_sq C0 = 0.
Proof. rewrite cabs_sq_eq. simpl. ring. Qed.

Lemma zero_is_small (coeff : cvector) :
  Forall (fun z => z = C0) coeff ->
  Forall (fun z => np.cabs_sq z <= float32.underflow) coeff.
Proof.
  intros Hall. eapply Forall_impl; [|exact Hall].
  intros z ->. rewrite cabs_sq_C0. pose proof underflow_pos. lra.
Qed.

(** One square that overflows makes the float32 norm inf. *)
Lemma norm_float32_large (coeff : cvector) :
  Exists (fun z => float32.overflow <= np.cabs_sq z) coeff ->
  HW2.norm_float32 coeff = float32.Inf.
Proof.
  induction 1 as [z coeff Hz|z coeff _ IH]; rewrite norm_float32_cons.
  - now rewrite (abs_sq_float32_large Hz).
  - rewrite IH. now destruct (float32.square (float32.abs z)).
Qed.

(** Within the range, the float32 norm is the sum of the squares. *)
Lemma norm_float32_in_range (coeff : cvector) :
  Forall (fun z => z = C0 \/ float32.min_normal <= np.cabs_sq z) coeff ->
  HW2.norm coeff <= 2 ^ 127 ->
  HW2.norm_float32 coeff = float32.Finite (HW2.norm coeff) /\
  (HW2.norm coeff = 0 \/ float32.min_normal <= HW2.norm coeff).
Proof.
  induction 1 as [|z coeff Hz _ IH]; intros Hsum.
  - split; [reflexivity|]. left. reflexivity.
  - rewrite norm_cons in Hsum.
    pose proof (cabs_sq_nonneg z) as Hz0.
    pose proof (norm_nonneg coeff) as Hc0.
    destruct (IH ltac:(lra)) as [Hrest Hsize].
    rewrite norm_float32_cons, Hrest, norm_cons.
    assert (Hentry : float32.square (float32.abs z)
                     = float32.Finite (np.cabs_sq z)).
    { destruct Hz as [->|Hz].
      - rewrite cabs_sq_C0. apply abs_sq_float32_zero.
      - apply abs_sq_float32_in_range; [exact Hz|lra]. }
    rewrite Hentry. unfold float32.add.
    assert (Hcases : np.cabs_sq z + HW2.norm coeff = 0 \/
                     float32.min_normal <= np.cabs_sq z + HW2.norm coeff).
    { destruct Hz as [->|Hz].
      - rewrite cabs_sq_C0. destruct Hsize as [->|Hsize];
          [left; ring|right; lra].
      - right. lra. }
    split; [|exact Hcases].
    destruct Hcases as [E|Hlo].
    + rewrite E. apply round_zero.
    + apply round_in_range.
      * unfold float32.min_normal, float32.underflow in *. lra.
      * unfold float32.overflow. lra.
Qed.

(** The square root of a normal float32 below 2^127 is within the
    range. *)
Lemma sqrt_float32_in_range (n : R) :
  float32.min_normal <= n -> n <= 2 ^ 127 ->
  float32.sqrt (float32.Finite n) = float32.Finite (sqrt n).
Proof.
  intros Hlo Hhi. unfold float32.sqrt.
  assert (Hn : 0 <= n) by (unfold float32.min_normal in Hlo; lra).
  pose proof (sqrt_pos n) as H0.
  pose proof (sqrt_sqrt n Hn) as Hsq.
  apply round_in_range.
  - destruct (Rlt_dec float32.underflow (sqrt n)) as [Hu|Hu]; [exact Hu|].
    exfalso.
    assert (H2 : sqrt n * sqrt n <= float32.underflow * float32.underflow).
    { pose proof underflow_pos. apply Rmult_le_compat; lra. }
    unfold float32.min_normal, float32.underflow in *. lra.
  - destruct (Rlt_dec (sqrt n) float32.overflow) as [Ho|Ho]; [exact Ho|].
    exfalso.
    assert (H2 : float32.overflow * float32.overflow <= sqrt n * sqrt n).
    { apply Rmult_le_compat; unfold float32.overflow in *; lra. }
    unfold float32.overflow in *. lra.
Qed.

Lemma divide_by_sqrt_float32_in_range (coeff : cvector) (n : R) :
  float32.min_normal <= n -> n <= 2 ^ 127 ->
  HW2.divide_by_sqrt_float32 coeff (float32.Finite n) =
  HW2.divide_by_sqrt coeff n.
Proof.
  intros Hlo Hhi. unfold HW2.divide_by_sqrt_float32.
  now rewrite sqrt_float32_in_range.
Qed.

Lemma divide_by_sqrt_float32_inf (coeff : cvector) :
  HW2.divide_by_sqrt_float32 coeff float32.Inf = map (fun _ => C0) coeff.
Proof. reflexivity. Qed.

(** ** The cell *)

(** The [try] body on its own: it returns the divided coefficients, or
    raises the AssertionError of [assert norm > 0]; either way it prints
    nothing. *)
Lemma normalize_try_ok (coeff : cvector) (w : world) :
  float32.positive (HW2.norm_float32 coeff) = true ->
  HW2.normalize_try coeff w =
    (Normal (HW2.divide_by_sqrt_float32 coeff (HW2.norm_float32 coeff),
             HW2.norm_float32 coeff), w).
Proof.
  intros Hn. unfold HW2.normalize_try, bind, assert_.
  rewrite Hn. reflexivity.
Qed.

Lemma normalize_try_raises (coeff : cvector) (w : world) :
  float32.positive (HW2.norm_float32 coeff) = false ->
  HW2.normalize_try coeff w = (Raised (AssertionError norm_is_positive), w).
Proof.
  intros Hn. unfold HW2.normalize_try, bind, assert_.
  rewrite Hn. reflexivity.
Qed.

Lemma cell_normalize_ok (coeff : cvector) (w : world) :
  float32.positive (HW2.norm_float32 coeff) = true ->
  HW2.cell_normalize coeff w =
    (Normal (HW2.divide_by_sqrt_float32 coeff (HW2.norm_float32 coeff),
             HW2.norm_float32 coeff),
     printed [fmt (LF ++ "Coeffients: {}")
                  [PyCArray (HW2.divide_by_sqrt_float32
                               coeff (HW2.norm_float32 coeff))]] w).
Proof.
  intros Hn. unfold HW2.cell_normalize, bind, try_except_AssertionError.
  rewrite (@normalize_try_ok coeff w Hn). reflexivity.
Qed.

Lemma cell_normalize_zero (coeff : cvector) (w : world) :
  float32.positive (HW2.norm_float32 coeff) = false ->
  HW2.cell_normalize coeff w =
    (Normal (coeff, HW2.norm_float32 coeff),
     printed [lit "Error: Norm is zero, you must set the coeffients to nonzero";
              fmt (LF ++ "Coeffients: {}") [PyCArray coeff]] w).
Proof.
  intros Hn. unfold HW2.cell_normalize, bind, try_except_AssertionError.
  rewrite (@normalize_try_raises coeff w Hn).
  unfold is_AssertionError, HW2.normalize_except, bind, print, modify, ret,
    printed. cbn. rewrite <- app_assoc. reflexivity.
Qed.

Lemma positive_zero : float32.positive (float32.Finite 0) = false.
Proof. apply Rltb_false. lra. Qed.

(** The three ways the cell can go, by the size of the coefficients. *)
Lemma cell_normalize_in_range (coeff : cvector) (w : world) :
  Forall (fun z => z = C0 \/ float32.min_normal <= np.cabs_sq z) coeff ->
  HW2.norm coeff <= 2 ^ 127 ->
  0 < HW2.norm coeff ->
  HW2.cell_normalize coeff w =
    (Normal (HW2.divide_by_sqrt coeff (HW2.norm coeff),
             float32.Finite (HW2.norm coeff)),
     printed [fmt (LF ++ "Coeffients: {}")
                  [PyCArray (HW2.divide_by_sqrt coeff (HW2.norm coeff))]] w).
Proof.
  intros Hrange Hsum Hpos.
  destruct (norm_float32_in_range Hrange Hsum) as [Hnorm [Hz|Hlo]]; [lra|].
  rewrite cell_normalize_ok; rewrite Hnorm.
  - now rewrite divide_by_sqrt_float32_in_range.
  - now apply Rltb_true.
Qed.

Lemma cell_normalize_small (coeff : cvector) (w : world) :
  Forall (fun z => np.cabs_sq z <= float32.underflow) coeff ->
  HW2.normalize_try coeff w = (Raised (AssertionError norm_is_positive), w) /\
  HW2.cell_normalize coeff w =
    (Normal (coeff, float32.Finite 0),
     printed [lit "Error: Norm is zero, you must set the coeffients to nonzero";
              fmt (LF ++ "Coeffients: {}") [PyCArray coeff]] w).
Proof.
  intros Hsmall. pose proof (norm_float32_small Hsmall) as Hnorm.
  assert (Hn : float32.positive (HW2.norm_float32 coeff) = false)
    by (rewrite Hnorm; apply positive_zero).
  split.
  - now apply normalize_try_raises.
  - rewrite (@cell_normalize_zero coeff w Hn). now rewrite Hnorm.
Qed.

Lemma cell_normalize_large (coeff : cvector) (w : world) :
  Exists (fun z => float32.overflow <= np.cabs_sq z) coeff ->
  HW2.cell_normalize coeff w =
    (Normal (map (fun _ => C0) coeff, float32.Inf),
     printed [fmt (LF ++ "Coeffients: {}")
                  [PyCArray (map (fun _ => C0) coeff)]] w).
Proof.
  intros Hlarge. pose proof (norm_float32_large Hlarge) as Hnorm.
  rewrite cell_normalize_ok; rewrite Hnorm; reflexivity.
Qed.

Lemma cabs_sq_RtoC (x : R) : np.cabs_sq (RtoC x) = x * x.
Proof. rewrite cabs_sq_eq. simpl. ring. Qed.

End Normalisation.

(** C10, as the code has it.  [coeff] is a complex64 array, so [norm] is
    computed in float32.
    - If every entry of [coeff] is zero or has [|coeff[m]|^2] at least the
      smallest normal float32 (2^-126), some entry is not zero and the sum
      of the [|coeff[m]|^2] is at most 2^127, the cell ends with [coeff]
      divided by [sqrt norm], and the sum of [|coeff[m]|^2] over the new
      [coeff] is 1.
    - If every [|coeff[m]|^2] is too small for float32 (at most 2^-150),
      in particular if every entry is zero, [norm] is 0.0:
      [assert norm > 0] raises AssertionError inside the [try], the handler
      catches it and prints the error message, the cell ends normally, and
      [coeff] (as everything but the printed text) is as it was.
    - If some [|coeff[m]|^2] is too large for float32 (2^128 - 2^103 or
      more), [norm] is inf: the assertion passes and [coeff /= inf] leaves
      every entry zero. *)
Theorem normalization_cell (coeff : cvector) (w : world) :
  (Forall (fun z => z = C0 \/ float32.min_normal <= np.cabs_sq z) coeff ->
   HW2.norm coeff <= 2 ^ 127 ->
   Exists (fun z => z <> C0) coeff ->
   exists coeff' : cvector,
     HW2.cell_normalize coeff w =
       (Normal (coeff', float32.Finite (HW2.norm coeff)),
        printed [fmt (LF ++ "Coeffients: {}") [PyCArray coeff']] w) /\
     coeff' = map (fun c => Cdivr c (sqrt (HW2.norm coeff))) coeff /\
     np.sum (map (fun z => (Cabs z) ^ 2) coeff') = 1) /\
  ((Forall (fun z => z = C0) coeff \/
    Forall (fun z => np.cabs_sq z <= float32.underflow) coeff) ->
   fst (HW2.normalize_try coeff w) = Raised (AssertionError norm_is_positive) /\
   HW2.cell_normalize coeff w =
     (Normal (coeff, float32.Finite 0),
      printed [lit "Error: Norm is zero, you must set the coeffients to nonzero";
               fmt (LF ++ "Coeffients: {}") [PyCArray coeff]] w)) /\
  (Exists (fun z => float32.overflow <= np.cabs_sq z) coeff ->
   HW2.cell_normalize coeff w =
     (Normal (map (fun _ => C0) coeff, float32.Inf),
      printed [fmt (LF ++ "Coeffients: {}")
                   [PyCArray (map (fun _ => C0) coeff)]] w)).
Proof.
  split; [|split].
  - intros Hrange Hsum Hex. pose proof (norm_pos Hex) as Hn.
    exists (HW2.divide_by_sqrt coeff (HW2.norm coeff)).
    split; [now apply cell_normalize_in_range|].
    split; [reflexivity|].
    exact (@norm_normalized coeff Hn).
  - intros Hsmall.
    assert (Hs : Forall (fun z => np.cabs_sq z <= float32.underflow) coeff).
    { destruct Hsmall as [Hzero|Hs]; [now apply zero_is_small|exact Hs]. }
    destruct (@cell_normalize_small coeff w Hs) as [Htry Hcell].
    split; [now rewrite Htry|exact Hcell].
  - intros Hlarge. now apply cell_normalize_large.
Qed.

Lemma normalization_cell_witness :
  ((Forall (fun z => z = C0 \/ float32.min_normal <= np.cabs_sq z)
           [Ci; C0; RtoC (-2.5); RtoC 1] /\
    HW2.norm [Ci; C0; RtoC (-2.5); RtoC 1] <= 2 ^ 127 /\
    Exists (fun z => z <> C0) [Ci; C0; RtoC (-2.5); RtoC 1]) /\
   exists coeff' : cvector,
     fst (HW2.cell_normalize [Ci; C0; RtoC (-2.5); RtoC 1] empty_world)
     = Normal (coeff',
               float32.Finite (HW2.norm [Ci; C0; RtoC (-2.5); RtoC 1])) /\
     np.sum (map (fun z => (Cabs z) ^ 2) coeff') = 1) /\
  (Forall (fun z => z = C0) [C0; C0] /\
   fst (HW2.normalize_try [C0; C0] empty_world)
   = Raised (AssertionError norm_is_positive)) /\
  (Forall (fun z => np.cabs_sq z <= float32.underflow) [RtoC (/ 2 ^ 100)] /\
   fst (HW2.cell_normalize [RtoC (/ 2 ^ 100)] empty_world)
   = Normal ([RtoC (/ 2 ^ 100)], float32.Finite 0)) /\
  (Exists (fun z => float32.overflow <= np.cabs_sq z) [RtoC (2 ^ 100); Ci] /\
   fst (HW2.cell_normalize [RtoC (2 ^ 100); Ci] empty_world)
   = Normal ([C0; C0], float32.Inf)).
Proof.
  assert (HCi : np.cabs_sq Ci = 1) by (rewrite cabs_sq_eq; simpl; ring).
  assert (Hrange : Forall (fun z => z = C0 \/
                                    float32.min_normal <= np.cabs_sq z)
                          [Ci; C0; RtoC (-2.5); RtoC 1]).
  { apply Forall_cons;
      [right; rewrite HCi; unfold float32.min_normal; lra|].
    apply Forall_cons; [left; reflexivity|].
    apply Forall_cons;
      [right; rewrite cabs_sq_RtoC; unfold float32.min_normal; lra|].
    apply Forall_cons;
      [right; rewrite cabs_sq_RtoC; unfold float32.min_normal; lra|].
    apply Forall_nil. }
  assert (Hsum : HW2.norm [Ci; C0; RtoC (-2.5); RtoC 1] <= 2 ^ 127).
  { rewrite !norm_cons, HCi, cabs_sq_C0, !cabs_sq_RtoC.
    unfold HW2.norm. simpl np.sum. lra. }
  assert (Hex : Exists (fun z => z <> C0) [Ci; C0; RtoC (-2.5); RtoC 1]).
  { apply Exists_cons_hd. intros E.
    apply (f_equal Im) in E. simpl in E. lra. }
  assert (Hall : Forall (fun z => z = C0) [C0; C0]).
  { repeat constructor. }
  assert (Hsmall : Forall (fun z => np.cabs_sq z <= float32.underflow)
                          [RtoC (/ 2 ^ 100)]).
  { apply Forall_cons; [|apply Forall_nil].
    rewrite cabs_sq_RtoC. unfold float32.underflow. lra. }
  assert (Hlarge : Exists (fun z => float32.overflow <= np.cabs_sq z)
                          [RtoC (2 ^ 100); Ci]).
  { apply Exists_cons_hd. rewrite cabs_sq_RtoC. unfold float32.overflow. lra. }
  split; [|split; [|split]].
  - split; [exact (conj Hrange (conj Hsum Hex))|].
    destruct (proj1 (normalization_cell [Ci; C0; RtoC (-2.5); RtoC 1]
                                        empty_world) Hrange Hsum Hex)
      as (coeff' & Hrun & _ & Hone).
    exists coeff'. split; [now rewrite Hrun|exact Hone].
  - split; [exact Hall|].
    exact (proj1 (proj1 (proj2 (normalization_cell [C0; C0] empty_world))
                        (or_introl Hall))).
  - split; [exact Hsmall|].
    rewrite (proj2 (proj1 (proj2 (normalization_cell [RtoC (/ 2 ^ 100)]
                                                     empty_world))
                          (or_intror Hsmall))).
    reflexivity.
  - split; [exact Hlarge|].
    rewrite (proj2 (proj2 (normalization_cell [RtoC (2 ^ 100); Ci]
                                              empty_world)) Hlarge).
    reflexivity.
Defined.

(** C10 as stated fails: a coefficient that is not zero, but whose square
    is too small for float32, leaves [norm] at 0.0; the cell takes the
    error branch and [coeff] stays as it was, with a sum of squares that
    is not 1. *)
Lemma nonzero_coefficient_not_normalised :
  ~ (forall (coeff : cvector) (w : world),
        Exists (fun z => z <> C0) coeff ->
        exists (coeff' : cvector) (norm : float32.t),
          fst (HW2.cell_normalize coeff w) = Normal (coeff', norm) /\
          np.sum (map (fun z => (Cabs z) ^ 2) coeff') = 1).
Proof.
  intros Hclaim.
  assert (Hex : Exists (fun z => z <> C0) [RtoC (/ 2 ^ 100)]).
  { apply Exists_cons_hd. intros E. apply (f_equal Re) in E. simpl in E. lra. }
  destruct (Hclaim [RtoC (/ 2 ^ 100)] empty_world Hex)
    as (coeff' & norm & Hrun & Hone).
  assert (Hsmall : Forall (fun z => np.cabs_sq z <= float32.underflow)
                          [RtoC (/ 2 ^ 100)]).
  { apply Forall_cons; [|apply Forall_nil].
    rewrite cabs_sq_RtoC. unfold float32.underflow. lra. }
  rewrite (proj2 (@cell_normalize_small [RtoC (/ 2 ^ 100)] empty_world Hsmall))
    in Hrun.
  cbn [fst] in Hrun. injection Hrun as <- _.
  change (HW2.norm [RtoC (/ 2 ^ 100)] = 1) in Hone.
  rewrite norm_cons, cabs_sq_RtoC in Hone.
  unfold HW2.norm in Hone. simpl np.sum in Hone. lra.
Qed.

(* ===================================================================== *)
(** * The generator [evolve]                                              *)
(* ===================================================================== *)

Section Evolve.

Variable eta : R.
Variables (coeff : cvector) (psi : cmatrix) (E : vector).
Variable timestep : complex.

Hypothesis len_coeff_psi : length coeff = length psi.
Hypothesis len_psi_E : length psi = length E.

Lemma Cscale_0 (z : complex) : Cscale z (INR 0) = C0.
Proof. unfold Cscale, C0. simpl. f_equal; ring. Qed.

Lemma Cscale_succ (z : complex) (k : nat) :
  Cadd (Cscale z (INR k)) z = Cscale z (INR (S k)).
Proof. unfold Cadd, Cscale. cbn [Re Im]. rewrite S_INR. f_equal; ring. Qed.

Lemma Cmul_Cdivr (z u : complex) (r : R) :
  Cmul (Cdivr z r) u = Cdivr (Cmul z u) r.
Proof. unfold Cmul, Cdivr. cbn [Re Im]. unfold Rdiv. f_equal; ring. Qed.

Lemma lengths_agree :
  ((length coeff =? length psi) && (length psi =? length E))%nat = true.
Proof. rewrite len_coeff_psi, len_psi_E, !Nat.eqb_refl. reflexivity. Qed.

(** The first [next] runs the statements before the loop, then the loop. *)
Lemma next_first (n : Z) :
  HW2.Evolve.next eta (HW2.evolve coeff psi E timestep (Some n)) =
    HW2.Evolve.loop eta
      (evolve_at coeff psi E timestep n 0 HW2.Evolve.NotStarted).
Proof.
  unfold HW2.Evolve.next, HW2.evolve, HW2.Evolve.prologue.
  cbn [HW2.Evolve.at_ HW2.Evolve.coeff HW2.Evolve.psi HW2.Evolve.E
       HW2.Evolve.num_step HW2.Evolve.timestep].
  rewrite lengths_agree. unfold evolve_at. rewrite Cscale_0. reflexivity.
Qed.

Lemma loop_yields (n : nat) (k : nat) (st : HW2.Evolve.status) :
  (k < n)%nat ->
  HW2.Evolve.loop eta (evolve_at coeff psi E timestep (Z.of_nat n) k st) =
    (HW2.Evolve.Yielded (kth_pair eta coeff psi E timestep k),
     evolve_at coeff psi E timestep (Z.of_nat n) (S k) HW2.Evolve.Suspended).
Proof.
  intros Hk. unfold HW2.Evolve.loop, evolve_at.
  cbn [HW2.Evolve.num_step HW2.Evolve.cnt HW2.Evolve.t HW2.Evolve.timestep
       HW2.Evolve.coeff HW2.Evolve.psi HW2.Evolve.E HW2.Evolve.ts].
  replace (Z.of_nat k <? Z.of_nat n)%Z with true
    by (symmetry; apply Z.ltb_lt; lia).
  rewrite Cscale_succ.
  replace (Z.of_nat k + 1)%Z with (Z.of_nat (S k)) by lia.
  unfold kth_pair, HW2.Evolve.c.
  cbn [HW2.Evolve.coeff HW2.Evolve.E HW2.Evolve.t].
  replace (k + 1)%nat with (S k) by lia.
  do 5 f_equal. apply map_ext. intros e. now rewrite Cmul_Cdivr.
Qed.

Lemma loop_stops (n : nat) (k : nat) (st : HW2.Evolve.status) :
  (n <= k)%nat ->
  fst (HW2.Evolve.loop eta
         (evolve_at coeff psi E timestep (Z.of_nat n) k st)) =
    HW2.Evolve.StopIteration.
Proof.
  intros Hk. unfold HW2.Evolve.loop, evolve_at.
  cbn [HW2.Evolve.num_step HW2.Evolve.cnt].
  replace (Z.of_nat k <? Z.of_nat n)%Z with false
    by (symmetry; apply Z.ltb_ge; lia).
  reflexivity.
Qed.

(** From the k-th [yield] on, a consumer collects the pairs k .. n-1 and
    then sees the generator stop. *)
Lemma collect_from (n d : nat) :
  forall (k fuel : nat),
    (k + d = n)%nat -> (d < fuel)%nat ->
    HW2.Evolve.collect
      eta fuel
      (evolve_at coeff psi E timestep (Z.of_nat n) k HW2.Evolve.Suspended) =
      (map (kth_pair eta coeff psi E timestep) (seq k d), HW2.Evolve.stopped).
Proof.
  induction d as [|d IH]; intros k fuel Hkd Hfuel;
    (destruct fuel as [|fuel]; [lia|]); cbn [HW2.Evolve.collect].
  - unfold HW2.Evolve.next. cbn [HW2.Evolve.at_ evolve_at].
    pose proof (@loop_stops n k HW2.Evolve.Suspended) as Hs.
    destruct (HW2.Evolve.loop eta _) as [r f'] eqn:El.
    cbn [fst] in Hs. rewrite Hs by lia. reflexivity.
  - unfold HW2.Evolve.next at 1. cbn [HW2.Evolve.at_ evolve_at].
    fold (evolve_at coeff psi E timestep (Z.of_nat n) k HW2.Evolve.Suspended).
    rewrite loop_yields by lia.
    rewrite (IH (S k) fuel) by lia. reflexivity.
Qed.

(** With [num_step = n], a consumer that keeps calling [next] collects
    exactly [n] pairs, the k-th being [kth_pair k], and then the
    generator stops. *)
Lemma collect_all (n fuel : nat) :
  (n < fuel)%nat ->
  HW2.Evolve.collect
    eta fuel (HW2.evolve coeff psi E timestep (Some (Z.of_nat n))) =
    (map (kth_pair eta coeff psi E timestep) (seq 0 n), HW2.Evolve.stopped).
Proof.
  intros Hfuel.
  rewrite <- (@collect_from n n 0%nat fuel) by lia.
  destruct fuel as [|fuel]; [lia|]. cbn [HW2.Evolve.collect].
  rewrite next_first.
  unfold HW2.Evolve.next. cbn [HW2.Evolve.at_ evolve_at].
  fold (evolve_at coeff psi E timestep (Z.of_nat n) 0 HW2.Evolve.Suspended).
  destruct n as [|n].
  - pose proof (@loop_stops 0 0 HW2.Evolve.NotStarted (le_n 0)) as H1.
    pose proof (@loop_stops 0 0 HW2.Evolve.Suspended (le_n 0)) as H2.
    destruct (HW2.Evolve.loop eta (evolve_at _ _ _ _ _ _ HW2.Evolve.NotStarted))
      as [r1 f1].
    destruct (HW2.Evolve.loop eta (evolve_at _ _ _ _ _ _ HW2.Evolve.Suspended))
      as [r2 f2].
    cbn [fst] in H1, H2. subst. reflexivity.
  - rewrite !loop_yields by lia. reflexivity.
Qed.

(** With [num_step = None] the first [next] raises the TypeError of
    [np.arange(None)]: nothing is yielded, then or later. *)
Lemma next_None :
  HW2.Evolve.next eta (HW2.evolve coeff psi E timestep None) =
    (HW2.Evolve.Raises TypeError,
     HW2.Evolve.exhausted (HW2.evolve coeff psi E timestep None)).
Proof.
  unfold HW2.Evolve.next, HW2.evolve, HW2.Evolve.prologue.
  cbn [HW2.Evolve.at_ HW2.Evolve.coeff HW2.Evolve.psi HW2.Evolve.E
       HW2.Evolve.num_step].
  rewrite lengths_agree. reflexivity.
Qed.

End Evolve.

(** The finite half of C9.  For [eta <> 0],
    [len(coeff) = len(psi) = len(E)] and [num_step = n >= 0], a consumer
    that calls [next] more than [n] times gets exactly [n] pairs and then
    StopIteration; the k-th pair (from 0) is
    [((k+1)*timestep, (coeff * exp(-1j * E * (k*timestep) / eta)) @ psi)]:
    the time label is one step ahead of the time in the phase factors. *)
Theorem evolve_yields_n_pairs
        (eta : R) (coeff : cvector) (psi : cmatrix) (E : vector)
        (timestep : complex) (n fuel : nat) :
  eta <> 0 ->
  length coeff = length psi ->
  length psi = length E ->
  (n < fuel)%nat ->
  let run := HW2.Evolve.collect
               eta fuel
               (HW2.evolve coeff psi E timestep (Some (Z.of_nat n))) in
  snd run = HW2.Evolve.stopped /\
  length (fst run) = n /\
  forall k, (k < n)%nat ->
    nth k (fst run) (C0, []) =
      (Cscale timestep (INR (k + 1)),
       np.cvecmat
         (np.map2 Cmul coeff
            (map (fun e =>
                    Cexp (Cdivr (Cmul (Cscale (Copp Ci) e)
                                      (Cscale timestep (INR k))) eta))
                 E))
         psi).
Proof.
  intros _ H1 H2 Hfuel run. unfold run.
  rewrite (@collect_all eta coeff psi E timestep H1 H2 n fuel Hfuel).
  cbn [fst snd]. split; [reflexivity|]. split.
  - now rewrite length_map, length_seq.
  - intros k Hk. rewrite (nth_map_seq _ _ Hk). reflexivity.
Qed.

Lemma evolve_yields_n_pairs_witness :
  let run := HW2.Evolve.collect
               1 3 (HW2.evolve [Ci] [[RtoC 1]] [2] (RtoC 5)
                               (Some (Z.of_nat 2))) in
  snd run = HW2.Evolve.stopped /\ length (fst run) = 2%nat.
Proof.
  intros run.
  pose proof (@evolve_yields_n_pairs 1 [Ci] [[RtoC 1]] [2] (RtoC 5) 2 3
                                     R1_neq_R0 eq_refl eq_refl (le_n 3))
    as Hthm.
  cbv zeta in Hthm. destruct Hthm as (Hstop & Hlen & _).
  split; [exact Hstop|exact Hlen].
Defined.

(** The other half of C9, on the code.  For [len(coeff) = len(psi) =
    len(E)] and [num_step = None], the first [next] raises TypeError (from
    [np.arange(None)], before the loop); no pair is yielded and the
    generator is exhausted. *)
Theorem evolve_num_step_None_raises
        (eta : R) (coeff : cvector) (psi : cmatrix) (E : vector)
        (timestep : complex) (fuel : nat) :
  length coeff = length psi ->
  length psi = length E ->
  HW2.Evolve.collect eta (S fuel) (HW2.evolve coeff psi E timestep None) =
    ([], HW2.Evolve.raised TypeError) /\
  fst (HW2.Evolve.next
         eta (snd (HW2.Evolve.next
                     eta (HW2.evolve coeff psi E timestep None)))) =
    HW2.Evolve.StopIteration.
Proof.
  intros H1 H2. cbn [HW2.Evolve.collect].
  rewrite (@next_None eta coeff psi E timestep H1 H2). split; reflexivity.
Qed.

Lemma evolve_num_step_None_raises_witness :
  HW2.Evolve.collect 1 300 (HW2.evolve [Ci] [[RtoC 1]] [2] (RtoC 5) None) =
    ([], HW2.Evolve.raised TypeError).
Proof.
  exact (proj1 (@evolve_num_step_None_raises 1 [Ci] [[RtoC 1]] [2] (RtoC 5)
                                             299 eq_refl eq_refl)).
Defined.

(* ===================================================================== *)
(** * Assertions and the one handler                                      *)
(* ===================================================================== *)

Section Failures.

Lemma normalize_try_outcome (coeff : cvector) (w : world) (e : exn) :
  fst (HW2.normalize_try coeff w) = Raised e ->
  e = AssertionError norm_is_positive /\
  float32.positive (HW2.norm_float32 coeff) = false.
Proof.
  intros Hr.
  destruct (float32.positive (HW2.norm_float32 coeff)) eqn:Hn.
  - rewrite (@normalize_try_ok coeff w Hn) in Hr. discriminate.
  - rewrite (@normalize_try_raises coeff w Hn) in Hr.
    cbn [fst] in Hr. injection Hr as <-. split; reflexivity.
Qed.

(** The normalisation cell ends normally, whatever [coeff] is. *)
Lemma cell_normalize_never_raises (coeff : cvector) (w : world) :
  exists r, fst (HW2.cell_normalize coeff w) = Normal r.
Proof.
  destruct (float32.positive (HW2.norm_float32 coeff)) eqn:Hn.
  - rewrite (@cell_normalize_ok coeff w Hn). eexists. reflexivity.
  - rewrite (@cell_normalize_zero coeff w Hn). eexists. reflexivity.
Qed.

(** In [evolve] only the assertion on the lengths can fail, and only on
    the first [next]. *)
Lemma next_assertion_site (eta : R) (g : HW2.Evolve.frame) (s : assert_site) :
  fst (HW2.Evolve.next eta g) = HW2.Evolve.Raises (AssertionError s) ->
  s = evolve_lengths_agree /\
  HW2.Evolve.at_ g = HW2.Evolve.NotStarted /\
  ~ (length (HW2.Evolve.coeff g) = length (HW2.Evolve.psi g) /\
     length (HW2.Evolve.psi g) = length (HW2.Evolve.E g)).
Proof.
  unfold HW2.Evolve.next, HW2.Evolve.loop, HW2.Evolve.prologue.
  destruct (HW2.Evolve.at_ g) eqn:Eat.
  - destruct (Nat.eqb_spec (length (HW2.Evolve.coeff g))
                           (length (HW2.Evolve.psi g))) as [E1|E1];
      destruct (Nat.eqb_spec (length (HW2.Evolve.psi g))
                             (length (HW2.Evolve.E g))) as [E2|E2];
      cbn [andb].
    + destruct (HW2.Evolve.num_step g) as [n|];
        cbn [HW2.Evolve.num_step HW2.Evolve.cnt];
        [destruct (0 <? n)%Z|]; cbn [fst]; intros Hr; discriminate.
    + cbn [fst]. intros Hr. injection Hr as <-.
      repeat split; tauto.
    + cbn [fst]. intros Hr. injection Hr as <-.
      repeat split; tauto.
    + cbn [fst]. intros Hr. injection Hr as <-.
      repeat split; tauto.
  - destruct (match HW2.Evolve.num_step g with
              | Some n => (HW2.Evolve.cnt g <? n)%Z
              | None => true
              end); cbn [fst]; intros Hr; discriminate.
  - cbn [fst]. intros Hr. discriminate.
Qed.

(** An exception of the generator leaves the animation callback as it
    is: nothing catches it. *)
Lemma animation_frame_propagates (eta : R) (X : vector)
      (g : HW2.Evolve.frame) (w : world) (e : exn) :
  fst (HW2.Evolve.next eta g) = HW2.Evolve.Raises e ->
  HW2.animation_frame eta X g w = (Raised e, w).
Proof.
  unfold HW2.animation_frame.
  destruct (HW2.Evolve.next eta g) as [[data| |e'] g']; cbn [fst];
    intros Hr; try discriminate.
  injection Hr as <-. reflexivity.
Qed.

Lemma norm_float32_of_zero : HW2.norm_float32 [C0] = float32.Finite 0.
Proof.
  apply norm_float32_small, zero_is_small.
  apply Forall_cons; [reflexivity|apply Forall_nil].
Qed.

Lemma zero_norm_not_positive :
  float32.positive (HW2.norm_float32 [C0]) = false.
Proof. rewrite norm_float32_of_zero. apply positive_zero. Qed.

Lemma fires_norm_is_positive : fires norm_is_positive.
Proof.
  left. exists [C0], empty_world.
  now rewrite (@normalize_try_raises [C0] empty_world zero_norm_not_positive).
Qed.

Lemma fires_evolve_lengths_agree : fires evolve_lengths_agree.
Proof.
  right. exists 1, (HW2.evolve [C0] [] [] (RtoC 5) (Some 300%Z)).
  reflexivity.
Qed.

End Failures.

(** C3, as the code has it.  The source has more than one assert
    statement.  [assert norm > 0] in the normalisation cell fails on some
    input, and the [try] body raises exactly when the float32 [norm] is
    not positive, with the AssertionError of that statement.
    [assert len(coeff) == len(psi) == len(E)] in [evolve] fails on some
    input, and a [next] raises an AssertionError exactly when it is the
    first [next] of a generator whose lengths differ.  The first assertion
    stands in a [try ... except AssertionError], which catches it: the
    statement ends normally with [coeff] and [norm] as they were.  The
    second, when it fails under the animation callback, ends the callback
    with the AssertionError. *)
Theorem two_assert_statements_one_handler :
  (fires norm_is_positive /\ fires evolve_lengths_agree /\
   norm_is_positive <> evolve_lengths_agree) /\
  (forall coeff w e,
      fst (HW2.normalize_try coeff w) = Raised e <->
      e = AssertionError norm_is_positive /\
      float32.positive (HW2.norm_float32 coeff) = false) /\
  (forall eta g s,
      fst (HW2.Evolve.next eta g) = HW2.Evolve.Raises (AssertionError s) <->
      s = evolve_lengths_agree /\
      HW2.Evolve.at_ g = HW2.Evolve.NotStarted /\
      ~ (length (HW2.Evolve.coeff g) = length (HW2.Evolve.psi g) /\
         length (HW2.Evolve.psi g) = length (HW2.Evolve.E g))) /\
  (forall coeff w,
      fst (HW2.normalize_try coeff w) = Raised (AssertionError norm_is_positive) ->
      fst (try_except_AssertionError (HW2.normalize_try coeff)
                                     (HW2.normalize_except coeff) w)
      = Normal (coeff, HW2.norm_float32 coeff)) /\
  (forall eta X g w s,
      fst (HW2.Evolve.next eta g) = HW2.Evolve.Raises (AssertionError s) ->
      HW2.animation_frame eta X g w = (Raised (AssertionError s), w)).
Proof.
  split; [|split; [|split; [|split]]].
  - split; [exact fires_norm_is_positive|].
    split; [exact fires_evolve_lengths_agree|discriminate].
  - intros coeff w e. split.
    + apply normalize_try_outcome.
    + intros [-> Hn]. now rewrite (@normalize_try_raises coeff w Hn).
  - intros eta g s. split.
    + apply next_assertion_site.
    + intros (-> & Hat & Hlen).
      unfold HW2.Evolve.next, HW2.Evolve.prologue. rewrite Hat.
      destruct (Nat.eqb_spec (length (HW2.Evolve.coeff g))
                             (length (HW2.Evolve.psi g))) as [E1|E1];
        destruct (Nat.eqb_spec (length (HW2.Evolve.psi g))
                               (length (HW2.Evolve.E g))) as [E2|E2];
        cbn [andb]; try reflexivity.
      exfalso. apply Hlen. split; assumption.
  - intros coeff w Hr.
    unfold try_except_AssertionError.
    destruct (HW2.normalize_try coeff w) as [[r|e] w'] eqn:Etry;
      cbn [fst] in Hr; [discriminate|].
    injection Hr as ->. reflexivity.
  - intros eta X g w s Hr.
    exact (@animation_frame_propagates eta X g w _ Hr).
Qed.

Lemma two_assert_statements_one_handler_witness :
  (fst (HW2.normalize_try [C0] empty_world)
   = Raised (AssertionError norm_is_positive) /\
   fst (try_except_AssertionError (HW2.normalize_try [C0])
                                  (HW2.normalize_except [C0]) empty_world)
   = Normal ([C0], HW2.norm_float32 [C0])) /\
  (fst (HW2.Evolve.next 1 (HW2.evolve [C0] [] [] (RtoC 5) (Some 300%Z)))
   = HW2.Evolve.Raises (AssertionError evolve_lengths_agree) /\
   HW2.animation_frame 1 [0] (HW2.evolve [C0] [] [] (RtoC 5) (Some 300%Z))
                       empty_world
   = (Raised (AssertionError evolve_lengths_agree), empty_world)).
Proof.
  assert (Hr : fst (HW2.normalize_try [C0] empty_world)
               = Raised (AssertionError norm_is_positive)).
  { apply (proj1 (proj2 two_assert_statements_one_handler)).
    split; [reflexivity|exact zero_norm_not_positive]. }
  split.
  - split; [exact Hr|].
    exact (proj1 (proj2 (proj2 (proj2 two_assert_statements_one_handler)))
                 [C0] empty_world Hr).
  - assert (Hg : fst (HW2.Evolve.next
                        1 (HW2.evolve [C0] [] [] (RtoC 5) (Some 300%Z)))
                 = HW2.Evolve.Raises (AssertionError evolve_lengths_agree))
      by reflexivity.
    split; [exact Hg|].
    exact (proj2 (proj2 (proj2 (proj2 two_assert_statements_one_handler)))
                 1 [0] (HW2.evolve [C0] [] [] (RtoC 5) (Some 300%Z))
                 empty_world evolve_lengths_agree Hg).
Defined.

(** C3 as stated fails: the two assertions that can fire are different
    statements. *)
Lemma more_than_one_assert_statement : ~ one_assert_statement.
Proof.
  intros Hone.
  pose proof (Hone norm_is_positive evolve_lengths_agree
                   fires_norm_is_positive fires_evolve_lengths_agree) as E.
  discriminate E.
Qed.

(** C4, as the code has it.  The normalisation cell has failure-recovery
    logic: it never ends with an exception; when its [try] body raises
    (which is when [assert norm > 0] fails) the handler prints the error
    message, execution goes on to the [print] after the [try], and the
    cell ends normally with [coeff] as it was.  Where nothing catches an
    exception it ends the code it is raised in: an exception of the
    generator ends the animation callback, and the IndexError of a grid
    of fewer than two points ends the grid cell. *)
Theorem normalisation_cell_recovers :
  (forall coeff w, exists r, fst (HW2.cell_normalize coeff w) = Normal r) /\
  (forall coeff w e,
      fst (HW2.normalize_try coeff w) = Raised e ->
      e = AssertionError norm_is_positive /\
      HW2.cell_normalize coeff w =
        (Normal (coeff, HW2.norm_float32 coeff),
         printed [lit "Error: Norm is zero, you must set the coeffients to nonzero";
                  fmt (LF ++ "Coeffients: {}") [PyCArray coeff]] w)) /\
  (forall eta X g w e,
      fst (HW2.Evolve.next eta g) = HW2.Evolve.Raises e ->
      HW2.animation_frame eta X g w = (Raised e, w)) /\
  (forall V N L eta m q w,
      (N < 2)%nat ->
      HW2.cell_grid V N L eta m q w = (Raised IndexError, w)).
Proof.
  split; [|split; [|split]].
  - apply cell_normalize_never_raises.
  - intros coeff w e Hr.
    destruct (normalize_try_outcome _ _ Hr) as [He Hn].
    split; [exact He|].
    exact (@cell_normalize_zero coeff w Hn).
  - intros eta X g w e Hr. exact (@animation_frame_propagates eta X g w e Hr).
  - intros V N L eta m q w HN.
    destruct N as [|[|N]]; [reflexivity|reflexivity|lia].
Qed.

Lemma normalisation_cell_recovers_witness :
  (fst (HW2.normalize_try [C0] empty_world)
   = Raised (AssertionError norm_is_positive) /\
   HW2.cell_normalize [C0] empty_world =
     (Normal ([C0], HW2.norm_float32 [C0]),
      printed [lit "Error: Norm is zero, you must set the coeffients to nonzero";
               fmt (LF ++ "Coeffients: {}") [PyCArray [C0]]] empty_world)) /\
  (fst (HW2.Evolve.next 1 (HW2.evolve [Ci] [[RtoC 1]] [1] (RtoC 1) None))
   = HW2.Evolve.Raises TypeError /\
   HW2.animation_frame 1 [0] (HW2.evolve [Ci] [[RtoC 1]] [1] (RtoC 1) None)
                       empty_world
   = (Raised TypeError, empty_world)) /\
  ((1 < 2)%nat /\
   HW2.cell_grid (map (fun x => x)) 1 100 1 1 1 empty_world
   = (Raised IndexError, empty_world)).
Proof.
  assert (Hr : fst (HW2.normalize_try [C0] empty_world)
               = Raised (AssertionError norm_is_positive))
    by exact (f_equal fst (@normalize_try_raises [C0] empty_world
                                                 zero_norm_not_positive)).
  assert (Hg : fst (HW2.Evolve.next
                      1 (HW2.evolve [Ci] [[RtoC 1]] [1] (RtoC 1) None))
               = HW2.Evolve.Raises TypeError) by reflexivity.
  split; [|split].
  - split; [exact Hr|].
    exact (proj2 (proj1 (proj2 normalisation_cell_recovers) [C0] empty_world
                        (AssertionError norm_is_positive) Hr)).
  - split; [exact Hg|].
    exact (proj1 (proj2 (proj2 normalisation_cell_recovers))
                 1 [0] (HW2.evolve [Ci] [[RtoC 1]] [1] (RtoC 1) None)
                 empty_world TypeError Hg).
  - split; [apply le_n|].
    exact (proj2 (proj2 (proj2 normalisation_cell_recovers))
                 (map (fun x => x)) 1%nat 100 1 1 1 empty_world (le_n 2)).
Defined.

(** C4 as stated fails: on [coeff = [0]] the [try] body raises and the cell
    still ends normally. *)
Lemma failure_recovery_exists : ~ no_failure_recovery.
Proof.
  intros Hno.
  pose proof (Hno [C0] empty_world (AssertionError norm_is_positive)
                  (f_equal fst (@normalize_try_raises [C0] empty_world
                                                       zero_norm_not_positive)))
    as Hr.
  rewrite (@cell_normalize_zero [C0] empty_world zero_norm_not_positive) in Hr.
  discriminate Hr.
Qed.

(* ===================================================================== *)
(** * What a cell can change                                              *)
(* ===================================================================== *)

Section Confined.

Implicit Types l : list (persistent -> persistent).

Lemma after_writes_app l1 l2 (o : persistent) :
  after_writes (l1 ++ l2) o = after_writes l2 (after_writes l1 o).
Proof. unfold after_writes. apply fold_left_app. Qed.

(** Writes that change nothing leave the state as it was. *)
Lemma after_writes_nothing l (o : persistent) :
  Forall (fun f => forall o', f o' = o') l -> after_writes l o = o.
Proof.
  intros Hl. revert o. induction Hl as [|f l Hf _ IH]; intros o.
  - reflexivity.
  - cbn [after_writes fold_left]. rewrite Hf. apply IH.
Qed.

(** A computation that touches neither the outside nor the rest of the
    world. *)
Lemma confined_pure (A : Type) (c : M world A) :
  (forall w, snd (c w) = w) -> confined [] c.
Proof.
  intros Hc w. rewrite Hc. split.
  - exists [], []. repeat split.
  - repeat split; exists []; now rewrite app_nil_r.
Qed.

Lemma confined_ret (A : Type) (a : A) : confined [] (ret a).
Proof. apply confined_pure. reflexivity. Qed.

(** A [raise] is confined whatever writes were still to come. *)
Lemma confined_raise (A : Type) (e : exn) l : confined l (@raise world A e).
Proof.
  intros w. cbn. split.
  - exists [], l. split; [reflexivity|]. split; [reflexivity|].
    intros a Ha. discriminate Ha.
  - repeat split; exists []; now rewrite app_nil_r.
Qed.

Lemma confined_print (x : text) : confined [] (print x).
Proof.
  intros w. cbn. split; [exists [], []; repeat split|].
  repeat split;
    [exists [x]; reflexivity | exists []; now rewrite app_nil_r ..].
Qed.

Lemma confined_plt (c : fig_cmd) : confined [] (plt c).
Proof.
  intros w. cbn. split; [exists [], []; repeat split|].
  repeat split;
    [exists []; now rewrite app_nil_r | exists [c]; reflexivity
     | exists []; now rewrite app_nil_r].
Qed.

Lemma confined_api (c : qiskit.call) : confined [] (api c).
Proof.
  intros w. cbn. split; [exists [], []; repeat split|].
  repeat split;
    [exists []; now rewrite app_nil_r .. | exists [c]; reflexivity].
Qed.

(** The one primitive that reaches the outside. *)
Lemma confined_library_write (f : persistent -> persistent) :
  confined [f] (library_write f).
Proof.
  intros w. cbn. split.
  - exists [f], []. repeat split.
  - repeat split; exists []; now rewrite app_nil_r.
Qed.

Lemma confined_import (writes : string -> persistent -> persistent)
      (statement : string) :
  confined [writes statement] (import_ writes statement).
Proof. apply confined_library_write. Qed.

(** After [c] and then [k], the world has grown by what each added. *)
Lemma grown_after (w w1 w2 : world) :
  ((exists out, stdout w1 = stdout w ++ out) /\
   (exists figs, figures w1 = figures w ++ figs) /\
   (exists calls, qiskit_calls w1 = qiskit_calls w ++ calls)) ->
  ((exists out, stdout w2 = stdout w1 ++ out) /\
   (exists figs, figures w2 = figures w1 ++ figs) /\
   (exists calls, qiskit_calls w2 = qiskit_calls w1 ++ calls)) ->
  (exists out, stdout w2 = stdout w ++ out) /\
  (exists figs, figures w2 = figures w ++ figs) /\
  (exists calls, qiskit_calls w2 = qiskit_calls w ++ calls).
Proof.
  intros ([o1 Hs1] & [f1 Hf1] & [c1 Hc1]) ([o2 Hs2] & [f2 Hf2] & [c2 Hc2]).
  split; [exists (o1 ++ o2); now rewrite Hs2, Hs1, app_assoc|].
  split; [exists (f1 ++ f2); now rewrite Hf2, Hf1, app_assoc|].
  exists (c1 ++ c2); now rewrite Hc2, Hc1, app_assoc.
Qed.

(** [c] and then [k] on the value [c] returns: the writes of [c], then
    those of [k]. *)
Lemma confined_bind_value (A B : Type) (c : M world A) (k : A -> M world B)
      l1 l2 :
  confined l1 c ->
  (forall w a, fst (c w) = Normal a -> confined l2 (k a)) ->
  confined (l1 ++ l2) (bind c k).
Proof.
  intros Hc Hk w. unfold bind.
  destruct (Hc w) as ((done1 & rest1 & Hl1 & Ho1 & Hn1) & Hg1).
  pose proof (Hk w) as Hkw.
  destruct (c w) as [[a|e] w1]; cbn [fst snd] in *.
  - destruct (Hkw a eq_refl w1) as ((done2 & rest2 & Hl2 & Ho2 & Hn2) & Hg2).
    pose proof (Hn1 a eq_refl) as Hrest1. subst rest1.
    rewrite app_nil_r in Hl1. subst done1. split.
    + exists (l1 ++ done2), rest2. split; [now rewrite Hl2, app_assoc|].
      split; [now rewrite Ho2, Ho1, after_writes_app|exact Hn2].
    + exact (@grown_after w w1 _ Hg1 Hg2).
  - split; [|exact Hg1].
    exists done1, (rest1 ++ l2). split; [now rewrite Hl1, app_assoc|].
    split; [exact Ho1|]. intros a Ha. discriminate Ha.
Qed.

Lemma confined_bind (A B : Type) (c : M world A) (k : A -> M world B)
      l1 l2 :
  confined l1 c -> (forall a, confined l2 (k a)) ->
  confined (l1 ++ l2) (bind c k).
Proof.
  intros Hc Hk. apply confined_bind_value; [exact Hc|].
  intros w a _. apply Hk.
Qed.

(** The same for parts that hand nothing to the libraries. *)
Lemma confined_bind_nil (A B : Type) (c : M world A) (k : A -> M world B) :
  confined [] c -> (forall a, confined [] (k a)) -> confined [] (bind c k).
Proof. intros Hc Hk. exact (@confined_bind _ _ c k [] [] Hc Hk). Qed.

Lemma confined_try (A : Type) (body handler : M world A) :
  confined [] body -> confined [] handler ->
  confined [] (try_except_AssertionError body handler).
Proof.
  intros Hb Hh w. unfold try_except_AssertionError.
  destruct (Hb w) as ((done1 & rest1 & Hl1 & Ho1 & _) & Hg1).
  symmetry in Hl1. apply app_eq_nil in Hl1. destruct Hl1 as [-> ->].
  destruct (body w) as [[a|e] w1]; cbn [fst snd] in *.
  - split; [|exact Hg1]. exists [], []. repeat split. exact Ho1.
  - destruct (is_AssertionError e).
    + destruct (Hh w1) as ((done2 & rest2 & Hl2 & Ho2 & _) & Hg2).
      symmetry in Hl2. apply app_eq_nil in Hl2. destruct Hl2 as [-> ->].
      split; [|exact (@grown_after w w1 _ Hg1 Hg2)].
      exists [], []. repeat split. cbn in *. congruence.
    + split; [|exact Hg1]. exists [], []. repeat split. exact Ho1.
Qed.

Lemma confined_for (A : Type) (xs : list A) (body : A -> M world unit) :
  (forall x, confined [] (body x)) -> confined [] (for_ xs body).
Proof.
  intros Hb. induction xs as [|x xs IH]; cbn [for_].
  - apply confined_ret.
  - apply confined_bind_nil; [apply Hb|intros _; exact IH].
Qed.

Lemma confined_mapM (A B : Type) (f : A -> M world B) (xs : list A) :
  (forall x, confined [] (f x)) -> confined [] (mapM f xs).
Proof.
  intros Hf. induction xs as [|x xs IH]; cbn [mapM].
  - apply confined_ret.
  - apply confined_bind_nil; [apply Hf|intros y].
    apply confined_bind_nil; [exact IH|intros ys; apply confined_ret].
Qed.

Lemma confined_for_acc (A B : Type) (xs : list A) (acc : B)
      (body : A -> B -> M world B) :
  (forall x b, confined [] (body x b)) -> confined [] (for_acc xs acc body).
Proof.
  intros Hb. revert acc. induction xs as [|x xs IH]; intros acc; cbn [for_acc].
  - apply confined_ret.
  - apply confined_bind_nil; [apply Hb|intros acc'; apply IH].
Qed.

(** The writes may be given in another form. *)
Lemma confined_as (A : Type) (c : M world A) l l' :
  confined l' c -> l' = l -> confined l c.
Proof. intros Hc <-. exact Hc. Qed.

End Confined.

Create HintDb cells.

#[local] Hint Unfold
  getitem setitem getmask maximum dict_item true_div assert_
  plt_plot plt_fill_between plt_ax_plot
  HW2.a HW2.build_H HW2.matmul HW2.av_E
  HW2.cell_imports HW2.cell_parameters HW2.cell_def_evolve HW2.cell_grid
  HW2.cell_plot_potential HW2.cell_H
  HW2.cell_eig HW2.cell_order HW2.cell_lowest HW2.cell_eigenfunctions
  HW2.cell_p HW2.cell_distributions HW2.cell_barrier HW2.cell_printoptions
  HW2.cell_solve HW2.cell_superposition HW2.normalize_try
  HW2.normalize_except HW2.cell_normalize HW2.run HW2.cell_animation
  HW2.animation_frame
  HW4.cell_imports HW4.draw_circuit HW4.h HW4.cx HW4.measure_all
  HW4.cell_new_circuit HW4.cell_draw HW4.cell_hadamard_measure
  HW4.cell_sample HW4.cell_bitstrings HW4.cell_counts HW4.cell_probs
  HW4.cell_new_circuit_drawn HW4.cell_hadamard HW4.cell_cnot_measure
  HW4.cell_backend HW4.cell_empty : cells.

(** One step of a proof that a cell is confined: by the shape of the
    computation.  The writes are collected on the way. *)
Ltac confined_step :=
  lazymatch goal with
  | |- confined _ (ret _) => apply confined_ret
  | |- confined _ (raise _) => apply confined_raise
  | |- confined _ (print _) => apply confined_print
  | |- confined _ (plt _) => apply confined_plt
  | |- confined _ (api _) => apply confined_api
  | |- confined _ (library_write _) => apply confined_library_write
  | |- confined _ (import_ _ _) => apply confined_import
  | |- confined _ (bind _ _) =>
      first [ eapply confined_bind; [|intros]
            | apply confined_bind_nil; [|intros] ]
  | |- confined _ (try_except_AssertionError _ _) => apply confined_try
  | |- confined _ (for_ _ _) => apply confined_for; intros
  | |- confined _ (mapM _ _) => apply confined_mapM; intros
  | |- confined _ (for_acc _ _ _) => apply confined_for_acc; intros
  | |- confined _ (if ?b then _ else _) => destruct b
  | |- confined _ (match ?x with _ => _ end) => destruct x
  | |- confined _ (let _ := _ in _) => cbv zeta
  end.

Ltac confined_auto := repeat (autounfold with cells; confined_step).

Section ConfinedCells.

Lemma confined_assign_all (coeff : cvector) (assignments : list (nat * complex)) :
  confined [] (HW2.assign_all coeff assignments).
Proof.
  revert coeff. induction assignments as [|[k z] rest IH]; intros coeff;
    cbn [HW2.assign_all].
  - apply confined_ret.
  - apply confined_bind_nil; [confined_auto|intros c; apply IH].
Qed.

Lemma confined_animation_frame (eta : R) (X : vector) (g : HW2.Evolve.frame) :
  confined [] (HW2.animation_frame eta X g).
Proof. confined_auto. Qed.

Lemma confined_animation_frames (frames : nat) (eta : R) (X : vector)
      (g : HW2.Evolve.frame) :
  confined [] (HW2.animation_frames frames eta X g).
Proof.
  revert g. induction frames as [|frames IH]; intros g;
    cbn [HW2.animation_frames].
  - apply confined_ret.
  - apply confined_bind_nil;
      [apply confined_animation_frame|intros g'; apply IH].
Qed.

End ConfinedCells.

Ltac confined_cell :=
  repeat (autounfold with cells;
          first [ apply confined_assign_all
                | apply confined_animation_frames
                | confined_step ]).

(** A cell with the writes it collects, to be compared with the ones
    listed for it. *)
Ltac confined_collect :=
  eapply confined_as; [confined_cell|cbn [app map]; reflexivity].
(* ===================================================================== *)
(** * HW4: dictionaries and the probabilities cell                        *)
(* ===================================================================== *)

Section Dict.

Context {V : Type}.

Lemma dict_get_set (d : list (string * V)) (k s : string) (v : V) :
  dict_get (dict_set d k v) s =
    if String.eqb s k then Some v else dict_get d s.
Proof.
  induction d as [|[k' v'] d IH]; cbn [dict_set dict_get].
  - reflexivity.
  - destruct (String.eqb_spec k k') as [Ekk|Ekk]; cbn [dict_get].
    + subst k'. destruct (String.eqb s k); reflexivity.
    + rewrite IH. destruct (String.eqb_spec s k') as [Esk'|Esk'];
        destruct (String.eqb_spec s k) as [Esk|Esk]; try reflexivity.
      congruence.
Qed.

Lemma dict_get_in (d : list (string * V)) (k : string) :
  In k (map fst d) -> exists v, dict_get d k = Some v.
Proof.
  induction d as [|[k' v'] d IH]; cbn [map fst In dict_get]; [tauto|].
  intros [E|Hin].
  - subst k'. rewrite String.eqb_refl. eauto.
  - destruct (String.eqb k k'); eauto.
Qed.

Lemma dict_get_not_in (d : list (string * V)) (k : string) :
  ~ In k (map fst d) -> dict_get d k = None.
Proof.
  induction d as [|[k' v'] d IH]; cbn [map fst In dict_get]; [reflexivity|].
  intros Hn. destruct (String.eqb_spec k k') as [E|E].
  - exfalso. apply Hn. left. congruence.
  - apply IH. tauto.
Qed.

End Dict.

Section Probabilities.

Variable counts : list (string * nat).
Variable total_counts : nat.

(** The body of the loop, as [cell_probs] has it. *)
Let body (state : string) (acc : list (string * R) * R)
  : M world (list (string * R) * R) :=
  (let '(probs, total_prob) := acc in
   n <- dict_item counts state ;;
   x <- true_div n total_counts ;;
   let probs := dict_set probs state x in
   n <- dict_item counts state ;;
   y <- true_div n total_counts ;;
   let total_prob := (total_prob + y)%R in
   ret (probs, total_prob))%cell.

Lemma body_runs (state : string) (probs : list (string * R)) (total_prob : R)
      (w : world) :
  total_counts <> 0%nat ->
  In state (map fst counts) ->
  body state (probs, total_prob) w =
    (Normal (dict_set probs state (quotient counts total_counts state),
             total_prob + quotient counts total_counts state), w).
Proof.
  intros Ht Hin. destruct (dict_get_in counts state Hin) as [n Hn].
  unfold body, bind, dict_item, true_div, quotient. rewrite Hn.
  destruct (Nat.eqb_spec total_counts 0) as [E|E]; [contradiction|].
  reflexivity.
Qed.

Lemma loop_runs (keys : list string) :
  total_counts <> 0%nat ->
  (forall k, In k keys -> In k (map fst counts)) ->
  forall (probs : list (string * R)) (total_prob : R) (w : world),
    for_acc keys (probs, total_prob) body w =
      (Normal
         (fold_left (fun d k => dict_set d k (quotient counts total_counts k))
                    keys probs,
          fold_left (fun s k => s + quotient counts total_counts k)
                    keys total_prob),
       w).
Proof.
  intros Ht. induction keys as [|k keys IH]; intros Hin probs total_prob w;
    cbn [for_acc fold_left].
  - reflexivity.
  - unfold bind. rewrite body_runs by (try exact Ht; apply Hin; now left).
    apply IH. intros k' Hk'. apply Hin. now right.
Qed.

Lemma probs_lookup (keys : list string) (probs : list (string * R))
      (s : string) :
  dict_get
    (fold_left (fun d k => dict_set d k (quotient counts total_counts k))
               keys probs) s =
    if existsb (String.eqb s) keys
    then Some (quotient counts total_counts s)
    else dict_get probs s.
Proof.
  revert probs. induction keys as [|k keys IH]; intros probs;
    cbn [fold_left existsb].
  - reflexivity.
  - rewrite IH, dict_get_set.
    destruct (String.eqb_spec s k) as [E|E]; cbn [orb].
    + subst k. destruct (existsb (String.eqb s) keys); reflexivity.
    + reflexivity.
Qed.

End Probabilities.

(** The probabilities cell on what the sampler returned: it raises nothing,
    prints one line, and binds [probs[state] = counts[state]/total_counts]
    for exactly the states of [counts]. *)
Lemma cell_probs_runs (bitstrings : list string) (w : world) :
  exists (probs : list (string * R)) (total_prob : R),
    HW4.cell_probs bitstrings (qiskit.counts_of bitstrings) w =
      (Normal (probs, length bitstrings, total_prob),
       printed [fmt "The probabilities of each state: {}" [PyProbs probs]] w) /\
    (forall s,
        dict_get probs s =
          option_map (fun n => INR n / INR (length bitstrings))
                     (dict_get (qiskit.counts_of bitstrings) s)) /\
    total_prob =
      fold_left (fun acc k =>
                   acc + quotient (qiskit.counts_of bitstrings)
                                  (length bitstrings) k)
                (map fst (qiskit.counts_of bitstrings)) 0.
Proof.
  destruct bitstrings as [|b bs].
  - exists [], 0. repeat split.
  - set (bitstrings := b :: bs). set (counts := qiskit.counts_of bitstrings).
    assert (Ht : length bitstrings <> 0%nat) by discriminate.
    pose proof (@loop_runs counts (length bitstrings) (map fst counts) Ht
                           (fun k Hk => Hk) [] 0 w) as Hl.
    cbv zeta in Hl.
    eexists. eexists. split; [|split].
    + unfold HW4.cell_probs. unfold bind at 1. rewrite Hl.
      unfold bind, print, modify, ret, printed. cbn [fst snd]. reflexivity.
    + intros s. rewrite probs_lookup. cbn [dict_get].
      destruct (dict_get counts s) as [n|] eqn:Eg; cbn [option_map].
      * assert (Hin : In s (map fst counts)).
        { destruct (in_dec string_dec s (map fst counts)) as [Hi|Hi];
            [exact Hi|].
          rewrite (dict_get_not_in counts s Hi) in Eg. discriminate. }
        replace (existsb (String.eqb s) (map fst counts)) with true.
        -- unfold quotient. now rewrite Eg.
        -- symmetry. apply existsb_exists. exists s.
           split; [exact Hin|apply String.eqb_refl].
      * replace (existsb (String.eqb s) (map fst counts)) with false;
          [reflexivity|].
        symmetry. apply Bool.not_true_is_false. intros Hex.
        apply existsb_exists in Hex. destruct Hex as (k & Hk & Ek).
        apply String.eqb_eq in Ek. subst k.
        destruct (dict_get_in counts s Hk) as [v Hv]. congruence.
    + reflexivity.
Qed.

(* ===================================================================== *)
(** * HW4: the calls into qiskit, in order                                *)
(* ===================================================================== *)

Section Calls.

Lemma makes_ret (A : Type) (a : A) : makes (ret a) a [].
Proof. intros w. cbn. now rewrite app_nil_r. Qed.

Lemma makes_print (x : text) : makes (print x) tt [].
Proof. intros w. cbn. now rewrite app_nil_r. Qed.

Lemma makes_plt (c : fig_cmd) : makes (plt c) tt [].
Proof. intros w. cbn. now rewrite app_nil_r. Qed.

Lemma makes_api (c : qiskit.call) : makes (api c) tt [c].
Proof. intros w. cbn. split; reflexivity. Qed.

Lemma makes_library_write (f : persistent -> persistent) :
  makes (library_write f) tt [].
Proof. intros w. cbn. now rewrite app_nil_r. Qed.

Lemma makes_import (writes : string -> persistent -> persistent)
      (statement : string) :
  makes (import_ writes statement) tt [].
Proof. apply makes_library_write. Qed.

Lemma makes_bind (A B : Type) (c : M world A) (k : A -> M world B)
      (a : A) (b : B) (l1 l2 : list qiskit.call) :
  makes c a l1 -> makes (k a) b l2 -> makes (bind c k) b (l1 ++ l2).
Proof.
  intros Hc Hk w. unfold bind. destruct (Hc w) as [Hr Hl].
  destruct (c w) as [[a'|e] w1]; cbn [fst snd] in *; [|discriminate].
  injection Hr as ->. destruct (Hk w1) as [Hr' Hl'].
  split; [exact Hr'|]. now rewrite Hl', Hl, app_assoc.
Qed.

Lemma makes_bind_any (A B : Type) (c : M world A) (k : A -> M world B)
      (b : B) (l1 l2 : list qiskit.call) :
  makes_any c l1 -> (forall a, makes (k a) b l2) ->
  makes (bind c k) b (l1 ++ l2).
Proof.
  intros Hc Hk w. unfold bind. destruct (Hc w) as (a & Hr & Hl).
  destruct (c w) as [[a'|e] w1]; cbn [fst snd] in *; [|discriminate].
  destruct (Hk a' w1) as [Hr' Hl'].
  split; [exact Hr'|]. now rewrite Hl', Hl, app_assoc.
Qed.

Lemma makes_probs (bitstrings : list string) :
  makes_any (HW4.cell_probs bitstrings (qiskit.counts_of bitstrings)) [].
Proof.
  intros w.
  destruct (cell_probs_runs bitstrings w) as (probs & tp & Hrun & _ & _).
  exists (probs, length bitstrings, tp). rewrite Hrun.
  cbn [fst snd printed qiskit_calls]. now rewrite app_nil_r.
Qed.

End Calls.

(** One step of running a cell of HW4 by hand: the calls of a sequence are
    the calls of its parts, in order. *)
Ltac makes_step :=
  lazymatch goal with
  | |- makes (ret _) _ _ => apply makes_ret
  | |- makes (print _) _ _ => apply makes_print
  | |- makes (plt _) _ _ => apply makes_plt
  | |- makes (api _) _ _ => apply makes_api
  | |- makes (library_write _) _ _ => apply makes_library_write
  | |- makes (import_ _ _) _ _ => apply makes_import
  | |- makes (bind (HW4.cell_probs _ _) _) _ _ =>
      eapply makes_bind_any; [apply makes_probs | intros ?]
  | |- makes (bind _ _) _ _ => eapply makes_bind; [ | cbv beta ]
  | |- makes (if ?b then _ else _) _ _ =>
      let v := eval cbv in b in change b with v; cbv iota
  | |- makes (let _ := _ in _) _ _ => cbv zeta
  end.

Ltac makes_auto :=
  repeat (unfold HW4.cell_imports, HW4.cell_new_circuit, HW4.cell_draw,
           HW4.cell_hadamard_measure, HW4.cell_sample, HW4.cell_bitstrings,
           HW4.cell_counts, HW4.cell_new_circuit_drawn, HW4.cell_hadamard,
           HW4.cell_cnot_measure, HW4.cell_backend, HW4.cell_empty,
           HW4.h, HW4.cx, HW4.measure_all, HW4.draw_circuit;
          makes_step).

(** One run of HW4 ends normally and makes the calls [HW4_calls], in this
    order, whatever the simulators answer. *)
Lemma notebook_makes (sim : qiskit.simulators) :
  makes (HW4.notebook sim) tt (HW4_calls sim).
Proof.
  assert (Hex : exists l, makes (HW4.notebook sim) tt l /\ l = HW4_calls sim).
  { eexists. split.
    - unfold HW4.notebook. makes_auto.
    - unfold HW4_calls, one_qubit_circuit, cat_state_circuit. cbn [app].
      reflexivity. }
  destruct Hex as (l & Hm & ->). exact Hm.
Qed.

Lemma stages_of_HW4_calls (sim : qiskit.simulators) :
  HW4.stages (HW4_calls sim) =
    [qiskit.construction; qiskit.sampling; qiskit.construction;
     qiskit.transpilation; qiskit.sampling].
Proof. reflexivity. Qed.

(** C5, as the code has it.  One run of HW4 makes the calls [HW4_calls] and
    no others, in the order: construction of the one-qubit circuit
    (QuantumCircuit(1), h, measure_all); sampling with StatevectorSampler,
    with no transpilation before it; construction of the two-qubit circuit
    (QuantumCircuit(2), h, cx, measure_all); transpilation for the
    FakeSherbrooke backend; sampling on the backend.  The one computation of
    its own is the probabilities cell: [probs[state]] is
    [counts[state]/total_counts] for each state of [counts], and
    [total_prob] is the sum of these quotients. *)
Theorem HW4_calls_in_order (sim : qiskit.simulators) (w : world) :
  fst (HW4.notebook sim w) = Normal tt /\
  qiskit_calls (snd (HW4.notebook sim w)) = qiskit_calls w ++ HW4_calls sim /\
  HW4.stages (HW4_calls sim) =
    [qiskit.construction; qiskit.sampling; qiskit.construction;
     qiskit.transpilation; qiskit.sampling] /\
  forall bitstrings : list string,
  exists (probs : list (string * R)) (total_prob : R),
    fst (HW4.cell_probs bitstrings (qiskit.counts_of bitstrings) w) =
      Normal (probs, length bitstrings, total_prob) /\
    (forall state,
        dict_get probs state =
          option_map (fun n => INR n / INR (length bitstrings))
                     (dict_get (qiskit.counts_of bitstrings) state)) /\
    total_prob =
      fold_left (fun acc state =>
                   acc + quotient (qiskit.counts_of bitstrings)
                                  (length bitstrings) state)
                (map fst (qiskit.counts_of bitstrings)) 0.
Proof.
  destruct (notebook_makes sim w) as [Hr Hl].
  split; [exact Hr|]. split; [exact Hl|].
  split; [apply stages_of_HW4_calls|].
  intros bitstrings.
  destruct (cell_probs_runs bitstrings w) as (probs & tp & Hrun & Hlook & Htp).
  exists probs, tp. rewrite Hrun. split; [reflexivity|].
  split; [exact Hlook|exact Htp].
Qed.

(** C5 as stated fails: the calls are not in the order construction,
    transpilation, sampling.  The sampler runs the first circuit before the
    second is constructed and before anything is transpiled. *)
Lemma HW4_stages_not_in_claimed_order :
  HW4.in_order
    (HW4.stages (qiskit_calls (snd (HW4.notebook sample_sim empty_world))))
  = false.
Proof.
  rewrite (proj2 (notebook_makes sample_sim empty_world)).
  cbn [qiskit_calls empty_world app]. rewrite stages_of_HW4_calls.
  reflexivity.
Qed.

(* ===================================================================== *)
(** * The grid                                                            *)
(* ===================================================================== *)

Section GridShape.

Variables (N : nat) (L : R).
Hypothesis two_points : (2 <= N)%nat.

Lemma nth_X (i : nat) :
  (i < N)%nat -> nth i (HW2.X N L) 0 = INR i * (L / INR (N - 1)) - L / 2.
Proof.
  intros Hi. unfold HW2.X, np.linspace.
  rewrite (nth_map_in _ _ 0 0) by (rewrite length_map, length_seq; exact Hi).
  rewrite nth_map_seq by exact Hi. unfold Rdiv. ring.
Qed.

Lemma INR_pred_nonzero : INR (N - 1) <> 0.
Proof. apply not_0_INR. lia. Qed.

End GridShape.

(** The grid [X] has N points, runs from -L/2 to L/2 in equal steps of
    L/(N-1), and is symmetric about 0. *)
Theorem grid_is_uniform_and_centred (N : nat) (L : R) :
  (2 <= N)%nat ->
  length (HW2.X N L) = N /\
  nth 0 (HW2.X N L) 0 = - L / 2 /\
  nth (N - 1) (HW2.X N L) 0 = L / 2 /\
  (forall i, (i + 1 < N)%nat ->
             nth (i + 1) (HW2.X N L) 0 - nth i (HW2.X N L) 0 = L / INR (N - 1)) /\
  (forall i, (i < N)%nat ->
             nth (N - 1 - i) (HW2.X N L) 0 = - nth i (HW2.X N L) 0).
Proof.
  intros HN. pose proof (@INR_pred_nonzero N HN) as Hnz.
  split; [apply length_X|].
  split; [rewrite (@nth_X N L 0%nat) by lia; simpl; unfold Rdiv; ring|].
  split; [rewrite (@nth_X N L (N - 1)%nat) by lia; field; exact Hnz|].
  split.
  - intros i Hi. rewrite !nth_X by lia. rewrite plus_INR. simpl.
    unfold Rdiv. ring.
  - intros i Hi. rewrite !nth_X by lia. rewrite minus_INR by lia.
    field. exact Hnz.
Qed.

Lemma grid_is_uniform_and_centred_witness :
  (2 <= 3)%nat /\ nth (3 - 1) (HW2.X 3 100) 0 = 100 / 2.
Proof.
  split; [repeat constructor|].
  exact (proj1 (proj2 (proj2 (@grid_is_uniform_and_centred 3 100
                                 (le_S _ _ (le_n 2)))))).
Defined.

(* ===================================================================== *)
(** * The Hamiltonian as an operator                                      *)
(* ===================================================================== *)

Section HamiltonianOperator.

Lemma H_entry_sym (N : nat) (t : R) (eps : vector) (i j : nat) :
  (i < N)%nat -> (j < N)%nat -> length eps = N ->
  nth j (nth i (HW2.H N t eps) []) 0 = nth i (nth j (HW2.H N t eps) []) 0.
Proof.
  intros Hi Hj He. rewrite !H_entry by assumption.
  rewrite (orb_comm (j =? i + 1)%nat).
  destruct ((i =? j + 1) || (j =? i + 1))%nat; [reflexivity|].
  destruct (Nat.eqb_spec i j) as [E|E].
  - subst j. now rewrite Nat.eqb_refl.
  - destruct (Nat.eqb_spec j i) as [E'|E']; [congruence|reflexivity].
Qed.

Lemma ncols_H (N : nat) (t : R) (eps : vector) :
  length eps = N -> np.ncols (HW2.H N t eps) = N.
Proof.
  intros He. destruct N as [|N]; [reflexivity|].
  pose proof (@length_H_row (S N) t eps 0%nat (Nat.lt_0_succ N) He) as Hr.
  pose proof (length_H (S N) t eps) as Hl.
  destruct (HW2.H (S N) t eps) as [|row rest]; [discriminate|exact Hr].
Qed.

Lemma dot_nil_r (u : vector) : np.dot u [] = 0.
Proof. destruct u; reflexivity. Qed.

Lemma dot_cons (x y : R) (u v : vector) :
  np.dot (x :: u) (y :: v) = x * y + np.dot u v.
Proof. reflexivity. Qed.

Lemma dot_plus_l (a b u : vector) :
  length a = length b ->
  np.dot (np.map2 Rplus a b) u = np.dot a u + np.dot b u.
Proof.
  revert b u. induction a as [|x a IH]; intros [|y b] [|z u] Hl;
    try discriminate Hl; cbn [np.map2]; rewrite ?dot_nil_r;
    try (unfold np.dot, np.sum; simpl; ring).
  rewrite !dot_cons, IH by (simpl in Hl; lia). ring.
Qed.

Lemma dot_scale_l (c : R) (a u : vector) :
  np.dot (map (Rmult c) a) u = c * np.dot a u.
Proof.
  revert u. induction a as [|x a IH]; intros [|z u]; cbn [map];
    rewrite ?dot_nil_r; try (unfold np.dot, np.sum; simpl; ring).
  rewrite !dot_cons, IH. ring.
Qed.

Lemma dot_weight_l (e a u : vector) :
  np.dot (np.map2 Rmult e a) u = np.dot a (np.map2 Rmult e u).
Proof.
  revert a u. induction e as [|x e IH]; intros [|y a] [|z u];
    cbn [np.map2]; rewrite ?dot_nil_r;
    try (unfold np.dot, np.sum; simpl; ring).
  rewrite !dot_cons, IH. ring.
Qed.

(** The product of a row that is 1 at column [m] and 0 elsewhere with [u]
    picks [u[m]]. *)
Lemma dot_indicator (m : nat) (u : vector) :
  forall s : nat,
    np.dot (map (fun j => if (j =? m)%nat then 1 else 0) (seq s (length u))) u =
      if ((s <=? m) && (m <? s + length u))%nat then nth (m - s) u 0 else 0.
Proof.
  induction u as [|z u IH]; intros s; cbn [length seq map].
  - rewrite dot_nil_r.
    destruct (Nat.leb_spec s m); destruct (Nat.ltb_spec m (s + 0));
      cbn [andb]; try reflexivity; lia.
  - rewrite dot_cons, IH.
    destruct (Nat.eqb_spec s m) as [E|E].
    + subst s. rewrite Nat.sub_diag. cbn [nth].
      destruct (Nat.leb_spec (S m) m); [lia|].
      destruct (Nat.leb_spec m m); [|lia].
      destruct (Nat.ltb_spec m (m + S (length u))); [|lia].
      cbn [andb]. ring.
    + destruct (Nat.leb_spec (S s) m); destruct (Nat.leb_spec s m);
        try lia; cbn [andb].
      * replace (m - s)%nat with (S (m - S s)) by lia. cbn [nth].
        destruct (Nat.ltb_spec m (S s + length u));
          destruct (Nat.ltb_spec m (s + S (length u))); try lia; ring.
      * ring.
Qed.

Lemma dot_indicator_0 (N m : nat) (u : vector) :
  length u = N ->
  np.dot (map (fun j => if (j =? m)%nat then 1 else 0) (seq 0 N)) u = nth m u 0.
Proof.
  intros <-. rewrite dot_indicator, Nat.sub_0_r. cbn [Nat.leb andb Nat.add].
  destruct (Nat.ltb_spec m (length u)); [reflexivity|].
  now rewrite nth_overflow.
Qed.

Lemma dot_zero_row (N : nat) (u : vector) :
  np.dot (map (fun _ : nat => 0) (seq 0 N)) u = 0.
Proof.
  generalize 0%nat. revert u.
  induction N as [|N IH]; intros [|z u] s; cbn [seq map];
    rewrite ?dot_nil_r; try reflexivity.
  rewrite dot_cons, IH. ring.
Qed.

Lemma eye_row_diag (N i : nat) :
  map (fun j => if (Z.of_nat j =? Z.of_nat i + 0)%Z then 1 else 0) (seq 0 N) =
  map (fun j => if (j =? i)%nat then 1 else 0) (seq 0 N).
Proof.
  apply map_ext. intros j.
  destruct (Z.eqb_spec (Z.of_nat j) (Z.of_nat i + 0));
    destruct (Nat.eqb_spec j i); try reflexivity; lia.
Qed.

Lemma eye_row_upper (N i : nat) :
  map (fun j => if (Z.of_nat j =? Z.of_nat i + 1)%Z then 1 else 0) (seq 0 N) =
  map (fun j => if (j =? i + 1)%nat then 1 else 0) (seq 0 N).
Proof.
  apply map_ext. intros j.
  destruct (Z.eqb_spec (Z.of_nat j) (Z.of_nat i + 1));
    destruct (Nat.eqb_spec j (i + 1)); try reflexivity; lia.
Qed.

Lemma eye_row_lower (N i : nat) :
  map (fun j => if (Z.of_nat j =? Z.of_nat (S i) + -1)%Z then 1 else 0)
      (seq 0 N) =
  map (fun j => if (j =? i)%nat then 1 else 0) (seq 0 N).
Proof.
  apply map_ext. intros j.
  destruct (Z.eqb_spec (Z.of_nat j) (Z.of_nat (S i) + -1));
    destruct (Nat.eqb_spec j i); try reflexivity; lia.
Qed.

Lemma eye_row_lower_0 (N : nat) :
  map (fun j => if (Z.of_nat j =? Z.of_nat 0 + -1)%Z then 1 else 0) (seq 0 N) =
  map (fun _ : nat => 0) (seq 0 N).
Proof.
  apply map_ext. intros j.
  destruct (Z.eqb_spec (Z.of_nat j) (Z.of_nat 0 + -1)); [lia|reflexivity].
Qed.

Lemma dot_eye_lower (N i : nat) (u : vector) :
  length u = N ->
  np.dot (map (fun j => if (Z.of_nat j =? Z.of_nat i + -1)%Z then 1 else 0)
              (seq 0 N)) u = left_neighbour u i.
Proof.
  intros Hu. destruct i as [|i]; cbn [left_neighbour].
  - rewrite eye_row_lower_0. apply dot_zero_row.
  - rewrite eye_row_lower. now apply dot_indicator_0.
Qed.

(** Row [i] of [H @ u]. *)
Lemma H_matvec_entry (N : nat) (t : R) (eps u : vector) (i : nat) :
  length eps = N -> length u = N -> (i < N)%nat ->
  nth i (np.matvec (HW2.H N t eps) u) 0 =
    t * left_neighbour u i + nth i eps 0 * nth i u 0 + t * nth (i + 1) u 0.
Proof.
  intros He Hu Hi. unfold np.matvec.
  rewrite (nth_map_in _ _ ([] : vector) 0) by (rewrite length_H; exact Hi).
  rewrite nth_H_row by exact Hi.
  rewrite !nth_eye_row by exact Hi.
  rewrite !dot_plus_l
    by (rewrite ?length_map2, ?length_map, ?length_seq; lia).
  rewrite !dot_scale_l, dot_weight_l.
  rewrite (@dot_eye_lower N i u Hu).
  rewrite eye_row_diag, eye_row_upper.
  rewrite !dot_indicator_0
    by (rewrite ?length_map2; lia).
  rewrite (@nth_map2 _ _ _ Rmult eps u i 0 0 0) by lia.
  reflexivity.
Qed.

End HamiltonianOperator.

(** [H] is a symmetric matrix: [H.T] is [H], entry (i,j) is entry (j,i). *)
Theorem hamiltonian_is_symmetric (N : nat) (t : R) (eps : vector) :
  length eps = N ->
  np.transpose 0 (HW2.H N t eps) = HW2.H N t eps /\
  forall i j, (i < N)%nat -> (j < N)%nat ->
              nth j (nth i (HW2.H N t eps) []) 0 =
              nth i (nth j (HW2.H N t eps) []) 0.
Proof.
  intros He. split; [|intros i j Hi Hj; now apply H_entry_sym].
  apply (nth_ext _ _ [] []).
  - unfold np.transpose.
    now rewrite length_map, length_seq, ncols_H, length_H.
  - unfold np.transpose.
    rewrite length_map, length_seq, ncols_H by exact He. intros j Hj.
    rewrite nth_map_seq by exact Hj.
    apply (nth_ext _ _ 0 0).
    + unfold np.col. now rewrite length_map, length_H, length_H_row.
    + unfold np.col at 1. rewrite length_map, length_H. intros i Hi.
      unfold np.col. rewrite (nth_map_in _ _ ([] : vector) 0) by (rewrite length_H; exact Hi).
      now apply H_entry_sym.
Qed.

Lemma hamiltonian_is_symmetric_witness :
  np.transpose 0 (HW2.H 3 2 [5; 6; 7]) = HW2.H 3 2 [5; 6; 7].
Proof. exact (proj1 (@hamiltonian_is_symmetric 3 2 [5; 6; 7] eq_refl)). Defined.

(** [H] applied to a wave function [u] on the grid is the three-point
    formula [(H u)[i] = t*u[i-1] + eps[i]*u[i] + t*u[i+1]], with [u] taken
    as 0 beyond both ends of the grid (the walls of the box). *)
Theorem hamiltonian_is_three_point_stencil
        (N : nat) (t : R) (eps u : vector) (i : nat) :
  length eps = N -> length u = N -> (i < N)%nat ->
  length (np.matvec (HW2.H N t eps) u) = N /\
  nth i (np.matvec (HW2.H N t eps) u) 0 =
    t * left_neighbour u i + nth i eps 0 * nth i u 0
    + t * (if (i + 1 <? N)%nat then nth (i + 1) u 0 else 0).
Proof.
  intros He Hu Hi. split.
  - unfold np.matvec. now rewrite length_map, length_H.
  - rewrite (@H_matvec_entry N t eps u i He Hu Hi).
    destruct (Nat.ltb_spec (i + 1) N) as [Hn|Hn]; [reflexivity|].
    rewrite (@nth_overflow _ u (i + 1) 0) by lia. reflexivity.
Qed.

Lemma hamiltonian_is_three_point_stencil_witness :
  nth 1 (np.matvec (HW2.H 2 3 [5; 7]) [1; 2]) 0 =
    3 * left_neighbour [1; 2] 1 + nth 1 [5; 7] 0 * nth 1 [1; 2] 0
    + 3 * (if (1 + 1 <? 2)%nat then nth (1 + 1) [1; 2] 0 else 0).
Proof.
  exact (proj2 (@hamiltonian_is_three_point_stencil
                  2 3 [5; 7] [1; 2] 1 eq_refl eq_refl (le_n 2))).
Defined.

(* ===================================================================== *)
(** * Where the energies can lie                                          *)
(* ===================================================================== *)

Section EnergyBand.

(** Some entry of a non-empty array is largest in absolute value. *)
Lemma exists_max_abs (v : vector) :
  v <> [] ->
  exists i, (i < length v)%nat /\
            forall j, Rabs (nth j v 0) <= Rabs (nth i v 0).
Proof.
  induction v as [|x v IH]; [congruence|]. intros _.
  destruct v as [|y v].
  - exists 0%nat. split; [simpl; lia|].
    intros [|[|j]]; cbn [nth]; rewrite ?Rabs_R0;
      try apply Rle_refl; apply Rabs_pos.
  - destruct IH as (i & Hi & Hmax); [discriminate|].
    destruct (Rle_dec (Rabs (nth i (y :: v) 0)) (Rabs x)) as [Hle|Hgt].
    + exists 0%nat. split; [simpl; lia|].
      intros [|j]; cbn [nth]; [apply Rle_refl|].
      eapply Rle_trans; [apply (Hmax j)|exact Hle].
    + exists (S i). split; [simpl in *; lia|].
      intros [|j]; cbn [nth]; [|apply (Hmax j)].
      apply Rnot_le_lt in Hgt. cbn [nth] in Hgt. lra.
Qed.

Lemma left_neighbour_le (v : vector) (i : nat) (b : R) :
  (forall j, Rabs (nth j v 0) <= b) -> Rabs (left_neighbour v i) <= b.
Proof.
  intros Hb. destruct i as [|k]; cbn [left_neighbour]; [|apply Hb].
  rewrite Rabs_R0. eapply Rle_trans; [apply Rabs_pos|apply (Hb 0%nat)].
Qed.

(** The arithmetic of one row of the eigenvalue equation. *)
Lemma gershgorin_row (t d x l r : R) :
  t <= 0 -> x <> 0 -> Rabs l <= Rabs x -> Rabs r <= Rabs x ->
  d * x = t * (l + r) -> 2 * t <= d <= - 2 * t.
Proof.
  intros Ht Hx Hl Hr Heq.
  unfold Rabs in Hl, Hr.
  destruct (Rcase_abs l), (Rcase_abs r), (Rcase_abs x); split; nra.
Qed.

Lemma t_nonpos (eta m a : R) : 0 < m -> a <> 0 -> HW2.t eta m a <= 0.
Proof.
  intros Hm Ha. unfold HW2.t.
  assert (Hd : 0 < 2 * m * a ^ 2).
  { assert (0 < a ^ 2) by (simpl; nra). nra. }
  assert (He : 0 <= eta ^ 2) by (simpl; nra).
  unfold Rdiv. pose proof (Rinv_0_lt_compat _ Hd). nra.
Qed.

Lemma eigen_row (N : nat) (t : R) (eps v : vector) (lam : R) (i : nat) :
  length eps = N -> length v = N -> (i < N)%nat ->
  eigenpair (HW2.H N t eps) lam v ->
  (lam - nth i eps 0) * nth i v 0 =
    t * (left_neighbour v i + nth (i + 1) v 0).
Proof.
  intros He Hv Hi Heig. unfold eigenpair in Heig.
  pose proof (@H_matvec_entry N t eps v i He Hv Hi) as Hrow.
  rewrite Heig in Hrow. unfold np.smul in Hrow.
  rewrite (nth_map_in _ _ 0 0) in Hrow by lia. lra.
Qed.

Lemma eigenvalue_in_a_disc (N : nat) (t : R) (eps v : vector) (lam : R) :
  t <= 0 -> length eps = N -> length v = N ->
  eigenpair (HW2.H N t eps) lam v ->
  (exists j, nth j v 0 <> 0) ->
  exists i, (i < N)%nat /\
            nth i eps 0 + 2 * t <= lam <= nth i eps 0 - 2 * t.
Proof.
  intros Ht He Hv Heig [j Hj].
  assert (Hne : v <> []).
  { intros ->. apply Hj. now destruct j. }
  destruct (exists_max_abs Hne) as (i & Hi & Hmax).
  assert (Hx : nth i v 0 <> 0).
  { intros Hz. specialize (Hmax j). rewrite Hz, Rabs_R0 in Hmax.
    pose proof (Rabs_pos_lt _ Hj). lra. }
  exists i. split; [lia|].
  assert (Hi' : (i < N)%nat) by lia.
  pose proof (@eigen_row N t eps v lam i He Hv Hi' Heig) as Hrow.
  pose proof (@gershgorin_row t (lam - nth i eps 0) (nth i v 0)
                (left_neighbour v i) (nth (i + 1) v 0) Ht Hx
                (left_neighbour_le v i Hmax) (Hmax (i + 1)%nat) Hrow).
  lra.
Qed.

End EnergyBand.

(** Every energy the solver can return for the matrix [H] of the notebook
    lies between the potential energy [q*V(x_i)] at some grid point and
    that value plus [4*|t|]: for a mass [m > 0], an eigenvalue [lam] of
    [H] with a non-zero eigenvector satisfies
    [q*V(x_i) <= lam <= q*V(x_i) + 4*eta^2/(2*m*a^2)] for some [i]; so no
    energy is below the lowest point of the potential. *)
Theorem energy_is_bounded_by_the_potential
        (N : nat) (eta m q a : R) (VX v : vector) (lam : R) :
  0 < m -> a <> 0 -> length VX = N -> length v = N ->
  eigenpair (HW2.H N (HW2.t eta m a) (HW2.eps (HW2.t eta m a) q VX)) lam v ->
  (exists j, nth j v 0 <> 0) ->
  (exists i, (i < N)%nat /\
             q * nth i VX 0 <= lam
             <= q * nth i VX 0 + 4 * (eta ^ 2 / (2 * m * a ^ 2))) /\
  (forall lo, (forall i, (i < N)%nat -> lo <= q * nth i VX 0) -> lo <= lam).
Proof.
  intros Hm Ha HV Hv Heig Hnz.
  assert (He : length (HW2.eps (HW2.t eta m a) q VX) = N)
    by (now rewrite length_eps).
  destruct (@eigenvalue_in_a_disc N _ _ v lam (t_nonpos eta Hm Ha) He Hv Heig Hnz)
    as (i & Hi & Hlo & Hhi).
  rewrite nth_eps in Hlo, Hhi by lia.
  assert (Ht : - 2 * HW2.t eta m a = 2 * (eta ^ 2 / (2 * m * a ^ 2))).
  { unfold HW2.t, Rdiv. ring. }
  split.
  - exists i. split; [exact Hi|]. lra.
  - intros lo Hall. specialize (Hall i Hi). lra.
Qed.

Lemma energy_is_bounded_by_the_potential_witness :
  exists i, (i < 2)%nat /\
            1 * nth i [3; 3] 0 <= 9 / 2
            <= 1 * nth i [3; 3] 0 + 4 * (1 ^ 2 / (2 * 1 * 1 ^ 2)).
Proof.
  assert (Heig : eigenpair (HW2.H 2 (HW2.t 1 1 1)
                                  (HW2.eps (HW2.t 1 1 1) 1 [3; 3]))
                           (9 / 2) [1; -1]).
  { unfold eigenpair, HW2.H, HW2.eps, HW2.t, np.matvec, np.dot, np.smul,
      np.sadd, np.add2, np.smul2, np.bmul, np.eye, np.sum.
    cbn. repeat (apply f_equal2; [lra|]). reflexivity. }
  assert (Hnz : exists j, nth j [1; -1] 0 <> 0).
  { exists 0%nat. cbn. lra. }
  exact (proj1 (@energy_is_bounded_by_the_potential
                  2 1 1 1 1 [3; 3] [1; -1] (9 / 2) Rlt_0_1 R1_neq_R0
                  eq_refl eq_refl Heig Hnz)).
Defined.

(* ===================================================================== *)
(** * The barrier of the tunnelling part                                  *)
(* ===================================================================== *)

Section Barrier.

Lemma Rneqb_refl (x : R) : Rneqb x x = false.
Proof. unfold Rneqb. destruct (Req_dec_T x x); [reflexivity|congruence]. Qed.

Lemma Rneqb_neq (x y : R) : x <> y -> Rneqb x y = true.
Proof. intros H. unfold Rneqb. destruct (Req_dec_T x y); [contradiction|reflexivity]. Qed.

Lemma select_marked (f : R -> bool) (c : R) (x : vector) :
  select (map f x) (map (fun xi => if f xi then c else 0) x) =
    repeat c (length (filter f x)).
Proof.
  induction x as [|xi x IH]; cbn [map select filter]; [reflexivity|].
  destruct (f xi); cbn [length repeat]; now rewrite IH.
Qed.

Lemma sum_repeat (c : R) (n : nat) : np.sum (repeat c n) = INR n * c.
Proof.
  induction n as [|n IH]; [simpl; ring|].
  cbn [repeat]. change (np.sum (c :: repeat c n)) with (c + np.sum (repeat c n)).
  rewrite IH, S_INR. ring.
Qed.

Lemma mean_repeat (c : R) (n : nat) :
  (0 < n)%nat -> np.mean (repeat c n) = c.
Proof.
  intros Hn. unfold np.mean. rewrite sum_repeat, repeat_length.
  field. apply not_0_INR. lia.
Qed.

Lemma barrier_mask (w : R) (x : vector) :
  map (fun v => Rneqb v 0) (HW2.Tunnelling.V w x) =
    map (fun xi => Rleb (Rabs xi) (w / 2)) x.
Proof.
  rewrite Tunnelling_V_elementwise, map_map. apply map_ext. intros xi.
  destruct (Rleb (Rabs xi) (w / 2)).
  - apply Rneqb_neq. lra.
  - apply Rneqb_refl.
Qed.

End Barrier.

(** In the tunnelling part the mask [B = V(X) != 0] marks exactly the grid
    points with [|x| <= w/2]; [V(X)[B]] raises nothing and holds 0.05 once
    per marked point, so the dashed line [V(X)[B].mean()] is at 0.05
    whenever the grid has a point in the barrier. *)
Theorem barrier_mask_marks_the_barrier (w : R) (x : vector) (s : world) :
  let B := map (fun v => Rneqb v 0) (HW2.Tunnelling.V w x) in
  let inside := filter (fun xi => Rleb (Rabs xi) (w / 2)) x in
  B = map (fun xi => Rleb (Rabs xi) (w / 2)) x /\
  getmask (HW2.Tunnelling.V w x) B s = (Normal (repeat 0.05 (length inside)), s) /\
  (inside <> [] -> np.mean (select B (HW2.Tunnelling.V w x)) = 0.05).
Proof.
  intros B inside. unfold B, inside. rewrite barrier_mask.
  split; [reflexivity|].
  rewrite Tunnelling_V_elementwise.
  split.
  - unfold getmask. rewrite !length_map, Nat.eqb_refl.
    now rewrite select_marked.
  - intros Hne. rewrite select_marked. apply mean_repeat.
    destruct (filter _ x); [congruence|simpl; lia].
Qed.

(* ===================================================================== *)
(** * Normalisation of the eigenfunctions                                 *)
(* ===================================================================== *)

Section EigenfunctionNorm.

Lemma abs_sq_div (x a : R) :
  0 < a -> np.abs_sq (x / sqrt a) = np.abs_sq x / a.
Proof.
  intros Ha. rewrite !abs_sq_eq.
  assert (Hs : sqrt a * sqrt a = a) by (apply sqrt_sqrt; lra).
  assert (Hs0 : sqrt a <> 0).
  { intros E. rewrite E in Hs. lra. }
  transitivity ((x * x) / (sqrt a * sqrt a)).
  - field. exact Hs0.
  - now rewrite Hs.
Qed.

Lemma sum_abs_sq_div (v : vector) (a : R) :
  0 < a ->
  np.sum (map np.abs_sq (map (fun x => x / sqrt a) v)) =
    np.sum (map np.abs_sq v) / a.
Proof.
  intros Ha. induction v as [|x v IH]; cbn [map].
  - unfold np.sum. simpl. unfold Rdiv. ring.
  - change (np.sum (?y :: ?l)) with (y + np.sum l).
    rewrite IH, abs_sq_div by exact Ha. unfold Rdiv. ring.
Qed.

End EigenfunctionNorm.

(** Dividing by [sqrt a] makes every eigenfunction a unit vector of the
    grid: when the eigenvector columns that [np.linalg.eig] returns have
    unit length, as NumPy normalises them, each row [p[i]] of the densities
    sums to [1/a], that is, the sum over the grid of [p[i](x) * a] is 1. *)
Theorem eigenfunctions_are_normalised
        (N : nat) (H : matrix) (a : R) (vals0 : vector) (vecs0 : matrix)
        (order : list nat) :
  0 < a ->
  eig_result N H vals0 vecs0 ->
  argsort_result vals0 order ->
  (forall j, (j < N)%nat -> np.sum (map np.abs_sq (np.col 0 j vecs0)) = 1) ->
  forall i, (i < N)%nat ->
    a * np.sum (nth i (HW2.p (snd (HW2.reorder a order vals0 vecs0))) []) = 1.
Proof.
  intros Ha Heig Hsort Hunit i Hi.
  destruct (reorder_spec a Heig Hsort) as (_ & Hlen & Hrows).
  destruct (Hrows i Hi) as (_ & Hrow & _).
  unfold HW2.p.
  rewrite (nth_map_in _ _ ([] : list R) []) by (rewrite Hlen; exact Hi).
  rewrite Hrow, sum_abs_sq_div by exact Ha.
  rewrite Hunit.
  - field. lra.
  - destruct Heig as (Hlv & _). rewrite <- Hlv.
    apply argsort_in_range; [exact Hsort|lia].
Qed.

Lemma eigenfunctions_are_normalised_witness :
  (0 < 1 / 4 /\
   eig_result 2 diagonal_matrix diagonal_vals diagonal_vecs /\
   argsort_result diagonal_vals [1%nat; 0%nat]) /\
  1 / 4 * np.sum (nth 0 (HW2.p (snd (HW2.reorder (1 / 4) [1%nat; 0%nat]
                                                   diagonal_vals
                                                   diagonal_vecs))) []) = 1.
Proof.
  assert (Ha : 0 < 1 / 4) by lra.
  assert (Heig : eig_result 2 diagonal_matrix diagonal_vals diagonal_vecs).
  { repeat split.
    - intros row [E|[E|[]]]; subst row; reflexivity.
    - intros j Hj. destruct j as [|[|j]]; [| |lia];
        unfold eigenpair, diagonal_matrix, diagonal_vals, diagonal_vecs; simpl;
        unfold np.dot; simpl;
        repeat (apply f_equal2; [ring|]); reflexivity. }
  assert (Hsort : argsort_result diagonal_vals [1%nat; 0%nat]).
  { split.
    - apply perm_swap.
    - unfold diagonal_vals, np.take; simpl. repeat constructor. lra. }
  assert (Hunit : forall j, (j < 2)%nat ->
                            np.sum (map np.abs_sq (np.col 0 j diagonal_vecs)) = 1).
  { intros j Hj. destruct j as [|[|j]]; [| |lia];
      unfold diagonal_vecs, np.col, np.sum; simpl;
      rewrite !abs_sq_eq; ring. }
  split; [split; [exact Ha|split; [exact Heig|exact Hsort]]|].
  exact (@eigenfunctions_are_normalised 2 diagonal_matrix (1 / 4) diagonal_vals
           diagonal_vecs [1%nat; 0%nat] Ha Heig Hsort Hunit 0%nat
           (le_S _ _ (le_n 1))).
Defined.

(* ===================================================================== *)
(** * Normalising twice, and the phases of the time evolution             *)
(* ===================================================================== *)

Section NormAgain.

Lemma Cdivr_1 (z : complex) : Cdivr z (sqrt 1) = z.
Proof.
  rewrite sqrt_1. destruct z as [x y]. unfold Cdivr. cbn [Re Im].
  f_equal; field.
Qed.

Lemma divide_by_sqrt_1 (coeff : cvector) : HW2.divide_by_sqrt coeff 1 = coeff.
Proof.
  unfold HW2.divide_by_sqrt. rewrite <- (map_id coeff) at 2.
  apply map_ext. intros z. apply Cdivr_1.
Qed.

Lemma length_divide_by_sqrt (coeff : cvector) (n : R) :
  length (HW2.divide_by_sqrt coeff n) = length coeff.
Proof. unfold HW2.divide_by_sqrt. apply length_map. Qed.

Lemma cabs_sq_Cmul (x y : complex) :
  np.cabs_sq (Cmul x y) = np.cabs_sq x * np.cabs_sq y.
Proof. rewrite !cabs_sq_eq. unfold Cmul. cbn [Re Im]. ring. Qed.

Lemma cabs_sq_Cexp (z : complex) : Re z = 0 -> np.cabs_sq (Cexp z) = 1.
Proof.
  intros Hz. rewrite cabs_sq_eq. unfold Cexp. cbn [Re Im].
  rewrite Hz, exp_0. pose proof (sin2_cos2 (Im z)) as Hsc.
  unfold Rsqr in Hsc. lra.
Qed.

Lemma phase_exponent_is_imaginary (eta e : R) (t : complex) :
  Im t = 0 -> Re (Cmul (Cdivr (Cscale (Copp Ci) e) eta) t) = 0.
Proof.
  intros Ht. unfold Cmul, Cdivr, Cscale, Copp, Ci. cbn [Re Im].
  rewrite Ht. unfold Rdiv. ring.
Qed.

Lemma norm_map2_phase (coeff : cvector) (phases : cvector) :
  length coeff = length phases ->
  Forall (fun z => np.cabs_sq z = 1) phases ->
  HW2.norm (np.map2 Cmul coeff phases) = HW2.norm coeff.
Proof.
  revert phases. induction coeff as [|z coeff IH]; intros [|ph phases] Hl Hall;
    try discriminate Hl; [reflexivity|].
  cbn [np.map2]. rewrite !norm_cons, cabs_sq_Cmul.
  inversion Hall as [|? ? Hph Hrest]; subst.
  rewrite Hph, IH by (try exact Hrest; simpl in Hl; lia). ring.
Qed.

End NormAgain.

Section NormalisedAgain.

Lemma Cdivr_C0 (r : R) : Cdivr C0 r = C0.
Proof. unfold Cdivr, C0. cbn [Re Im]. f_equal; unfold Rdiv; ring. Qed.

(** Division by [sqrt norm] keeps the coefficients within the range when
    none of them is too small beside the norm. *)
Lemma divided_in_range (coeff : cvector) (n : R) :
  0 < n ->
  Forall (fun z => z = C0 \/ float32.min_normal * n <= np.cabs_sq z) coeff ->
  Forall (fun z => z = C0 \/ float32.min_normal <= np.cabs_sq z)
         (HW2.divide_by_sqrt coeff n).
Proof.
  intros Hn Hall. unfold HW2.divide_by_sqrt. apply Forall_map.
  eapply Forall_impl; [|exact Hall]. intros z [->|Hz].
  - left. apply Cdivr_C0.
  - right. rewrite cabs_sq_divide by exact Hn.
    apply (Rmult_le_reg_r n); [exact Hn|].
    unfold Rdiv. rewrite Rmult_assoc, Rinv_l by lra. lra.
Qed.

End NormalisedAgain.

(** Running the normalisation cell a second time changes nothing, as long
    as the float32 computation stays within range: every coefficient is
    zero or has [|c|^2] of at least 2^-126 (the smallest normal float32)
    and of at least 2^-126 times the sum of the squares, and that sum is
    at most 2^127.  Then the cell ends normally both times and the second
    run returns the [coeff] it was given; when some coefficient is not
    zero, the second [norm] is 1. *)
Theorem normalisation_is_idempotent (coeff : cvector) (w w' : world) :
  Forall (fun z => z = C0 \/ float32.min_normal <= np.cabs_sq z) coeff ->
  Forall (fun z => z = C0 \/
                   float32.min_normal * HW2.norm coeff <= np.cabs_sq z)
         coeff ->
  HW2.norm coeff <= 2 ^ 127 ->
  exists (coeff' : cvector) (n n' : float32.t),
    fst (HW2.cell_normalize coeff w) = Normal (coeff', n) /\
    fst (HW2.cell_normalize coeff' w') = Normal (coeff', n') /\
    length coeff' = length coeff /\
    (Exists (fun z => z <> C0) coeff ->
     n = float32.Finite (HW2.norm coeff) /\ n' = float32.Finite 1 /\
     HW2.norm coeff' = 1).
Proof.
  intros Hrange Hrel Hsum.
  destruct (Rlt_dec 0 (HW2.norm coeff)) as [Hn|Hn].
  - pose proof (@norm_normalized coeff Hn) as H1.
    set (coeff' := HW2.divide_by_sqrt coeff (HW2.norm coeff)) in *.
    assert (Hrange' : Forall (fun z => z = C0 \/
                                       float32.min_normal <= np.cabs_sq z)
                             coeff')
      by (apply divided_in_range; assumption).
    exists coeff', (float32.Finite (HW2.norm coeff)), (float32.Finite 1).
    rewrite (@cell_normalize_in_range coeff w Hrange Hsum Hn).
    rewrite (@cell_normalize_in_range coeff' w' Hrange')
      by (rewrite H1; lra).
    rewrite H1, divide_by_sqrt_1.
    split; [reflexivity|]. split; [reflexivity|].
    split; [apply length_divide_by_sqrt|].
    intros _. split; [reflexivity|]. split; reflexivity.
  - destruct (norm_float32_in_range Hrange Hsum) as [Hnorm _].
    assert (H0 : HW2.norm coeff = 0)
      by (pose proof (norm_nonneg coeff); lra).
    assert (Hp : float32.positive (HW2.norm_float32 coeff) = false)
      by (rewrite Hnorm, H0; apply positive_zero).
    exists coeff, (HW2.norm_float32 coeff), (HW2.norm_float32 coeff).
    rewrite (@cell_normalize_zero coeff w Hp).
    rewrite (@cell_normalize_zero coeff w' Hp).
    split; [reflexivity|]. split; [reflexivity|]. split; [reflexivity|].
    intros Hex. pose proof (norm_pos Hex). lra.
Qed.

Lemma normalisation_is_idempotent_witness :
  (Forall (fun z => z = C0 \/ float32.min_normal <= np.cabs_sq z)
          [RtoC 3; C0; RtoC 4] /\
   Forall (fun z => z = C0 \/
                    float32.min_normal * HW2.norm [RtoC 3; C0; RtoC 4]
                    <= np.cabs_sq z)
          [RtoC 3; C0; RtoC 4] /\
   HW2.norm [RtoC 3; C0; RtoC 4] <= 2 ^ 127 /\
   Exists (fun z => z <> C0) [RtoC 3; C0; RtoC 4]) /\
  exists (coeff' : cvector) (n n' : float32.t),
    fst (HW2.cell_normalize [RtoC 3; C0; RtoC 4] empty_world)
    = Normal (coeff', n) /\
    fst (HW2.cell_normalize coeff' empty_world) = Normal (coeff', n') /\
    n' = float32.Finite 1 /\ HW2.norm coeff' = 1.
Proof.
  assert (Hnorm : HW2.norm [RtoC 3; C0; RtoC 4] = 25).
  { rewrite !norm_cons, !cabs_sq_RtoC, cabs_sq_C0.
    unfold HW2.norm. simpl np.sum. ring. }
  assert (Hrange : Forall (fun z => z = C0 \/
                                    float32.min_normal <= np.cabs_sq z)
                          [RtoC 3; C0; RtoC 4]).
  { apply Forall_cons;
      [right; rewrite cabs_sq_RtoC; unfold float32.min_normal; lra|].
    apply Forall_cons; [left; reflexivity|].
    apply Forall_cons;
      [right; rewrite cabs_sq_RtoC; unfold float32.min_normal; lra|].
    apply Forall_nil. }
  assert (Hrel : Forall (fun z => z = C0 \/
                                  float32.min_normal
                                  * HW2.norm [RtoC 3; C0; RtoC 4]
                                  <= np.cabs_sq z)
                        [RtoC 3; C0; RtoC 4]).
  { rewrite Hnorm. apply Forall_cons;
      [right; rewrite cabs_sq_RtoC; unfold float32.min_normal; lra|].
    apply Forall_cons; [left; reflexivity|].
    apply Forall_cons;
      [right; rewrite cabs_sq_RtoC; unfold float32.min_normal; lra|].
    apply Forall_nil. }
  assert (Hsum : HW2.norm [RtoC 3; C0; RtoC 4] <= 2 ^ 127)
    by (rewrite Hnorm; lra).
  assert (Hex : Exists (fun z => z <> C0) [RtoC 3; C0; RtoC 4]).
  { apply Exists_cons_hd. intros E. apply (f_equal Re) in E. simpl in E. lra. }
  split; [exact (conj Hrange (conj Hrel (conj Hsum Hex)))|].
  destruct (@normalisation_is_idempotent [RtoC 3; C0; RtoC 4] empty_world
                                         empty_world Hrange Hrel Hsum)
    as (coeff' & n & n' & Hfirst & Hsecond & _ & Hnorms).
  destruct (Hnorms Hex) as (_ & Hn' & Hone).
  exists coeff', n, n'.
  exact (conj Hfirst (conj Hsecond (conj Hn' Hone))).
Defined.

(** At a real time [t], for [eta <> 0] and [coeff] and [E] of one
    length, the time evolution only turns the phases of the coefficients:
    the array [c = coeff * np.exp(-1j * E / eta * t)] has the same length
    and the same norm [sum |c[m]|^2] as [coeff]. *)
Theorem evolution_keeps_the_norm (eta : R) (f : HW2.Evolve.frame) :
  eta <> 0 ->
  Im (HW2.Evolve.t f) = 0 ->
  length (HW2.Evolve.coeff f) = length (HW2.Evolve.E f) ->
  length (HW2.Evolve.c eta f) = length (HW2.Evolve.coeff f) /\
  HW2.norm (HW2.Evolve.c eta f) = HW2.norm (HW2.Evolve.coeff f).
Proof.
  intros _ Ht Hl. unfold HW2.Evolve.c. split.
  - rewrite length_map2, length_map. lia.
  - apply norm_map2_phase; [now rewrite length_map|].
    apply Forall_forall. intros z Hz. apply in_map_iff in Hz.
    destruct Hz as (e & <- & _).
    apply cabs_sq_Cexp. now apply phase_exponent_is_imaginary.
Qed.

Lemma evolution_keeps_the_norm_witness :
  HW2.norm (HW2.Evolve.c 1 (evolve_at [Ci] [[RtoC 1]] [2] (RtoC 5) 3 1
                                      HW2.Evolve.Suspended))
  = HW2.norm [Ci].
Proof.
  refine (proj2 (@evolution_keeps_the_norm
                   1 (evolve_at [Ci] [[RtoC 1]] [2] (RtoC 5) 3 1
                                HW2.Evolve.Suspended) R1_neq_R0 _ eq_refl)).
  simpl. ring.
Defined.

(* ===================================================================== *)
(** * The frames of the animation                                         *)
(* ===================================================================== *)

Section RunFrames.

Variable eta : R.
Variable X : vector.

(** Once the generator is exhausted, further frames draw nothing. *)
Lemma frames_after_the_end (frames : nat) (g : HW2.Evolve.frame) (w : world) :
  HW2.Evolve.at_ g = HW2.Evolve.Exhausted ->
  HW2.animation_frames frames eta X g w = (Normal g, w).
Proof.
  intros Hg. induction frames as [|frames IH]; cbn [HW2.animation_frames];
    [reflexivity|].
  unfold bind, HW2.animation_frame, HW2.Evolve.next. rewrite Hg.
  unfold ret. exact IH.
Qed.

Lemma run_returns (data : complex * cvector) (w : world) :
  fst (HW2.run X data w) = Normal tt.
Proof. destruct data as [t wave]. now rewrite run_figures. Qed.

Lemma for_run_cons (data : complex * cvector) (rest : list (complex * cvector))
      (w : world) :
  for_ (data :: rest) (HW2.run X) w =
    for_ rest (HW2.run X) (snd (HW2.run X data w)).
Proof.
  cbn [for_]. unfold bind. pose proof (run_returns data w) as Hr.
  destruct (HW2.run X data w) as [[[]|e] w1]; cbn [fst snd] in *;
    [reflexivity|discriminate].
Qed.

Lemma frame_yielded (data : complex * cvector) (g g' : HW2.Evolve.frame)
      (w : world) :
  HW2.Evolve.next eta g = (HW2.Evolve.Yielded data, g') ->
  HW2.animation_frame eta X g w = (Normal g', snd (HW2.run X data w)).
Proof.
  intros Hn. unfold HW2.animation_frame. rewrite Hn. unfold bind.
  pose proof (run_returns data w) as Hr.
  destruct (HW2.run X data w) as [[[]|e] w1]; cbn [fst snd] in *;
    [reflexivity|discriminate].
Qed.

Lemma frame_stopped (g g' : HW2.Evolve.frame) (w : world) :
  HW2.Evolve.next eta g = (HW2.Evolve.StopIteration, g') ->
  HW2.animation_frame eta X g w = (Normal g', w).
Proof. intros Hn. unfold HW2.animation_frame. now rewrite Hn. Qed.

Lemma figures_for_run (l : list (complex * cvector)) (w : world) :
  length (figures (snd (for_ l (HW2.run X) w))) =
    (length (figures w) + 4 * length l)%nat /\
  stdout (snd (for_ l (HW2.run X) w)) = stdout w.
Proof.
  revert w. induction l as [|[t wave] l IH]; intros w.
  - cbn. split; [lia|reflexivity].
  - rewrite for_run_cons. destruct (IH (snd (HW2.run X (t, wave) w))) as [Hf Hs].
    rewrite Hf, Hs, run_figures. cbn [snd figures stdout].
    rewrite length_app. cbn [length]. split; [lia|reflexivity].
Qed.

End RunFrames.

Section Frames.

Variable eta : R.
Variable X : vector.
Variables (coeff : cvector) (psi : cmatrix) (E : vector).
Variable timestep : complex.

Hypothesis len_coeff_psi : length coeff = length psi.
Hypothesis len_psi_E : length psi = length E.

Lemma map2_Cmul_ones (c : cvector) (e : vector) :
  length c = length e ->
  np.map2 Cmul c (map (fun _ => mkC 1 0) e) = c.
Proof.
  revert e. induction c as [|z c IH]; intros [|x e] Hl; try discriminate Hl;
    [reflexivity|].
  cbn [map np.map2]. rewrite IH by (simpl in Hl; lia).
  f_equal. destruct z as [u v]. unfold Cmul. cbn [Re Im]. f_equal; ring.
Qed.

Lemma phase_at_0 (e : R) :
  Cexp (Cdivr (Cmul (Cscale (Copp Ci) e) (Cscale timestep (INR 0))) eta) =
    mkC 1 0.
Proof.
  unfold Cexp, Cdivr, Cmul, Cscale, Copp, Ci. cbn [Re Im INR].
  replace ((- 0 * e * (Re timestep * 0) - - (1) * e * (Im timestep * 0)) / eta)
    with 0 by (unfold Rdiv; ring).
  replace ((- 0 * e * (Im timestep * 0) + - (1) * e * (Re timestep * 0)) / eta)
    with 0 by (unfold Rdiv; ring).
  rewrite exp_0, cos_0, sin_0. f_equal; ring.
Qed.

Lemma kth_pair_0 :
  kth_pair eta coeff psi E timestep 0 = (timestep, np.cvecmat coeff psi).
Proof.
  unfold kth_pair. f_equal.
  - destruct timestep as [u v]. unfold Cscale. cbn [Re Im INR Nat.add].
    f_equal; ring.
  - f_equal. rewrite (map_ext _ (fun _ => mkC 1 0) phase_at_0).
    apply map2_Cmul_ones. lia.
Qed.

Lemma loop_stops_exhausted (n k : nat) (st : HW2.Evolve.status) :
  (n <= k)%nat ->
  HW2.Evolve.loop eta (evolve_at coeff psi E timestep (Z.of_nat n) k st) =
    (HW2.Evolve.StopIteration,
     HW2.Evolve.exhausted (evolve_at coeff psi E timestep (Z.of_nat n) k st)).
Proof.
  intros Hk. unfold HW2.Evolve.loop, evolve_at.
  cbn [HW2.Evolve.num_step HW2.Evolve.cnt].
  replace (Z.of_nat k <? Z.of_nat n)%Z with false
    by (symmetry; apply Z.ltb_ge; lia).
  reflexivity.
Qed.

Lemma frames_suspended (n : nat) :
  forall (frames d k : nat) (w : world),
    (k + d = n)%nat ->
    exists g',
      HW2.animation_frames
        frames eta X
        (evolve_at coeff psi E timestep (Z.of_nat n) k HW2.Evolve.Suspended) w =
        (Normal g',
         snd (for_ (firstn frames
                      (map (kth_pair eta coeff psi E timestep) (seq k d)))
                   (HW2.run X) w)).
Proof.
  induction frames as [|frames IH]; intros d k w Hkd.
  - eexists. reflexivity.
  - cbn [HW2.animation_frames]. unfold bind at 1.
    destruct d as [|d].
    + assert (Hk : (n <= k)%nat) by lia.
      assert (Hnext :
                HW2.Evolve.next
                  eta (evolve_at coeff psi E timestep (Z.of_nat n) k
                                 HW2.Evolve.Suspended) =
                  (HW2.Evolve.StopIteration,
                   HW2.Evolve.exhausted
                     (evolve_at coeff psi E timestep (Z.of_nat n) k
                                HW2.Evolve.Suspended)))
        by exact (@loop_stops_exhausted n k HW2.Evolve.Suspended Hk).
      rewrite (@frame_stopped eta X _ _ w Hnext).
      rewrite frames_after_the_end by reflexivity.
      eexists. reflexivity.
    + assert (Hk : (k < n)%nat) by lia.
      assert (Hnext :
                HW2.Evolve.next
                  eta (evolve_at coeff psi E timestep (Z.of_nat n) k
                                 HW2.Evolve.Suspended) =
                  (HW2.Evolve.Yielded (kth_pair eta coeff psi E timestep k),
                   evolve_at coeff psi E timestep (Z.of_nat n) (S k)
                             HW2.Evolve.Suspended))
        by exact (@loop_yields eta coeff psi E timestep len_coeff_psi
                               len_psi_E n k HW2.Evolve.Suspended Hk).
      rewrite (@frame_yielded eta X _ _ _ w Hnext).
      cbn [seq map firstn]. rewrite for_run_cons.
      apply IH. lia.
Qed.

Lemma frames_fresh (n frames : nat) (w : world) :
  exists g',
    HW2.animation_frames
      frames eta X (HW2.evolve coeff psi E timestep (Some (Z.of_nat n))) w =
      (Normal g',
       snd (for_ (firstn frames
                    (map (kth_pair eta coeff psi E timestep) (seq 0 n)))
                 (HW2.run X) w)).
Proof.
  destruct frames as [|frames]; [eexists; reflexivity|].
  cbn [HW2.animation_frames]. unfold bind at 1.
  pose proof (@next_first eta coeff psi E timestep len_coeff_psi len_psi_E
                          (Z.of_nat n)) as Hfirst.
  destruct n as [|n].
  - rewrite (@loop_stops_exhausted 0 0 HW2.Evolve.NotStarted (le_n 0))
      in Hfirst.
    rewrite (@frame_stopped eta X _ _ w Hfirst).
    rewrite frames_after_the_end by reflexivity.
    eexists. reflexivity.
  - rewrite (@loop_yields eta coeff psi E timestep len_coeff_psi len_psi_E
               (S n) 0 HW2.Evolve.NotStarted (Nat.lt_0_succ n)) in Hfirst.
    rewrite (@frame_yielded eta X _ _ _ w Hfirst).
    cbn [seq map firstn]. rewrite for_run_cons.
    apply (@frames_suspended (S n) frames n 1). lia.
Qed.

End Frames.

(** For [eta <> 0], [len(coeff) = len(psi) = len(E)] and [num_step > 0]
    the first pair the generator yields is [(timestep, coeff @ psi)]: the
    wave function at time 0, which the animation cell has already drawn,
    under the time label of one step later. *)
Theorem first_frame_is_the_initial_wave
        (eta : R) (coeff : cvector) (psi : cmatrix) (E : vector)
        (timestep : complex) (n : Z) :
  eta <> 0 ->
  length coeff = length psi ->
  length psi = length E ->
  (0 < n)%Z ->
  fst (HW2.Evolve.next eta (HW2.evolve coeff psi E timestep (Some n))) =
    HW2.Evolve.Yielded (timestep, np.cvecmat coeff psi).
Proof.
  intros _ H1 H2 Hn.
  rewrite (@next_first eta coeff psi E timestep H1 H2 n).
  replace n with (Z.of_nat (Z.to_nat n)) by lia.
  rewrite (@loop_yields eta coeff psi E timestep H1 H2 (Z.to_nat n) 0
             HW2.Evolve.NotStarted ltac:(lia)).
  cbn [fst]. f_equal. now apply kth_pair_0.
Qed.

Lemma first_frame_is_the_initial_wave_witness :
  fst (HW2.Evolve.next 1 (HW2.evolve [Ci] [[RtoC 1]] [2] (RtoC 5) (Some 300%Z))) =
    HW2.Evolve.Yielded (RtoC 5, np.cvecmat [Ci] [[RtoC 1]]).
Proof.
  exact (@first_frame_is_the_initial_wave 1 [Ci] [[RtoC 1]] [2] (RtoC 5) 300
           R1_neq_R0 eq_refl eq_refl eq_refl).
Defined.

(** For [eta <> 0], [len(coeff) = len(psi) = len(E)] and
    [num_step = n >= 0], the animation raises nothing and draws exactly
    [min(frames, n)] frames: showing the figure for [frames] frames is
    calling [run] on the first [frames] pairs the generator yields, in
    order, and nothing more once the generator is exhausted; each frame
    issues four figure commands and prints nothing. *)
Theorem animation_draws_the_yielded_frames
        (eta : R) (X : vector) (coeff : cvector) (psi : cmatrix) (E : vector)
        (timestep : complex) (n frames : nat) (w : world) :
  eta <> 0 ->
  length coeff = length psi ->
  length psi = length E ->
  let shown :=
    firstn frames (map (kth_pair eta coeff psi E timestep) (seq 0 n)) in
  let after :=
    HW2.animation_frames
      frames eta X (HW2.evolve coeff psi E timestep (Some (Z.of_nat n))) w in
  (exists g', fst after = Normal g') /\
  snd after = snd (for_ shown (HW2.run X) w) /\
  length shown = Nat.min frames n /\
  length (figures (snd after)) =
    (length (figures w) + 4 * Nat.min frames n)%nat /\
  stdout (snd after) = stdout w.
Proof.
  intros _ H1 H2 shown after.
  destruct (@frames_fresh eta X coeff psi E timestep H1 H2 n frames w)
    as [g' Hg].
  assert (Hlen : length shown = Nat.min frames n).
  { unfold shown. now rewrite length_firstn, length_map, length_seq. }
  unfold after. rewrite Hg. cbn [fst snd]. fold shown.
  destruct (figures_for_run X shown w) as [Hf Hs].
  split; [exists g'; reflexivity|].
  split; [reflexivity|].
  split; [exact Hlen|].
  split; [rewrite Hf, Hlen; reflexivity|exact Hs].
Qed.

Lemma animation_draws_the_yielded_frames_witness :
  length (figures
            (snd (HW2.animation_frames
                    5 1 [0] (HW2.evolve [Ci] [[RtoC 1]] [2] (RtoC 5)
                                        (Some (Z.of_nat 2)))
                    empty_world))) =
    (length (figures empty_world) + 4 * Nat.min 5 2)%nat.
Proof.
  pose proof (@animation_draws_the_yielded_frames
                1 [0] [Ci] [[RtoC 1]] [2] (RtoC 5) 2 5 empty_world
                R1_neq_R0 eq_refl eq_refl) as Hthm.
  cbv zeta in Hthm. exact (proj1 (proj2 (proj2 (proj2 Hthm)))).
Defined.

(* ===================================================================== *)
(** * Cells that end normally                                             *)
(* ===================================================================== *)

Section Returns.

Lemma returns_ret (A : Type) (a : A) : returns (ret a) a.
Proof. intros w. reflexivity. Qed.

Lemma returns_print (x : text) : returns (print x) tt.
Proof. intros w. reflexivity. Qed.

Lemma returns_plt (c : fig_cmd) : returns (plt c) tt.
Proof. intros w. reflexivity. Qed.

Lemma returns_bind (A B : Type) (c : M world A) (k : A -> M world B)
      (a : A) (b : B) :
  returns c a -> returns (k a) b -> returns (bind c k) b.
Proof.
  intros Hc Hk w. unfold bind. specialize (Hc w).
  destruct (c w) as [[a'|e] w1]; cbn [fst] in Hc; [|discriminate].
  injection Hc as ->. apply Hk.
Qed.

Lemma returns_import (writes : string -> persistent -> persistent)
      (statement : string) :
  returns (import_ writes statement) tt.
Proof. intros w. reflexivity. Qed.

Lemma cell_imports_returns (lib : np.routines) :
  returns (HW2.cell_imports lib) tt.
Proof.
  unfold HW2.cell_imports.
  do 2 (eapply returns_bind; [apply returns_import|cbv beta]).
  apply returns_import.
Qed.

Lemma cell_printoptions_returns (lib : np.routines) :
  returns (HW2.cell_printoptions lib) tt.
Proof.
  unfold HW2.cell_printoptions.
  eapply returns_bind; [apply returns_import|cbv beta].
  apply returns_print.
Qed.

Lemma completes_bind (A B : Type) (c : M world A) (k : A -> M world B) (b : B) :
  completes c -> (forall a, returns (k a) b) -> returns (bind c k) b.
Proof.
  intros Hc Hk w. unfold bind. destruct (Hc w) as [a Ha].
  destruct (c w) as [[a'|e] w1]; cbn [fst] in Ha; [|discriminate].
  apply Hk.
Qed.

Lemma returns_plt_plot (xs ys : vector) :
  length xs = length ys -> returns (plt_plot xs ys) tt.
Proof. intros Hl w. unfold plt_plot. now rewrite Hl, Nat.eqb_refl. Qed.

Lemma returns_plt_fill_between (xs ys : vector) :
  length xs = length ys -> returns (plt_fill_between xs ys) tt.
Proof. intros Hl w. unfold plt_fill_between. now rewrite Hl, Nat.eqb_refl. Qed.

Lemma returns_plt_ax_plot (axis : nat) (l : line) (xs ys : vector) :
  length xs = length ys -> returns (plt_ax_plot axis l xs ys) tt.
Proof. intros Hl w. unfold plt_ax_plot. now rewrite Hl, Nat.eqb_refl. Qed.

Lemma returns_getitem (A : Type) (v : list A) (i : nat) (d : A) :
  (i < length v)%nat -> returns (getitem v i) (nth i v d).
Proof.
  intros Hi w. unfold getitem.
  rewrite (nth_error_nth' v d Hi). reflexivity.
Qed.

Lemma returns_getmask (A : Type) (v : list A) (mask : list bool) :
  length mask = length v -> returns (getmask v mask) (select mask v).
Proof. intros Hl w. unfold getmask. now rewrite Hl, Nat.eqb_refl. Qed.

Lemma returns_maximum (v : vector) :
  v <> [] -> returns (maximum v) (fold_left Rmax (tl v) (hd 0 v)).
Proof. intros Hv w. destruct v; [congruence|reflexivity]. Qed.

Lemma returns_for (A : Type) (xs : list A) (body : A -> M world unit) :
  (forall x, In x xs -> returns (body x) tt) -> returns (for_ xs body) tt.
Proof.
  induction xs as [|x xs IH]; intros Hb; cbn [for_].
  - apply returns_ret.
  - eapply returns_bind; [apply Hb; now left|].
    apply IH. intros y Hy. apply Hb. now right.
Qed.

Lemma returns_mapM (A B : Type) (f : A -> M world B) (g : A -> B)
      (xs : list A) :
  (forall x, In x xs -> returns (f x) (g x)) ->
  returns (mapM f xs) (map g xs).
Proof.
  induction xs as [|x xs IH]; intros Hf; cbn [mapM map].
  - apply returns_ret.
  - eapply returns_bind; [apply Hf; now left|].
    eapply returns_bind; [apply IH; intros y Hy; apply Hf; now right|].
    apply returns_ret.
Qed.

Lemma in_firstn (A : Type) (n : nat) (l : list A) (x : A) :
  In x (firstn n l) -> In x l.
Proof.
  revert l. induction n as [|n IH]; intros [|y l]; cbn [firstn In]; try tauto.
  intros [E|Hin]; [now left|right; now apply IH].
Qed.

Lemma in_enumerate (A : Type) (l : list A) (i : nat) (x : A) :
  In (i, x) (enumerate l) -> In x l.
Proof. unfold enumerate. apply in_combine_r. Qed.

End Returns.

(** One step of running a cell by hand. *)
Ltac returns_step :=
  lazymatch goal with
  | |- returns (ret _) _ => apply returns_ret
  | |- returns (print _) _ => apply returns_print
  | |- returns (plt _) _ => apply returns_plt
  | |- returns (bind _ _) _ => eapply returns_bind; [|cbv beta]
  | |- returns (let _ := _ in _) _ => cbv zeta
  end.

Section CellsReturn.

Lemma cell_grid_returns (V : vector -> vector) (N : nat) (L eta m q : R) :
  (2 <= N)%nat ->
  returns (HW2.cell_grid V N L eta m q)
          (HW2.X N L, L / INR (N - 1), HW2.t eta m (L / INR (N - 1)),
           HW2.eps (HW2.t eta m (L / INR (N - 1))) q (V (HW2.X N L))).
Proof.
  intros HN w. unfold HW2.cell_grid, bind.
  rewrite (a_is_the_step L w HN). reflexivity.
Qed.

Lemma cell_plot_potential_returns (wd ht : Z) (V : vector -> vector)
      (X : vector) :
  length (V X) = length X -> returns (HW2.cell_plot_potential wd ht V X) tt.
Proof.
  intros Hl. unfold HW2.cell_plot_potential.
  repeat returns_step. now apply returns_plt_plot.
Qed.

Lemma cell_H_returns (N : nat) (t : R) (eps : vector) :
  length eps = N -> returns (HW2.cell_H N t eps) (HW2.H N t eps).
Proof.
  intros He w. unfold HW2.cell_H, HW2.build_H. now rewrite He, Nat.eqb_refl.
Qed.

Lemma cell_order_returns (lib : np.routines) (a : R) (vals : vector)
      (vecs : matrix) :
  returns (HW2.cell_order lib a vals vecs)
          (np.argsort lib vals,
           fst (HW2.reorder a (np.argsort lib vals) vals vecs),
           snd (HW2.reorder a (np.argsort lib vals) vals vecs)).
Proof. intros w. reflexivity. Qed.

Lemma cell_lowest_returns (V : vector -> vector) (X vals : vector)
      (vecs : matrix) :
  length (V X) = length X ->
  (0 < length vals)%nat -> (0 < length vecs)%nat ->
  (forall row, In row vecs -> length row = length X) ->
  returns (HW2.cell_lowest V X vals vecs) tt.
Proof.
  intros HV Hvals Hvecs Hrows. unfold HW2.cell_lowest.
  eapply returns_bind; [now apply cell_plot_potential_returns|cbv beta].
  eapply returns_bind; [apply returns_plt|cbv beta].
  eapply returns_bind; [apply (returns_getitem vecs [] Hvecs)|cbv beta].
  eapply returns_bind.
  { apply returns_plt_plot. symmetry. apply Hrows. now apply nth_In. }
  cbv beta.
  do 2 (eapply returns_bind; [apply returns_plt|cbv beta]).
  eapply returns_bind; [apply (returns_getitem vals 0 Hvals)|cbv beta].
  do 2 (eapply returns_bind; [apply returns_plt|cbv beta]).
  do 2 (eapply returns_bind; [apply (returns_getitem vals 0 Hvals)|cbv beta]).
  apply returns_print.
Qed.

Lemma cell_eigenfunctions_returns (X vals : vector) (vecs : matrix) :
  (forall row, In row vecs -> length row = length X) ->
  returns (HW2.cell_eigenfunctions X vals vecs) tt.
Proof.
  intros Hrows. unfold HW2.cell_eigenfunctions.
  do 4 (eapply returns_bind; [first [apply returns_print|apply returns_plt]|cbv beta]).
  eapply returns_bind; [|apply returns_plt].
  apply returns_for. intros [i [psi E]] Hin.
  apply in_enumerate, in_firstn, in_combine_l in Hin.
  do 2 (eapply returns_bind; [apply returns_plt|cbv beta]).
  eapply returns_bind; [|apply returns_print].
  apply returns_plt_plot. symmetry. now apply Hrows.
Qed.

Lemma cell_distributions_returns (X : vector) (p : matrix) :
  (forall row, In row p -> length row = length X) ->
  returns (HW2.cell_distributions X p) tt.
Proof.
  intros Hrows. unfold HW2.cell_distributions.
  do 3 (eapply returns_bind; [apply returns_plt|cbv beta]).
  eapply returns_bind; [|apply returns_plt].
  apply returns_for. intros [i p_i] Hin.
  apply in_enumerate, in_firstn in Hin.
  do 2 (eapply returns_bind; [apply returns_plt|cbv beta]).
  eapply returns_bind.
  - apply returns_plt_plot. symmetry. now apply Hrows.
  - apply returns_plt_fill_between. symmetry. now apply Hrows.
Qed.

Lemma cell_barrier_returns (V : vector -> vector) (X : vector) (a : R)
      (vals : vector) (p : matrix) :
  (forall row, In row p -> length row = length (V X)) ->
  (8 <= length vals)%nat -> (8 <= length p)%nat ->
  returns (HW2.cell_barrier V X a vals p)
          (map (fun v => Rneqb v 0) (V X),
           np.smul a (map np.sum
                          (map (select (map (fun v => Rneqb v 0) (V X))) p))).
Proof.
  intros Hrows Hvals Hp. unfold HW2.cell_barrier. cbv zeta.
  eapply returns_bind.
  { apply (@returns_mapM _ _ _ (select (map (fun v => Rneqb v 0) (V X)))).
    intros row Hin. apply returns_getmask.
    rewrite length_map. symmetry. now apply Hrows. }
  cbv beta.
  do 3 (eapply returns_bind; [apply returns_plt|cbv beta]).
  eapply returns_bind.
  { apply returns_plt_plot.
    rewrite length_map, length_seq, length_firstn. lia. }
  cbv beta.
  eapply returns_bind; [apply returns_getmask; now rewrite length_map|cbv beta].
  eapply returns_bind.
  { apply returns_plt_plot. unfold np.smul, np.ones.
    now rewrite !length_map, length_seq, repeat_length. }
  cbv beta.
  do 4 (eapply returns_bind; [apply returns_plt|cbv beta]).
  eapply returns_bind.
  { apply returns_plt_plot. unfold np.smul.
    rewrite length_map, length_seq, length_firstn, !length_map. lia. }
  cbv beta.
  do 3 (eapply returns_bind; [apply returns_plt|cbv beta]).
  do 3 (eapply returns_bind; [apply returns_print|cbv beta]).
  eapply returns_bind; [|apply returns_ret].
  apply returns_for. intros [i [E prob]] _. apply returns_print.
Qed.

Lemma sum_select_bounds (mask : list bool) (v : vector) :
  Forall (fun x => 0 <= x) v ->
  0 <= np.sum (select mask v) <= np.sum v.
Proof.
  intros Hv. revert mask. induction Hv as [|x v Hx Hv IH]; intros [|b mask];
    cbn [select]; try (unfold np.sum; simpl; lra).
  - change (np.sum (x :: v)) with (x + np.sum v).
    pose proof (sum_nonneg Hv) as Hn.
    unfold np.sum at 1 2. simpl. lra.
  - change (np.sum (x :: v)) with (x + np.sum v).
    specialize (IH mask). destruct b.
    + change (np.sum (x :: select mask v)) with (x + np.sum (select mask v)).
      lra.
    + lra.
Qed.

Lemma p_row_nonneg (vecs : matrix) (i : nat) :
  Forall (fun x => 0 <= x) (nth i (HW2.p vecs) []).
Proof.
  unfold HW2.p. destruct (Nat.lt_ge_cases i (length vecs)) as [Hi|Hi].
  - rewrite (nth_map_in _ _ ([] : list R) []) by exact Hi.
    apply Forall_forall. intros x Hx. apply in_map_iff in Hx.
    destruct Hx as (y & <- & _). rewrite abs_sq_eq. nra.
  - rewrite nth_overflow by (rewrite length_map; exact Hi). constructor.
Qed.

End CellsReturn.

(** The barrier cell of the tunnelling part ends normally when [vals] and
    [p] hold at least 8 levels on the grid of [V(X)], and each
    [barrier[i] = a * p[i, B].sum()] lies between 0 and
    [a * p[i].sum()] (which is 1 for normalised eigenfunctions): it is a
    probability. *)
Theorem barrier_probability_is_bounded
        (V : vector -> vector) (X : vector) (a : R) (vals : vector)
        (vecs : matrix) (w : world) :
  0 <= a ->
  (forall row, In row vecs -> length row = length (V X)) ->
  (8 <= length vals)%nat -> (8 <= length vecs)%nat ->
  exists (B : list bool) (barrier : vector),
    fst (HW2.cell_barrier V X a vals (HW2.p vecs) w) = Normal (B, barrier) /\
    B = map (fun v => Rneqb v 0) (V X) /\
    length barrier = length vecs /\
    forall i, (i < length vecs)%nat ->
      nth i barrier 0 = a * np.sum (select B (nth i (HW2.p vecs) [])) /\
      0 <= nth i barrier 0 <= a * np.sum (nth i (HW2.p vecs) []).
Proof.
  intros Ha Hrows Hvals Hvecs.
  assert (Hp : forall row, In row (HW2.p vecs) -> length row = length (V X)).
  { intros row Hin. unfold HW2.p in Hin. apply in_map_iff in Hin.
    destruct Hin as (r & <- & Hr). rewrite length_map. now apply Hrows. }
  assert (Hlp : length (HW2.p vecs) = length vecs)
    by (unfold HW2.p; apply length_map).
  eexists. eexists. split.
  { apply cell_barrier_returns; [exact Hp|exact Hvals|now rewrite Hlp]. }
  split; [reflexivity|].
  split; [unfold np.smul; now rewrite !length_map|].
  intros i Hi.
  assert (Hnth : nth i (np.smul a
                          (map np.sum
                               (map (select (map (fun v => Rneqb v 0) (V X)))
                                    (HW2.p vecs)))) 0 =
                 a * np.sum (select (map (fun v => Rneqb v 0) (V X))
                                    (nth i (HW2.p vecs) []))).
  { unfold np.smul.
    rewrite (nth_map_in _ _ 0 0) by (rewrite !length_map, Hlp; exact Hi).
    rewrite (nth_map_in _ _ ([] : list R) 0) by (rewrite length_map, Hlp; exact Hi).
    rewrite (nth_map_in _ _ ([] : list R) []) by (rewrite Hlp; exact Hi).
    reflexivity. }
  split; [exact Hnth|]. rewrite Hnth.
  pose proof (@sum_select_bounds (map (fun v => Rneqb v 0) (V X))
                (nth i (HW2.p vecs) []) (p_row_nonneg vecs i)) as [Hlo Hhi].
  split; [nra|]. apply Rmult_le_compat_l; assumption.
Qed.

Lemma barrier_probability_is_bounded_witness :
  exists (B : list bool) (barrier : vector),
    fst (HW2.cell_barrier (fun _ => [1]) [0] 1 (repeat 0 8)
                          (HW2.p (repeat [1] 8)) empty_world)
    = Normal (B, barrier) /\
    B = map (fun v => Rneqb v 0) [1] /\
    length barrier = length (repeat [1] 8).
Proof.
  assert (Hrows : forall row : list R,
             In row (repeat [1] 8) -> length row = length [1]).
  { intros row Hin. apply repeat_spec in Hin. now subst row. }
  destruct (@barrier_probability_is_bounded
              (fun _ => [1]) [0] 1 (repeat 0 8) (repeat [1] 8) empty_world
              Rle_0_1 Hrows (le_n 8) (le_n 8))
    as (B & barrier & Hrun & HB & Hlen & _).
  exists B, barrier. split; [exact Hrun|]. split; [exact HB|exact Hlen].
Defined.

(* ===================================================================== *)
(** * The superposition cell                                              *)
(* ===================================================================== *)

Section Superposition.

Lemma length_update (A : Type) (v : list A) (i : nat) (x : A) :
  length (update v i x) = length v.
Proof.
  revert i. induction v as [|y v IH]; intros [|i]; cbn [update length];
    try reflexivity. now rewrite IH.
Qed.

Lemma nth_update (A : Type) (v : list A) (i k : nat) (x d : A) :
  (i < length v)%nat ->
  nth k (update v i x) d = if (k =? i)%nat then x else nth k v d.
Proof.
  revert i k. induction v as [|y v IH]; intros [|i] [|k] Hi;
    cbn [update nth length Nat.eqb] in *; try lia; try reflexivity.
  apply IH. lia.
Qed.

Lemma assign_all_runs (assignments : list (nat * complex)) :
  forall (coeff : cvector) (w : world),
    Forall (fun kz => (fst kz < length coeff)%nat) assignments ->
    HW2.assign_all coeff assignments w =
      (Normal (fold_left (fun c kz => update c (fst kz) (snd kz))
                         assignments coeff), w) /\
    length (fold_left (fun c kz => update c (fst kz) (snd kz))
                      assignments coeff) = length coeff /\
    forall k, nth k (fold_left (fun c kz => update c (fst kz) (snd kz))
                               assignments coeff) C0 =
              match last_assigned assignments k with
              | Some z => z
              | None => nth k coeff C0
              end.
Proof.
  induction assignments as [|[k' z] rest IH]; intros coeff w Hall.
  - repeat split.
  - inversion Hall as [|? ? Hk Hrest]; subst. cbn [fst] in Hk.
    cbn [HW2.assign_all fold_left fst snd]. unfold bind, setitem.
    destruct (Nat.ltb_spec k' (length coeff)) as [_|Hge]; [|lia].
    unfold ret at 1.
    destruct (IH (update coeff k' z) w) as (Hrun & Hlen & Hnth).
    { rewrite length_update. exact Hrest. }
    split; [exact Hrun|].
    split; [now rewrite Hlen, length_update|].
    intros k. rewrite Hnth. cbn [last_assigned].
    destruct (last_assigned rest k); [reflexivity|].
    rewrite nth_update by exact Hk.
    destruct (k =? k')%nat; reflexivity.
Qed.

Lemma assign_all_out_of_range (assignments : list (nat * complex)) :
  forall (coeff : cvector) (w : world),
    Exists (fun kz => (length coeff <= fst kz)%nat) assignments ->
    HW2.assign_all coeff assignments w = (Raised IndexError, w).
Proof.
  induction assignments as [|[k' z] rest IH]; intros coeff w Hex.
  - inversion Hex.
  - cbn [HW2.assign_all]. unfold bind, setitem.
    destruct (Nat.ltb_spec k' (length coeff)) as [Hlt|Hge]; [|reflexivity].
    unfold ret at 1. apply IH. rewrite length_update.
    inversion Hex as [? ? Hhd|? ? Htl]; subst; [cbn [fst] in Hhd; lia|exact Htl].
Qed.

End Superposition.

(** The superposition cell.  When every assigned index is below [cutoff]
    it ends normally, having printed one empty line, with [psi] and [E] the
    first [cutoff] levels and [coeff] an array of length [cutoff] that
    holds at [k] the value last assigned to [coeff[k]] and 0 where nothing
    was assigned.  When some assigned index is [cutoff] or more, the cell
    raises IndexError and prints nothing. *)
Theorem superposition_cell_sets_the_coefficients
        (cutoff : nat) (assignments : list (nat * complex)) (vals : vector)
        (vecs : matrix) (w : world) :
  (Forall (fun kz => (fst kz < cutoff)%nat) assignments ->
   exists coeff,
     HW2.cell_superposition cutoff assignments vals vecs w =
       (Normal (map (map RtoC) (firstn cutoff vecs), firstn cutoff vals, coeff),
        printed [lit EmptyString] w) /\
     length coeff = cutoff /\
     forall k, nth k coeff C0 =
               match last_assigned assignments k with
               | Some z => z
               | None => C0
               end) /\
  (Exists (fun kz => (cutoff <= fst kz)%nat) assignments ->
   HW2.cell_superposition cutoff assignments vals vecs w =
     (Raised IndexError, w)).
Proof.
  split.
  - intros Hall.
    destruct (@assign_all_runs assignments (repeat C0 cutoff) w)
      as (Hrun & Hlen & Hnth).
    { now rewrite repeat_length. }
    eexists. unfold HW2.cell_superposition. cbv zeta.
    unfold bind at 1. rewrite Hrun.
    split; [reflexivity|].
    split; [now rewrite Hlen, repeat_length|].
    intros k. rewrite Hnth.
    destruct (last_assigned assignments k); [reflexivity|].
    destruct (Nat.lt_ge_cases k cutoff) as [Hk|Hk].
    + apply nth_repeat_lt. exact Hk.
    + apply nth_overflow. now rewrite repeat_length.
  - intros Hex. unfold HW2.cell_superposition. cbv zeta.
    unfold bind at 1.
    rewrite (@assign_all_out_of_range assignments (repeat C0 cutoff) w);
      [reflexivity|now rewrite repeat_length].
Qed.

Lemma superposition_cell_sets_the_coefficients_witness :
  (Forall (fun kz : nat * complex => (fst kz < 5)%nat)
          [(4%nat, RtoC 1); (0%nat, Ci); (4%nat, RtoC 2)] /\
   exists coeff,
     fst (HW2.cell_superposition
            5 [(4%nat, RtoC 1); (0%nat, Ci); (4%nat, RtoC 2)] [] []
            empty_world) = Normal ([], [], coeff) /\
     nth 4 coeff C0 = RtoC 2) /\
  (Exists (fun kz : nat * complex => (5 <= fst kz)%nat) [(5%nat, Ci)] /\
   HW2.cell_superposition 5 [(5%nat, Ci)] [] [] empty_world =
     (Raised IndexError, empty_world)).
Proof.
  assert (Hall : Forall (fun kz : nat * complex => (fst kz < 5)%nat)
                        [(4%nat, RtoC 1); (0%nat, Ci); (4%nat, RtoC 2)]).
  { repeat constructor. }
  assert (Hex : Exists (fun kz : nat * complex => (5 <= fst kz)%nat)
                       [(5%nat, Ci)]).
  { constructor. apply le_n. }
  split.
  - split; [exact Hall|].
    destruct (proj1 (@superposition_cell_sets_the_coefficients
                       5 [(4%nat, RtoC 1); (0%nat, Ci); (4%nat, RtoC 2)]
                       [] [] empty_world) Hall)
      as (coeff & Hrun & _ & Hnth).
    exists coeff. split; [now rewrite Hrun|]. exact (Hnth 4%nat).
  - split; [exact Hex|].
    exact (proj2 (@superposition_cell_sets_the_coefficients
                    5 [(5%nat, Ci)] [] [] empty_world) Hex).
Defined.

(* ===================================================================== *)
(** * The animation cell                                                  *)
(* ===================================================================== *)

Section AnimationCell.

Lemma raises_bind_later (A B : Type) (c : M world A) (k : A -> M world B)
      (a : A) (e : exn) :
  returns c a -> raises (k a) e -> raises (bind c k) e.
Proof.
  intros Hc Hk w. unfold bind. specialize (Hc w).
  destruct (c w) as [[a'|e'] w1]; cbn [fst] in Hc; [|discriminate].
  injection Hc as ->. apply Hk.
Qed.

Lemma raises_bind_now (A B : Type) (c : M world A) (k : A -> M world B)
      (e : exn) :
  raises c e -> raises (bind c k) e.
Proof.
  intros Hc w. unfold bind. specialize (Hc w).
  destruct (c w) as [[a'|e'] w1]; cbn [fst] in Hc; [discriminate|].
  injection Hc as ->. reflexivity.
Qed.

Lemma raises_plt_ax_plot (axis : nat) (l : line) (xs ys : vector) :
  length xs <> length ys -> raises (plt_ax_plot axis l xs ys) ValueError.
Proof.
  intros Hl w. unfold plt_ax_plot.
  destruct (Nat.eqb_spec (length xs) (length ys)); [contradiction|reflexivity].
Qed.

Lemma returns_matmul (c : cvector) (psi : cmatrix) :
  length c = length psi -> returns (HW2.matmul c psi) (np.cvecmat c psi).
Proof. intros Hl w. unfold HW2.matmul. now rewrite Hl, Nat.eqb_refl. Qed.

Lemma raises_matmul (c : cvector) (psi : cmatrix) :
  length c <> length psi -> raises (HW2.matmul (S := world) c psi) ValueError.
Proof.
  intros Hl w. unfold HW2.matmul.
  destruct (Nat.eqb_spec (length c) (length psi)); [contradiction|reflexivity].
Qed.

Lemma length_cvecmat (c : cvector) (psi : cmatrix) :
  length (np.cvecmat c psi) = np.ncols psi.
Proof. unfold np.cvecmat. now rewrite length_map, length_seq. Qed.

(** The statements of the cell up to [wave = (coeff @ psi)]. *)
Ltac animation_prefix after :=
  unfold HW2.cell_animation;
  eapply after; [apply returns_ret|cbv beta zeta];
  eapply after; [apply returns_print|cbv beta];
  do 6 (eapply after; [apply returns_plt|cbv beta]).

Lemma cell_animation_returns (ts : complex) (num_step : option Z) (eta : R)
      (X : vector) (coeff : cvector) (psi : cmatrix) (E : vector) :
  length coeff = length psi -> length X = np.ncols psi -> X <> [] ->
  returns (HW2.cell_animation (Some ts) num_step eta X coeff psi E)
          (HW2.evolve coeff psi E ts num_step,
           np.cvecmat coeff psi, HW2.p_wave (np.cvecmat coeff psi)).
Proof.
  intros Hc HX Hne.
  assert (Hw : length X = length (np.cvecmat coeff psi))
    by now rewrite length_cvecmat.
  assert (Hp : HW2.p_wave (np.cvecmat coeff psi) <> []).
  { intros Hnil. apply (f_equal (@length R)) in Hnil.
    unfold HW2.p_wave in Hnil. rewrite length_map, <- Hw in Hnil.
    destruct X; [congruence|discriminate]. }
  animation_prefix returns_bind.
  eapply returns_bind; [now apply returns_matmul|cbv beta zeta].
  do 3 (eapply returns_bind;
        [apply returns_plt_ax_plot; unfold HW2.p_wave;
         now rewrite length_map|cbv beta]).
  do 2 (eapply returns_bind; [apply returns_plt|cbv beta]).
  eapply returns_bind.
  { apply returns_maximum. intros Hnil. apply Hp.
    now apply map_eq_nil in Hnil. }
  cbv beta zeta.
  eapply returns_bind; [apply returns_plt|cbv beta].
  eapply returns_bind; [now apply returns_maximum|cbv beta].
  do 3 (eapply returns_bind; [apply returns_plt|cbv beta]).
  apply returns_ret.
Qed.

Lemma cell_animation_raises (ts : complex) (num_step : option Z) (eta : R)
      (X : vector) (coeff : cvector) (psi : cmatrix) (E : vector) :
  length coeff <> length psi \/ length X <> np.ncols psi \/ X = [] ->
  raises (HW2.cell_animation (Some ts) num_step eta X coeff psi E) ValueError.
Proof.
  intros Hbad.
  destruct (Nat.eq_dec (length coeff) (length psi)) as [Hc|Hc].
  - destruct (Nat.eq_dec (length X) (np.ncols psi)) as [HX|HX].
    + destruct Hbad as [Hbad|[Hbad|Hbad]]; try contradiction. subst X.
      assert (Hw : np.cvecmat coeff psi = []).
      { apply length_zero_iff_nil. now rewrite length_cvecmat, <- HX. }
      animation_prefix raises_bind_later.
      eapply raises_bind_later; [now apply returns_matmul|cbv beta zeta].
      rewrite Hw.
      do 3 (eapply raises_bind_later;
            [apply returns_plt_ax_plot; reflexivity|cbv beta]).
      do 2 (eapply raises_bind_later; [apply returns_plt|cbv beta]).
      apply raises_bind_now. intros w. reflexivity.
    + animation_prefix raises_bind_later.
      eapply raises_bind_later; [now apply returns_matmul|cbv beta zeta].
      apply raises_bind_now. apply raises_plt_ax_plot.
      now rewrite length_map, length_cvecmat.
  - animation_prefix raises_bind_later.
    apply raises_bind_now. now apply raises_matmul.
Qed.

End AnimationCell.

(** With a [timestep] given and at least one level in [psi], the animation
    cell ends normally exactly when the shapes fit: [coeff] has one entry
    per row of [psi], [psi] has one column per grid point, and the grid is
    not empty.  It then returns the fresh generator, [wave = coeff @ psi]
    and [p = |wave|^2].  Otherwise it raises ValueError (from
    [coeff @ psi], from [ax1.plot], or from the [max] of an empty array).
    The length of [E] is not looked at: it is only checked by the assertion
    of [evolve], at the first frame. *)
Theorem animation_cell_needs_matching_shapes
        (ts : complex) (num_step : option Z) (eta : R) (X : vector)
        (coeff : cvector) (psi : cmatrix) (E : vector) (w : world) :
  psi <> [] ->
  (length coeff = length psi /\ length X = np.ncols psi /\ X <> [] ->
   fst (HW2.cell_animation (Some ts) num_step eta X coeff psi E w) =
     Normal (HW2.evolve coeff psi E ts num_step,
             np.cvecmat coeff psi, HW2.p_wave (np.cvecmat coeff psi))) /\
  (~ (length coeff = length psi /\ length X = np.ncols psi /\ X <> []) ->
   fst (HW2.cell_animation (Some ts) num_step eta X coeff psi E w) =
     Raised ValueError).
Proof.
  intros _. split.
  - intros (Hc & HX & Hne). now apply cell_animation_returns.
  - intros Hbad. apply cell_animation_raises.
    destruct (Nat.eq_dec (length coeff) (length psi)) as [Hc|Hc]; [|now left].
    destruct (Nat.eq_dec (length X) (np.ncols psi)) as [HX|HX];
      [|right; now left].
    right; right. destruct X as [|x X]; [reflexivity|].
    exfalso. apply Hbad. repeat split; try assumption. discriminate.
Qed.

Lemma animation_cell_needs_matching_shapes_witness :
  (fst (HW2.cell_animation (Some (RtoC 1)) (Some 300%Z) 1 [0] [Ci] [[RtoC 1]]
                           [2] empty_world) =
     Normal (HW2.evolve [Ci] [[RtoC 1]] [2] (RtoC 1) (Some 300%Z),
             np.cvecmat [Ci] [[RtoC 1]],
             HW2.p_wave (np.cvecmat [Ci] [[RtoC 1]]))) /\
  (fst (HW2.cell_animation (Some (RtoC 1)) (Some 300%Z) 1 [0] [Ci; Ci]
                           [[RtoC 1]] [2] empty_world) =
     Raised ValueError).
Proof.
  assert (Hpsi : [[RtoC 1]] <> []) by discriminate.
  split.
  - apply (proj1 (@animation_cell_needs_matching_shapes
                    (RtoC 1) (Some 300%Z) 1 [0] [Ci] [[RtoC 1]] [2]
                    empty_world Hpsi)).
    repeat split. discriminate.
  - apply (proj2 (@animation_cell_needs_matching_shapes
                    (RtoC 1) (Some 300%Z) 1 [0] [Ci; Ci] [[RtoC 1]] [2]
                    empty_world Hpsi)).
    intros (Hc & _). discriminate Hc.
Defined.

(* ===================================================================== *)
(** * HW4: counts and probabilities                                       *)
(* ===================================================================== *)

Section Counts.

Lemma counts_of_snoc (l : list string) (k : string) :
  qiskit.counts_of (l ++ [k]) = qiskit.bump k (qiskit.counts_of l).
Proof. unfold qiskit.counts_of. now rewrite fold_left_app. Qed.

Lemma dict_get_bump (d : list (string * nat)) (k s : string) :
  dict_get (qiskit.bump k d) s =
    if String.eqb s k
    then Some (S (match dict_get d k with Some n => n | None => 0%nat end))
    else dict_get d s.
Proof.
  induction d as [|[k' n] d IH]; cbn [qiskit.bump dict_get].
  - reflexivity.
  - destruct (String.eqb_spec k k') as [Ekk|Ekk]; cbn [dict_get].
    + subst k'. destruct (String.eqb s k); reflexivity.
    + rewrite IH.
      destruct (String.eqb_spec s k') as [Es|Es];
        destruct (String.eqb_spec s k) as [Esk|Esk]; try reflexivity.
      congruence.
Qed.

Lemma total_of_bump (d : list (string * nat)) (k : string) :
  total_of (qiskit.bump k d) = S (total_of d).
Proof.
  unfold total_of. induction d as [|[k' n] d IH]; cbn [qiskit.bump];
    [reflexivity|].
  destruct (String.eqb k k'); cbn [map snd fold_right] in *; [lia|].
  rewrite IH. lia.
Qed.

Lemma keys_bump (d : list (string * nat)) (k x : string) :
  In x (map fst (qiskit.bump k d)) <-> x = k \/ In x (map fst d).
Proof.
  induction d as [|[k' n] d IH]; cbn [qiskit.bump map fst In].
  - intuition congruence.
  - destruct (String.eqb_spec k k') as [E|E]; cbn [map fst In].
    + subst k'. intuition congruence.
    + rewrite IH. intuition congruence.
Qed.

Lemma NoDup_keys_bump (d : list (string * nat)) (k : string) :
  NoDup (map fst d) -> NoDup (map fst (qiskit.bump k d)).
Proof.
  induction d as [|[k' n] d IH]; cbn [qiskit.bump map fst]; intros Hnd.
  - repeat constructor. intros [].
  - inversion Hnd as [|? ? Hnotin Hnd']; subst.
    destruct (String.eqb_spec k k') as [E|E]; cbn [map fst].
    + constructor; assumption.
    + constructor; [|now apply IH].
      rewrite keys_bump. intros [Ek|Hin]; [congruence|contradiction].
Qed.

Lemma counts_of_total (l : list string) :
  total_of (qiskit.counts_of l) = length l.
Proof.
  induction l as [|k l IH] using rev_ind; [reflexivity|].
  rewrite counts_of_snoc, total_of_bump, IH, length_app. simpl. lia.
Qed.

Lemma counts_of_NoDup (l : list string) :
  NoDup (map fst (qiskit.counts_of l)).
Proof.
  induction l as [|k l IH] using rev_ind; [constructor|].
  rewrite counts_of_snoc. now apply NoDup_keys_bump.
Qed.

(** [get_counts()[s]] is the number of shots that measured [s]; a
    bitstring that was never measured is no key. *)
Lemma counts_of_get (l : list string) (s : string) :
  dict_get (qiskit.counts_of l) s =
    if (count_occ string_dec l s =? 0)%nat then None
    else Some (count_occ string_dec l s).
Proof.
  induction l as [|k l IH] using rev_ind; [reflexivity|].
  rewrite counts_of_snoc, dict_get_bump, count_occ_app. cbn [count_occ].
  destruct (String.eqb_spec s k) as [E|E].
  - subst k. rewrite IH. destruct (string_dec s s) as [_|N]; [|congruence].
    destruct (Nat.eqb_spec (count_occ string_dec l s) 0) as [Hz|Hz].
    + rewrite Hz. reflexivity.
    + destruct (Nat.eqb_spec (count_occ string_dec l s + 1) 0); [lia|].
      f_equal. lia.
  - rewrite IH. destruct (string_dec k s) as [Eks|_]; [congruence|].
    now rewrite Nat.add_0_r.
Qed.

Lemma dict_get_entry (V : Type) (d : list (string * V)) (k : string) (v : V) :
  NoDup (map fst d) -> In (k, v) d -> dict_get d k = Some v.
Proof.
  induction d as [|[k' v'] d IH]; cbn [map fst In dict_get]; [tauto|].
  intros Hnd [E|Hin].
  - injection E as -> ->. now rewrite String.eqb_refl.
  - inversion Hnd as [|? ? Hnotin Hnd']; subst.
    destruct (String.eqb_spec k k') as [E|E]; [|now apply IH].
    subst k'. exfalso. apply Hnotin. apply in_map_iff. now exists (k, v).
Qed.

(** Adding up [counts[state]/total_counts] over the keys. *)
Lemma total_prob_sum (counts : list (string * nat)) (T : nat) :
  forall (part : list (string * nat)) (acc : R),
    (forall k n, In (k, n) part -> dict_get counts k = Some n) ->
    fold_left (fun s k => s + quotient counts T k) (map fst part) acc =
      acc + INR (total_of part) / INR T.
Proof.
  induction part as [|[k n] part IH]; intros acc Hget; cbn [map fst fold_left].
  - unfold total_of. simpl. unfold Rdiv. ring.
  - rewrite IH by (intros k' n' Hin; apply Hget; now right).
    unfold quotient. rewrite (Hget k n) by now left.
    unfold total_of. cbn [map snd fold_right]. rewrite plus_INR.
    unfold Rdiv. ring.
Qed.

End Counts.

(** The probabilities cell, run on what the sampler returned.  It ends
    normally; [probs[s]] is the relative frequency of the bitstring [s]
    among the shots, for exactly the bitstrings that were measured; every
    probability is in (0, 1]; and [total_prob] is 1, or 0 when there was
    no shot at all. *)
Theorem probabilities_are_relative_frequencies
        (bitstrings : list string) (w : world) :
  exists (probs : list (string * R)) (total_prob : R),
    fst (HW4.cell_probs bitstrings (qiskit.counts_of bitstrings) w) =
      Normal (probs, length bitstrings, total_prob) /\
    (forall s,
        dict_get probs s =
          if (count_occ string_dec bitstrings s =? 0)%nat then None
          else Some (INR (count_occ string_dec bitstrings s)
                     / INR (length bitstrings))) /\
    (forall s p, dict_get probs s = Some p -> 0 < p <= 1) /\
    total_prob = match bitstrings with [] => 0 | _ :: _ => 1 end.
Proof.
  destruct (cell_probs_runs bitstrings w) as (probs & tp & Hrun & Hget & Htp).
  assert (Hfreq : forall s,
             dict_get probs s =
               if (count_occ string_dec bitstrings s =? 0)%nat then None
               else Some (INR (count_occ string_dec bitstrings s)
                          / INR (length bitstrings))).
  { intros s. rewrite Hget, counts_of_get.
    destruct (count_occ string_dec bitstrings s =? 0)%nat; reflexivity. }
  exists probs, tp. split; [now rewrite Hrun|].
  split; [exact Hfreq|]. split.
  - intros s p Hp. rewrite Hfreq in Hp.
    destruct (Nat.eqb_spec (count_occ string_dec bitstrings s) 0) as [Hz|Hz];
      [discriminate|].
    injection Hp as <-.
    pose proof (count_occ_bound string_dec s bitstrings) as Hb.
    assert (Hc : 0 < INR (count_occ string_dec bitstrings s))
      by (apply lt_0_INR; lia).
    assert (Hl : 0 < INR (length bitstrings)) by (apply lt_0_INR; lia).
    apply le_INR in Hb. split.
    + apply Rdiv_lt_0_compat; assumption.
    + apply (Rmult_le_reg_r (INR (length bitstrings))); [exact Hl|].
      unfold Rdiv. rewrite Rmult_assoc, Rinv_l by lra. lra.
  - rewrite Htp, total_prob_sum.
    + rewrite counts_of_total. destruct bitstrings as [|b bs].
      * cbn. unfold Rdiv. ring.
      * rewrite Rplus_0_l. unfold Rdiv. apply Rinv_r.
        apply not_0_INR. discriminate.
    + intros k n Hin. apply dict_get_entry; [apply counts_of_NoDup|exact Hin].
Qed.

(** The probabilities cell on any [bitstrings] and [counts]: it raises
    ZeroDivisionError, before printing anything, exactly when there is no
    bitstring but [counts] has a key; in every other case it ends
    normally.  It never raises KeyError. *)
Theorem probabilities_cell_divides_by_the_shots
        (bitstrings : list string) (counts : list (string * nat)) (w : world) :
  (bitstrings = [] /\ counts <> [] ->
   HW4.cell_probs bitstrings counts w = (Raised ZeroDivisionError, w)) /\
  (~ (bitstrings = [] /\ counts <> []) ->
   exists (probs : list (string * R)) (total_prob : R),
     fst (HW4.cell_probs bitstrings counts w) =
       Normal (probs, length bitstrings, total_prob)).
Proof.
  split.
  - intros [-> Hne]. destruct counts as [|[k n] counts]; [congruence|].
    unfold HW4.cell_probs, bind. cbn [map fst for_acc].
    unfold bind, dict_item. cbn [dict_get]. rewrite String.eqb_refl.
    reflexivity.
  - intros Hok. destruct counts as [|[k n] counts].
    + eexists. eexists. reflexivity.
    + assert (Ht : length bitstrings <> 0%nat).
      { intros Hz. apply Hok. split; [|discriminate].
        now apply length_zero_iff_nil. }
      pose proof (@loop_runs ((k, n) :: counts) (length bitstrings)
                             (map fst ((k, n) :: counts)) Ht
                             (fun k Hk => Hk) [] 0 w) as Hl.
      cbv zeta in Hl.
      eexists. eexists. unfold HW4.cell_probs. unfold bind at 1.
      rewrite Hl. reflexivity.
Qed.

Lemma probabilities_cell_divides_by_the_shots_witness :
  HW4.cell_probs [] [("0"%string, 3%nat)] empty_world =
    (Raised ZeroDivisionError, empty_world).
Proof.
  apply (proj1 (@probabilities_cell_divides_by_the_shots
                  [] [("0"%string, 3%nat)] empty_world)).
  split; [reflexivity|discriminate].
Defined.

(* ===================================================================== *)
(** * The solver cell and the cells it repeats                            *)
(* ===================================================================== *)

Section SolveChain.

Lemma a_leaves_the_world (X : vector) (w : world) : snd (HW2.a X w) = w.
Proof.
  unfold HW2.a, bind, getitem.
  destruct (nth_error X 1); [|reflexivity].
  destruct (nth_error X 0); reflexivity.
Qed.

End SolveChain.

(** The solver cell of the superposition part does what the cells of the
    tunnelling part do one after the other (grid, [H], [np.linalg.eig],
    reordering): both end the same way, with the same [X], [a], [H],
    [vals] and [vecs] or with the same exception.  The only difference
    is the empty line that the reordering cell prints; the solver cell
    itself prints nothing. *)
Theorem solver_cell_is_the_cells_in_a_row
        (lib : np.routines) (V : vector -> vector) (N : nat) (L eta m q : R)
        (w : world) :
  let chain :=
    ('(X, a, t, eps) <- HW2.cell_grid V N L eta m q ;;
     H <- HW2.cell_H N t eps ;;
     '(vals, vecs) <- HW2.cell_eig lib H ;;
     '(order, vals, vecs) <- HW2.cell_order lib a vals vecs ;;
     ret (X, a, H, vals, vecs))%cell in
  fst (HW2.cell_solve lib V N L eta m q w) = fst (chain w) /\
  snd (HW2.cell_solve lib V N L eta m q w) = w /\
  snd (chain w) =
    match fst (chain w) with
    | Normal _ => printed [lit EmptyString] w
    | Raised _ => w
    end.
Proof.
  intros chain. unfold chain, HW2.cell_solve, HW2.cell_grid, HW2.cell_H,
    HW2.cell_eig, HW2.cell_order, HW2.build_H, bind.
  pose proof (a_leaves_the_world (HW2.X N L) w) as Hw.
  destruct (HW2.a (HW2.X N L) w) as [[a|e] w1]; cbn [snd] in Hw; subst w1;
    [|repeat split].
  unfold ret, raise, print, modify. cbv beta iota zeta.
  destruct (length (HW2.eps (HW2.t eta m a) q (V (HW2.X N L))) =? N)%nat;
    [|repeat split].
  cbv beta iota zeta.
  destruct (np.linalg_eig lib
              (HW2.H N (HW2.t eta m a)
                     (HW2.eps (HW2.t eta m a) q (V (HW2.X N L)))))
    as [vals vecs].
  unfold HW2.reorder. cbv beta iota zeta. repeat split.
Qed.

(* ===================================================================== *)
(** * The whole of HW2                                                    *)
(* ===================================================================== *)

Section WholeNotebook.

Lemma rows_of_H (N : nat) (t : R) (eps : vector) :
  length eps = N ->
  forall row, In row (HW2.H N t eps) -> length row = N.
Proof.
  intros He row Hin. destruct (In_nth _ _ [] Hin) as (i & Hi & <-).
  rewrite length_H in Hi. now apply length_H_row.
Qed.

Lemma reorder_shape (N : nat) (a : R) (order : list nat) (vals0 : vector)
      (vecs0 : matrix) :
  length vals0 = N -> length vecs0 = N ->
  Permutation order (seq 0 N) ->
  length (fst (HW2.reorder a order vals0 vecs0)) = N /\
  length (snd (HW2.reorder a order vals0 vecs0)) = N /\
  forall row, In row (snd (HW2.reorder a order vals0 vecs0)) ->
              length row = N.
Proof.
  intros Hv Hm Hp.
  assert (Ho : length order = N).
  { apply Permutation_length in Hp. now rewrite length_seq in Hp. }
  unfold HW2.reorder. cbn [fst snd].
  split; [unfold np.take; now rewrite length_map|].
  destruct vecs0 as [|row0 rest].
  - simpl in Hm. subst N. destruct order; [|simpl in Ho; lia].
    split; [cbn; exact Hm|]. intros row Hin. cbn in Hin. contradiction.
  - split.
    + rewrite length_map, length_transpose_take_cols by discriminate.
      exact Ho.
    + intros row Hin. apply in_map_iff in Hin. destruct Hin as (r & <- & Hr).
      rewrite length_map. unfold np.transpose in Hr.
      apply in_map_iff in Hr. destruct Hr as (j & <- & _).
      unfold np.col, np.take_cols. now rewrite !length_map.
Qed.

Section Solved.

Variable lib : np.routines.
Hypothesis eig_ok : eig_shapes lib.
Hypothesis argsort_ok : argsort_permutes lib.

(** What the reordering returns for the matrix [H] of a grid of N
    points: N energies and N wave functions of N entries. *)
Lemma solved_shape (N : nat) (t a : R) (eps : vector) :
  length eps = N ->
  let sol := np.linalg_eig lib (HW2.H N t eps) in
  let r := HW2.reorder a (np.argsort lib (fst sol)) (fst sol) (snd sol) in
  length (fst r) = N /\ length (snd r) = N /\
  forall row, In row (snd r) -> length row = N.
Proof.
  intros He sol r.
  destruct (@eig_ok (HW2.H N t eps) N (length_H N t eps) (@rows_of_H N t eps He))
    as (Hv & Hm & _).
  apply reorder_shape; [exact Hv|exact Hm|].
  rewrite <- Hv. apply argsort_ok.
Qed.

Lemma cell_solve_returns (V : vector -> vector) (N : nat) (L eta m q : R) :
  (2 <= N)%nat -> length (V (HW2.X N L)) = N ->
  let a := L / INR (N - 1) in
  let t := HW2.t eta m a in
  let H := HW2.H N t (HW2.eps t q (V (HW2.X N L))) in
  let sol := np.linalg_eig lib H in
  let r := HW2.reorder a (np.argsort lib (fst sol)) (fst sol) (snd sol) in
  returns (HW2.cell_solve lib V N L eta m q)
          (HW2.X N L, a, H, fst r, snd r).
Proof.
  intros HN HV a t H sol r w. unfold HW2.cell_solve, bind.
  rewrite (a_is_the_step L w HN). fold a. fold t.
  unfold HW2.build_H. rewrite length_eps, HV, Nat.eqb_refl.
  unfold ret at 1. fold H. fold sol.
  destruct sol as [vals vecs] eqn:Es. cbn [fst snd] in r.
  unfold r. now destruct (HW2.reorder a (np.argsort lib vals) vals vecs).
Qed.

End Solved.

Lemma cell_normalize_completes (coeff : cvector) :
  exists r : cvector * float32.t,
    returns (HW2.cell_normalize coeff) r /\ length (fst r) = length coeff.
Proof.
  destruct (float32.positive (HW2.norm_float32 coeff)) eqn:Hn.
  - exists (HW2.divide_by_sqrt_float32 coeff (HW2.norm_float32 coeff),
            HW2.norm_float32 coeff).
    split; [|apply length_map].
    intros w. now rewrite (@cell_normalize_ok coeff w Hn).
  - exists (coeff, HW2.norm_float32 coeff). split; [|reflexivity].
    intros w. now rewrite (@cell_normalize_zero coeff w Hn).
Qed.

Lemma animation_frames_completes (frames : nat) (eta : R) (X : vector)
      (coeff : cvector) (psi : cmatrix) (E : vector) (timestep : complex)
      (n : nat) :
  length coeff = length psi -> length psi = length E ->
  completes (HW2.animation_frames
               frames eta X
               (HW2.evolve coeff psi E timestep (Some (Z.of_nat n)))).
Proof.
  intros H1 H2 w.
  destruct (@frames_fresh eta X coeff psi E timestep H1 H2 n frames w)
    as [g' Hg].
  exists g'. now rewrite Hg.
Qed.

Lemma ncols_rows (A : Type) (M : list (list A)) (n : nat) :
  M <> [] -> (forall row, In row M -> length row = n) -> np.ncols M = n.
Proof.
  destruct M as [|row M]; [congruence|]. intros _ Hrows.
  apply Hrows. now left.
Qed.

Lemma length_Tunnelling_V (w : R) (x : vector) :
  length (HW2.Tunnelling.V w x) = length x.
Proof. rewrite Tunnelling_V_elementwise. apply length_map. Qed.

Lemma length_Superposition_V (x : vector) :
  length (HW2.Superposition.V x) = length x.
Proof. unfold HW2.Superposition.V. apply length_map. Qed.

End WholeNotebook.

Section NotebookRuns.

Variable lib : np.routines.
Hypothesis eig_ok : eig_shapes lib.
Hypothesis argsort_ok : argsort_permutes lib.

Lemma cell_superposition_returns (cutoff : nat)
      (assignments : list (nat * complex)) (vals : vector) (vecs : matrix) :
  Forall (fun kz => (fst kz < cutoff)%nat) assignments ->
  exists coeff,
    returns (HW2.cell_superposition cutoff assignments vals vecs)
            (map (map RtoC) (firstn cutoff vecs), firstn cutoff vals, coeff) /\
    length coeff = cutoff.
Proof.
  intros Hall.
  exists (fold_left (fun c kz => update c (fst kz) (snd kz))
                    assignments (repeat C0 cutoff)).
  split.
  - intros w.
    destruct (@assign_all_runs assignments (repeat C0 cutoff) w)
      as (Hrun & _ & _).
    { now rewrite repeat_length. }
    unfold HW2.cell_superposition. cbv zeta. unfold bind at 1.
    rewrite Hrun. reflexivity.
  - destruct (@assign_all_runs assignments (repeat C0 cutoff) empty_world)
      as (_ & Hlen & _).
    { now rewrite repeat_length. }
    now rewrite Hlen, repeat_length.
Qed.

Lemma notebook_returns (frames : nat) : returns (HW2.notebook lib frames) tt.
Proof.
  unfold HW2.notebook.
  eapply returns_bind; [apply cell_imports_returns|cbv beta].
  eapply returns_bind; [apply returns_ret|cbv beta iota zeta].
  eapply returns_bind; [apply cell_grid_returns; lia|cbv beta iota zeta].
  set (X := HW2.X 300 100).
  set (a := 100 / INR (300 - 1)).
  set (t := HW2.t 1 1 a).
  set (V := HW2.Tunnelling.V 30).
  set (eps := HW2.eps t 1 (V X)).
  assert (HX : length X = 300%nat) by apply length_X.
  assert (HV : length (V X) = length X) by apply length_Tunnelling_V.
  assert (He : length eps = 300%nat)
    by (unfold eps; now rewrite length_eps, HV).
  eapply returns_bind; [now apply cell_plot_potential_returns|cbv beta].
  eapply returns_bind; [now apply cell_H_returns|cbv beta].
  eapply returns_bind; [apply returns_ret|cbv beta].
  pose proof (@solved_shape lib eig_ok argsort_ok 300 t a eps He) as Hshape.
  cbv zeta in Hshape.
  destruct (np.linalg_eig lib (HW2.H 300 t eps)) as [vals0 vecs0].
  cbn [fst snd] in Hshape.
  eapply returns_bind; [apply cell_order_returns|cbv beta iota].
  set (vals := fst (HW2.reorder a (np.argsort lib vals0) vals0 vecs0)) in *.
  set (vecs := snd (HW2.reorder a (np.argsort lib vals0) vals0 vecs0)) in *.
  destruct Hshape as (Hvals & Hvecs & Hrows).
  assert (Hrows' : forall row, In row vecs -> length row = length X)
    by (intros row Hin; rewrite HX; now apply Hrows).
  eapply returns_bind.
  { apply cell_lowest_returns; [exact HV|lia|lia|exact Hrows']. }
  cbv beta.
  eapply returns_bind; [now apply cell_eigenfunctions_returns|cbv beta].
  eapply returns_bind; [apply returns_ret|cbv beta].
  assert (Hp : forall row, In row (HW2.p vecs) -> length row = length X).
  { intros row Hin. unfold HW2.p in Hin. apply in_map_iff in Hin.
    destruct Hin as (r & <- & Hr). rewrite length_map. now apply Hrows'. }
  eapply returns_bind; [now apply cell_distributions_returns|cbv beta].
  eapply returns_bind.
  { apply cell_barrier_returns.
    - intros row Hin. rewrite HV. now apply Hp.
    - lia.
    - unfold HW2.p. rewrite length_map. lia. }
  cbv beta.
  eapply returns_bind; [apply cell_printoptions_returns|cbv beta].
  clear dependent vecs. clear dependent vals. clear vals0 vecs0.
  clear HX HV He. clear eps V t a X.
  eapply returns_bind.
  { apply (@cell_solve_returns lib HW2.Superposition.V 200 100 1 1 1);
      [lia|]. rewrite length_Superposition_V. apply length_X. }
  cbv beta iota zeta.
  set (X := HW2.X 200 100).
  set (a := 100 / INR (200 - 1)).
  set (t := HW2.t 1 1 a).
  set (eps := HW2.eps t 1 (HW2.Superposition.V X)).
  assert (HX : length X = 200%nat) by apply length_X.
  assert (HV : length (HW2.Superposition.V X) = length X)
    by apply length_Superposition_V.
  assert (He : length eps = 200%nat)
    by (unfold eps; now rewrite length_eps, HV).
  pose proof (@solved_shape lib eig_ok argsort_ok 200 t a eps He) as Hshape.
  cbv zeta in Hshape.
  set (sol := np.linalg_eig lib (HW2.H 200 t eps)) in *.
  set (vals := fst (HW2.reorder a (np.argsort lib (fst sol)) (fst sol) (snd sol))) in *.
  set (vecs := snd (HW2.reorder a (np.argsort lib (fst sol)) (fst sol) (snd sol))) in *.
  destruct Hshape as (Hvals & Hvecs & Hrows).
  eapply returns_bind; [now apply cell_plot_potential_returns|cbv beta].
  destruct (@cell_superposition_returns
              20 [(4%nat, RtoC 1); (0%nat, Ci); (3%nat, RtoC (-2.5))]
              vals vecs)
    as (coeff & Hsup & Hcoeff).
  { repeat constructor; cbn [fst]; lia. }
  eapply returns_bind; [exact Hsup|cbv beta iota].
  destruct (cell_normalize_completes coeff) as ([coeff' norm] & Hnorm & Hlen).
  cbn [fst] in Hlen.
  eapply returns_bind; [exact Hnorm|cbv beta iota].
  eapply returns_bind; [apply returns_ret|cbv beta].
  set (psi := map (map RtoC) (firstn 20 vecs)).
  set (E := firstn 20 vals).
  assert (Hpsi : length psi = 20%nat).
  { unfold psi. rewrite length_map, length_firstn, Hvecs. reflexivity. }
  assert (HE : length E = 20%nat).
  { unfold E. rewrite length_firstn, Hvals. reflexivity. }
  assert (Hcols : np.ncols psi = 200%nat).
  { apply ncols_rows.
    - intros Hnil. rewrite Hnil in Hpsi. discriminate Hpsi.
    - intros row Hin. unfold psi in Hin. apply in_map_iff in Hin.
      destruct Hin as (r & <- & Hr). rewrite length_map.
      apply Hrows. now apply in_firstn in Hr. }
  eapply returns_bind.
  { apply cell_animation_returns.
    - now rewrite Hlen, Hcoeff, Hpsi.
    - now rewrite HX, Hcols.
    - intros Hnil. rewrite Hnil in HX. discriminate HX. }
  cbv beta iota.
  apply completes_bind; [|intros g; apply returns_ret].
  apply (@animation_frames_completes frames 1 X coeff' psi E (RtoC 1) 300).
  - now rewrite Hlen, Hcoeff, Hpsi.
  - now rewrite Hpsi, HE.
Qed.

End NotebookRuns.

Section ShapeLib.

Lemma shape_lib_eig_shapes : eig_shapes shape_lib.
Proof.
  intros H N HN Hrows. cbn [shape_lib np.linalg_eig fst snd].
  rewrite length_map, length_seq, length_eye, HN.
  repeat split. intros row Hin. unfold np.eye in Hin.
  apply in_map_iff in Hin. destruct Hin as (i & <- & _).
  now rewrite length_map, length_seq.
Qed.

Lemma shape_lib_argsort_permutes : argsort_permutes shape_lib.
Proof. intros vals. apply Permutation_refl. Qed.

End ShapeLib.

(** HW2 run top to bottom, every cell once with the literals of the file,
    and the animation shown for any number of frames, raises no
    exception: it needs only that [np.linalg.eig] returns N eigenvalues and
    an N by N array for an N by N array, and that [np.argsort] returns a
    permutation of the indices.  (The grids have 300 and 200 points, the
    tables and plots use the first 8 and 20 levels, the coefficients set
    are 0, 3 and 4, and the arrays handed to every plot have the length of
    the grid.) *)
Theorem HW2_runs_to_the_end (lib : np.routines) (frames : nat) (w : world) :
  eig_shapes lib -> argsort_permutes lib ->
  fst (HW2.notebook lib frames w) = Normal tt.
Proof.
  intros Heig Hsort. exact (@notebook_returns lib Heig Hsort frames w).
Qed.

Lemma HW2_runs_to_the_end_witness :
  fst (HW2.notebook shape_lib 3 empty_world) = Normal tt.
Proof.
  exact (@HW2_runs_to_the_end shape_lib 3 empty_world
           shape_lib_eig_shapes shape_lib_argsort_permutes).
Defined.

(* ===================================================================== *)
(** * Stationary states                                                   *)
(* ===================================================================== *)

Section Stationary.

Lemma Cadd_C0_l (z : complex) : Cadd C0 z = z.
Proof. destruct z as [x y]. unfold Cadd, C0. cbn [Re Im]. f_equal; ring. Qed.

Lemma Cadd_C0_r (z : complex) : Cadd z C0 = z.
Proof. destruct z as [x y]. unfold Cadd, C0. cbn [Re Im]. f_equal; ring. Qed.

Lemma Cmul_C0_l (z : complex) : Cmul C0 z = C0.
Proof. unfold Cmul, C0. cbn [Re Im]. f_equal; ring. Qed.

Lemma csum_zeros (c col : cvector) :
  (forall i, nth i c C0 = C0) -> np.csum (np.map2 Cmul c col) = C0.
Proof.
  revert col. induction c as [|z c IH]; intros [|x col] Hz; try reflexivity.
  cbn [np.map2]. change (np.csum (?y :: ?l)) with (Cadd y (np.csum l)).
  rewrite IH by (intros i; exact (Hz (S i))).
  rewrite (Hz 0%nat : z = C0), Cmul_C0_l. apply Cadd_C0_l.
Qed.

(** A sum over the levels with only level [m] occupied is its one term. *)
Lemma csum_single (m : nat) :
  forall (c col : cvector),
    length c = length col ->
    (forall i, i <> m -> nth i c C0 = C0) ->
    np.csum (np.map2 Cmul c col) = Cmul (nth m c C0) (nth m col C0).
Proof.
  induction m as [|m IH]; intros [|z c] [|x col] Hl Hz; try discriminate Hl;
    cbn [np.map2 nth];
    try (unfold np.csum; simpl; now rewrite Cmul_C0_l).
  - change (np.csum (?y :: ?l)) with (Cadd y (np.csum l)).
    rewrite csum_zeros by (intros i; apply (Hz (S i)); discriminate).
    apply Cadd_C0_r.
  - change (np.csum (?y :: ?l)) with (Cadd y (np.csum l)).
    rewrite (Hz 0%nat ltac:(discriminate) : z = C0), Cmul_C0_l, Cadd_C0_l.
    apply IH; [simpl in Hl; lia|].
    intros i Hi. apply (Hz (S i)). lia.
Qed.

Lemma nth_map2_Cmul (c ph : cvector) (i : nat) :
  length c = length ph ->
  nth i (np.map2 Cmul c ph) C0 = Cmul (nth i c C0) (nth i ph C0).
Proof.
  intros Hl. destruct (Nat.lt_ge_cases i (length c)) as [Hi|Hi].
  - apply nth_map2; lia.
  - rewrite !nth_overflow by (rewrite ?length_map2; lia).
    now rewrite Cmul_C0_l.
Qed.

Lemma length_col (A : Type) (d : A) (j : nat) (M : list (list A)) :
  length (np.col d j M) = length M.
Proof. unfold np.col. apply length_map. Qed.

(** With one level occupied the density does not depend on the phases. *)
Lemma density_single (m : nat) (coeff ph : cvector) (psi : cmatrix) :
  length coeff = length psi -> length coeff = length ph ->
  (forall i, i <> m -> nth i coeff C0 = C0) ->
  np.cabs_sq (nth m ph C0) = 1 ->
  HW2.p_wave (np.cvecmat (np.map2 Cmul coeff ph) psi) =
    HW2.p_wave (np.cvecmat coeff psi).
Proof.
  intros Hpsi Hph Hz Hone. unfold HW2.p_wave, np.cvecmat.
  rewrite !map_map. apply map_ext. intros j.
  rewrite (@csum_single m (np.map2 Cmul coeff ph))
    by (rewrite ?length_map2, ?length_col; try lia;
        intros i Hi; rewrite nth_map2_Cmul, (Hz i Hi) by exact Hph;
        apply Cmul_C0_l).
  rewrite (@csum_single m coeff) by (rewrite ?length_col; assumption).
  rewrite nth_map2_Cmul by exact Hph.
  rewrite !cabs_sq_Cmul, Hone. ring.
Qed.

Lemma nth_phase (eta : R) (E : vector) (t : complex) (m : nat) :
  (m < length E)%nat -> Im t = 0 ->
  np.cabs_sq
    (nth m (map (fun e => Cexp (Cdivr (Cmul (Cscale (Copp Ci) e) t) eta)) E)
         C0) = 1.
Proof.
  intros Hm Ht. rewrite (nth_map_in _ _ 0 C0) by exact Hm.
  apply cabs_sq_Cexp. unfold Cdivr, Cmul, Cscale, Copp, Ci. cbn [Re Im].
  rewrite Ht. unfold Rdiv. ring.
Qed.

End Stationary.

(** An energy eigenstate is stationary: for [eta <> 0] and
    [len(coeff) = len(psi) = len(E)], when only one level [m] has a
    non-zero coefficient and the time step is real, the density [|wave|^2]
    of every pair the generator yields is the density of the initial wave
    [coeff @ psi]; the animation shows a phase that turns and a density
    that stands still. *)
Theorem eigenstate_is_stationary
        (eta : R) (coeff : cvector) (psi : cmatrix) (E : vector)
        (timestep : complex) (m n fuel : nat) :
  eta <> 0 ->
  length coeff = length psi ->
  length psi = length E ->
  (m < length coeff)%nat ->
  (forall i, i <> m -> nth i coeff C0 = C0) ->
  Im timestep = 0 ->
  (n < fuel)%nat ->
  forall k, (k < n)%nat ->
    HW2.p_wave
      (snd (nth k (fst (HW2.Evolve.collect
                          eta fuel
                          (HW2.evolve coeff psi E timestep
                                      (Some (Z.of_nat n)))))
                (C0, []))) =
      HW2.p_wave (np.cvecmat coeff psi).
Proof.
  intros _ H1 H2 Hm Hz Ht Hfuel k Hk.
  rewrite (@collect_all eta coeff psi E timestep H1 H2 n fuel Hfuel).
  cbn [fst]. rewrite (nth_map_seq _ _ Hk). unfold kth_pair. cbn [snd].
  apply (@density_single m); [exact H1|rewrite length_map; lia|exact Hz|].
  apply nth_phase; [lia|].
  unfold Cscale. cbn [Im]. rewrite Ht. ring.
Qed.

Lemma eigenstate_is_stationary_witness :
  HW2.p_wave
    (snd (nth 1 (fst (HW2.Evolve.collect
                        1 3
                        (HW2.evolve [C0; Ci] [[RtoC 1]; [RtoC 2]] [2; 3]
                                    (RtoC 5) (Some (Z.of_nat 2))))) (C0, []))) =
    HW2.p_wave (np.cvecmat [C0; Ci] [[RtoC 1]; [RtoC 2]]).
Proof.
  refine (@eigenstate_is_stationary
            1 [C0; Ci] [[RtoC 1]; [RtoC 2]] [2; 3] (RtoC 5) 1 2 3
            R1_neq_R0 eq_refl eq_refl (le_n 2) _ eq_refl (le_n 3) 1%nat
            (le_n 2)).
  intros [|[|i]] Hi; [reflexivity|congruence|now destruct i].
Defined.

(* ===================================================================== *)
(** * The default time step                                               *)
(* ===================================================================== *)

Section MeanEnergy.

Lemma csum_cons (z : complex) (l : cvector) :
  np.csum (z :: l) = Cadd z (np.csum l).
Proof. reflexivity. Qed.

Lemma av_E_value (S : Type) (coeff : cvector) (E : vector) (s : S) :
  length coeff = length E ->
  HW2.av_E coeff E s =
    (Normal (np.csum (np.map2 (fun c e => Cscale (Cmul c c) e) coeff E)), s).
Proof. intros Hl. unfold HW2.av_E. now rewrite Hl, Nat.eqb_refl. Qed.

Lemma av_E_real (coeff : cvector) (E : vector) :
  Forall (fun c => Im c = 0) coeff ->
  np.csum (np.map2 (fun c e => Cscale (Cmul c c) e) coeff E) =
    RtoC (np.dot (map np.cabs_sq coeff) E).
Proof.
  intros Hall. revert E. induction Hall as [|c coeff Hc _ IH]; intros [|e E];
    cbn [map np.map2]; rewrite ?dot_nil_r; try reflexivity.
  rewrite csum_cons, IH, dot_cons, cabs_sq_eq.
  unfold Cadd, Cscale, Cmul, RtoC. cbn [Re Im]. rewrite Hc. f_equal; ring.
Qed.

Lemma av_E_imaginary (coeff : cvector) (E : vector) :
  Forall (fun c => Re c = 0) coeff ->
  np.csum (np.map2 (fun c e => Cscale (Cmul c c) e) coeff E) =
    RtoC (- np.dot (map np.cabs_sq coeff) E).
Proof.
  intros Hall. revert E. induction Hall as [|c coeff Hc _ IH]; intros [|e E];
    cbn [map np.map2]; rewrite ?dot_nil_r;
    try (unfold np.csum, np.dot, np.sum, RtoC, C0; simpl; f_equal; ring).
  rewrite csum_cons, IH, dot_cons, cabs_sq_eq.
  unfold Cadd, Cscale, Cmul, RtoC. cbn [Re Im]. rewrite Hc. f_equal; ring.
Qed.

End MeanEnergy.

(** The energy [av_E = (coeff)**2 @ E] behind the default time step is
    the mean energy [sum |coeff[m]|^2 * E[m]] only for real coefficients:
    it squares the coefficients without taking the modulus, so for purely
    imaginary coefficients it is minus the mean energy.  With arrays of
    different lengths the product raises ValueError. *)
Theorem av_E_squares_without_modulus
        (coeff : cvector) (E : vector) (w : world) :
  (length coeff = length E ->
   (Forall (fun c => Im c = 0) coeff ->
    HW2.av_E coeff E w =
      (Normal (RtoC (np.dot (map np.cabs_sq coeff) E)), w)) /\
   (Forall (fun c => Re c = 0) coeff ->
    HW2.av_E coeff E w =
      (Normal (RtoC (- np.dot (map np.cabs_sq coeff) E)), w))) /\
  (length coeff <> length E -> HW2.av_E coeff E w = (Raised ValueError, w)).
Proof.
  split.
  - intros Hl. rewrite (av_E_value coeff E w Hl). split; intros Hall.
    + now rewrite av_E_real.
    + now rewrite av_E_imaginary.
  - intros Hl. unfold HW2.av_E.
    destruct (Nat.eqb_spec (length coeff) (length E)); [contradiction|reflexivity].
Qed.

Lemma av_E_squares_without_modulus_witness :
  HW2.av_E [Ci] [2] empty_world =
    (Normal (RtoC (- np.dot (map np.cabs_sq [Ci]) [2])), empty_world).
Proof.
  apply (proj1 (@av_E_squares_without_modulus [Ci] [2] empty_world) eq_refl).
  repeat constructor.
Defined.

(* ===================================================================== *)
(** * Orthogonal eigenfunctions and the total probability                 *)
(* ===================================================================== *)

Section Sums.

Lemma sum_cons (x : R) (l : vector) : np.sum (x :: l) = x + np.sum l.
Proof. reflexivity. Qed.

Lemma sum_app (l1 l2 : vector) : np.sum (l1 ++ l2) = np.sum l1 + np.sum l2.
Proof.
  induction l1 as [|x l1 IH]; cbn [app]; rewrite ?sum_cons.
  - unfold np.sum at 2. simpl. ring.
  - rewrite IH. ring.
Qed.

Lemma sum_map_plus (A : Type) (f g : A -> R) (l : list A) :
  np.sum (map (fun i => f i + g i) l) = np.sum (map f l) + np.sum (map g l).
Proof.
  induction l as [|i l IH]; cbn [map]; rewrite ?sum_cons.
  - unfold np.sum. simpl. ring.
  - rewrite IH. ring.
Qed.

Lemma sum_map_scale (A : Type) (c : R) (f : A -> R) (l : list A) :
  np.sum (map (fun i => c * f i) l) = c * np.sum (map f l).
Proof.
  induction l as [|i l IH]; cbn [map]; rewrite ?sum_cons.
  - unfold np.sum. simpl. ring.
  - rewrite IH. ring.
Qed.

Lemma sum_map_zero (A : Type) (l : list A) :
  np.sum (map (fun _ => 0) l) = 0.
Proof.
  induction l as [|i l IH]; cbn [map]; rewrite ?sum_cons; [reflexivity|].
  rewrite IH. ring.
Qed.

Lemma sum_map_ext (N : nat) (f g : nat -> R) :
  (forall i, (i < N)%nat -> f i = g i) ->
  np.sum (map f (seq 0 N)) = np.sum (map g (seq 0 N)).
Proof.
  intros Hfg. f_equal. apply map_ext_in. intros i Hi.
  apply Hfg. apply in_seq in Hi. lia.
Qed.

Lemma sum_first (N : nat) (g : nat -> R) :
  np.sum (map g (seq 0 (S N))) =
    g 0%nat + np.sum (map (fun i => g (S i)) (seq 0 N)).
Proof.
  cbn [seq map]. rewrite sum_cons, <- seq_shift, map_map. reflexivity.
Qed.

Lemma sum_last (N : nat) (g : nat -> R) :
  np.sum (map g (seq 0 (S N))) = np.sum (map g (seq 0 N)) + g N.
Proof.
  rewrite seq_S, map_app, sum_app. cbn [map Nat.add].
  f_equal. unfold np.sum. simpl. ring.
Qed.

Lemma dot_as_sum (u v : vector) :
  length u = length v ->
  np.dot u v =
    np.sum (map (fun i => nth i u 0 * nth i v 0) (seq 0 (length u))).
Proof.
  revert v. induction u as [|x u IH]; intros [|y v] Hl; try discriminate Hl;
    [reflexivity|].
  cbn [length]. rewrite sum_first, dot_cons. cbn [nth].
  rewrite IH by (simpl in Hl; lia). reflexivity.
Qed.

Lemma dot_comm (u v : vector) : np.dot u v = np.dot v u.
Proof.
  revert v. induction u as [|x u IH]; intros [|y v]; try reflexivity.
  rewrite !dot_cons, IH. ring.
Qed.

End Sums.

Section SelfAdjoint.

Variables (N : nat) (t : R) (eps : vector).
Hypothesis len_eps : length eps = N.

(** Moving the index by one from one factor to the other. *)
Lemma neighbour_shift (u v : vector) :
  length u = N -> length v = N ->
  np.sum (map (fun i => left_neighbour u i * nth i v 0) (seq 0 N)) =
    np.sum (map (fun i => nth i u 0 * nth (i + 1) v 0) (seq 0 N)).
Proof.
  intros Hu Hv. destruct N as [|N']; [reflexivity|].
  rewrite sum_first, sum_last. cbn [left_neighbour].
  rewrite (@nth_overflow _ v (N' + 1)) by lia.
  rewrite (sum_map_ext _ (fun i => nth i u 0 * nth (i + 1) v 0)).
  - ring.
  - intros i _. now rewrite Nat.add_1_r.
Qed.

Lemma H_form (u v : vector) :
  length u = N -> length v = N ->
  np.dot (np.matvec (HW2.H N t eps) u) v =
    t * np.sum (map (fun i => nth i u 0 * nth (i + 1) v 0) (seq 0 N))
    + np.sum (map (fun i => nth i eps 0 * (nth i u 0 * nth i v 0)) (seq 0 N))
    + t * np.sum (map (fun i => nth i v 0 * nth (i + 1) u 0) (seq 0 N)).
Proof.
  intros Hu Hv.
  assert (Hl : length (np.matvec (HW2.H N t eps) u) = N)
    by (unfold np.matvec; now rewrite length_map, length_H).
  rewrite dot_as_sum by lia. rewrite Hl.
  rewrite (sum_map_ext _
             (fun i => t * (left_neighbour u i * nth i v 0)
                       + nth i eps 0 * (nth i u 0 * nth i v 0)
                       + t * (nth i v 0 * nth (i + 1) u 0))).
  - rewrite !sum_map_plus, !sum_map_scale.
    rewrite (@neighbour_shift u v Hu Hv). reflexivity.
  - intros i Hi. rewrite (@H_matvec_entry N t eps u i len_eps Hu Hi). ring.
Qed.

(** [H] is self-adjoint: [(H u) . v = u . (H v)]. *)
Lemma H_self_adjoint (u v : vector) :
  length u = N -> length v = N ->
  np.dot (np.matvec (HW2.H N t eps) u) v =
    np.dot u (np.matvec (HW2.H N t eps) v).
Proof.
  intros Hu Hv. rewrite (dot_comm u).
  rewrite (@H_form u v Hu Hv), (@H_form v u Hv Hu).
  rewrite (sum_map_ext _
             (fun i => nth i eps 0 * (nth i v 0 * nth i u 0))
             (fun i _ => ltac:(ring)
                         : nth i eps 0 * (nth i u 0 * nth i v 0) =
                           nth i eps 0 * (nth i v 0 * nth i u 0))).
  ring.
Qed.

End SelfAdjoint.

(** Eigenfunctions of [H] for different energies are orthogonal: for
    eigenpairs [(lam1, u)] and [(lam2, v)] of the matrix [H] of the
    notebook with [lam1 <> lam2], [u . v = 0]. *)
Theorem eigenfunctions_of_different_energies_are_orthogonal
        (N : nat) (t : R) (eps u v : vector) (lam1 lam2 : R) :
  length eps = N -> length u = N -> length v = N ->
  eigenpair (HW2.H N t eps) lam1 u ->
  eigenpair (HW2.H N t eps) lam2 v ->
  lam1 <> lam2 ->
  np.dot u v = 0.
Proof.
  intros He Hu Hv H1 H2 Hne.
  pose proof (@H_self_adjoint N t eps He u v Hu Hv) as Hsa.
  unfold eigenpair in H1, H2. rewrite H1, H2 in Hsa.
  unfold np.smul in Hsa.
  rewrite (dot_scale_l lam1 u v) in Hsa.
  rewrite (dot_comm u (map (Rmult lam2) v)) in Hsa.
  rewrite (dot_scale_l lam2 v u), (dot_comm v u) in Hsa.
  assert (Hz : (lam1 - lam2) * np.dot u v = 0) by lra.
  apply Rmult_integral in Hz. destruct Hz as [Hz|Hz]; [lra|exact Hz].
Qed.

Lemma eigenfunctions_of_different_energies_are_orthogonal_witness :
  np.dot [1; 1] [1; -1] = 0.
Proof.
  refine (@eigenfunctions_of_different_energies_are_orthogonal
            2 (-1) [2; 2] [1; 1] [1; -1] 1 3 eq_refl eq_refl eq_refl _ _ _).
  - unfold eigenpair, HW2.H, np.matvec, np.dot, np.smul, np.add2, np.smul2,
      np.bmul, np.eye, np.sum. cbn.
    repeat (apply f_equal2; [lra|]). reflexivity.
  - unfold eigenpair, HW2.H, np.matvec, np.dot, np.smul, np.add2, np.smul2,
      np.bmul, np.eye, np.sum. cbn.
    repeat (apply f_equal2; [lra|]). reflexivity.
  - lra.
Defined.

Section TotalProbability.

Variable N : nat.

Lemma combination_cons (x0 : R) (x : vector) (r0 : vector) (rows : matrix)
      (j : nat) :
  combination (x0 :: x) (r0 :: rows) j =
    x0 * nth j r0 0 + combination x rows j.
Proof. reflexivity. Qed.

Lemma combination_nil_r (x : vector) (j : nat) : combination x [] j = 0.
Proof. destruct x; reflexivity. Qed.

Lemma combination_nil_l (rows : matrix) (j : nat) : combination [] rows j = 0.
Proof. reflexivity. Qed.

Lemma dot_rows (r r' : vector) :
  length r = N -> length r' = N ->
  np.sum (map (fun j => nth j r 0 * nth j r' 0) (seq 0 N)) = np.dot r r'.
Proof. intros Hr Hr'. rewrite dot_as_sum by lia. now rewrite Hr. Qed.

(** A row orthogonal to all of [rows] is orthogonal to their
    combinations. *)
Lemma cross_term (r0 : vector) (rows : matrix) :
  length r0 = N ->
  (forall row, In row rows -> length row = N) ->
  Forall (fun r' => np.dot r0 r' = 0) rows ->
  forall x : vector,
    np.sum (map (fun j => nth j r0 0 * combination x rows j) (seq 0 N)) = 0.
Proof.
  intros Hr0 Hrows Horth. induction Horth as [|r1 rows H01 _ IH]; intros x.
  - rewrite (sum_map_ext _ (fun _ => 0)); [apply sum_map_zero|].
    intros j _. rewrite combination_nil_r. ring.
  - destruct x as [|x1 x].
    + rewrite (sum_map_ext _ (fun _ => 0)); [apply sum_map_zero|].
      intros j _. rewrite combination_nil_l. ring.
    + rewrite (sum_map_ext _
                 (fun j => x1 * (nth j r0 0 * nth j r1 0)
                           + nth j r0 0 * combination x rows j)).
      * rewrite sum_map_plus, sum_map_scale.
        rewrite dot_rows, H01 by (try exact Hr0; apply Hrows; now left).
        rewrite IH by (intros row Hin; apply Hrows; now right). ring.
      * intros j _. rewrite combination_cons. ring.
Qed.

(** The squared length of a combination of orthonormal rows. *)
Lemma gram (s : R) (rows : matrix) :
  (forall row, In row rows -> length row = N) ->
  orthonormal s rows ->
  forall x : vector,
    length x = length rows ->
    np.sum (map (fun j => combination x rows j * combination x rows j)
                (seq 0 N)) =
      s * np.sum (map (fun xm => xm * xm) x).
Proof.
  induction rows as [|r0 rows IH]; intros Hrows Horth x Hx.
  - destruct x; [|discriminate Hx].
    rewrite (sum_map_ext _ (fun _ => 0)); [rewrite sum_map_zero|].
    + unfold np.sum. simpl. ring.
    + intros j _. rewrite combination_nil_l. ring.
  - destruct x as [|x0 x]; [discriminate Hx|].
    destruct Horth as (Hs & Hcross & Hrest).
    assert (Hr0 : length r0 = N) by (apply Hrows; now left).
    assert (Hrows' : forall row, In row rows -> length row = N)
      by (intros row Hin; apply Hrows; now right).
    rewrite (sum_map_ext _
               (fun j => (x0 * x0) * (nth j r0 0 * nth j r0 0)
                         + (2 * x0) * (nth j r0 0 * combination x rows j)
                         + combination x rows j * combination x rows j)).
    + rewrite !sum_map_plus, !sum_map_scale.
      rewrite (@dot_rows r0 r0 Hr0 Hr0), Hs.
      rewrite (@cross_term r0 rows Hr0 Hrows' Hcross x).
      rewrite (IH Hrows' Hrest x ltac:(simpl in Hx; lia)).
      cbn [map]. rewrite sum_cons. ring.
    + intros j _. rewrite combination_cons. ring.
Qed.

Lemma col_of_real (rows : matrix) (j : nat) :
  np.col C0 j (map (map RtoC) rows) =
    map (fun row => RtoC (nth j row 0)) rows.
Proof.
  unfold np.col. rewrite map_map. apply map_ext. intros row.
  change C0 with (RtoC 0). apply map_nth.
Qed.

Lemma wave_parts (c : cvector) (rows : matrix) (j : nat) :
  Re (np.csum (np.map2 Cmul c (map (fun row => RtoC (nth j row 0)) rows))) =
    combination (map Re c) rows j /\
  Im (np.csum (np.map2 Cmul c (map (fun row => RtoC (nth j row 0)) rows))) =
    combination (map Im c) rows j.
Proof.
  revert rows. induction c as [|z c IH]; intros [|r rows]; cbn [map np.map2];
    try (split; reflexivity).
  rewrite csum_cons, !combination_cons. destruct (IH rows) as [HRe HIm].
  rewrite <- HRe, <- HIm.
  set (rest := np.csum
                 (np.map2 Cmul c (map (fun row => RtoC (nth j row 0)) rows))).
  unfold Cadd, Cmul, RtoC. cbn [Re Im]. split; ring.
Qed.

Lemma norm_parts (c : cvector) :
  HW2.norm c =
    np.sum (map (fun x => x * x) (map Re c))
    + np.sum (map (fun y => y * y) (map Im c)).
Proof.
  induction c as [|z c IH].
  - unfold HW2.norm, np.sum. simpl. ring.
  - rewrite norm_cons, IH, cabs_sq_eq. cbn [map]. rewrite !sum_cons. ring.
Qed.

(** Parseval: the density of a combination of orthonormal real rows sums
    to [s] times the norm of the coefficients. *)
Lemma parseval (s : R) (rows : matrix) (c : cvector) :
  (forall row, In row rows -> length row = N) ->
  orthonormal s rows ->
  length c = length rows ->
  np.sum (HW2.p_wave (np.cvecmat c (map (map RtoC) rows))) = s * HW2.norm c.
Proof.
  intros Hrows Horth Hc.
  destruct rows as [|r0 rows'] eqn:Erows.
  - destruct c; [|discriminate Hc].
    unfold HW2.p_wave, np.cvecmat, HW2.norm, np.sum. simpl. ring.
  - rewrite <- Erows in *.
    assert (Hcols : np.ncols (map (map RtoC) rows) = N).
    { rewrite Erows. cbn [map np.ncols]. rewrite length_map.
      apply Hrows. rewrite Erows. now left. }
    unfold HW2.p_wave, np.cvecmat. rewrite Hcols, map_map.
    rewrite (sum_map_ext _
               (fun j => combination (map Re c) rows j
                         * combination (map Re c) rows j
                         + combination (map Im c) rows j
                           * combination (map Im c) rows j)).
    + rewrite sum_map_plus.
      rewrite !(@gram s rows Hrows Horth) by (rewrite length_map; exact Hc).
      rewrite norm_parts. ring.
    + intros j _. rewrite col_of_real, cabs_sq_eq.
      destruct (wave_parts c rows j) as [-> ->]. reflexivity.
Qed.

Lemma orthonormal_of_entries (s : R) (rows : matrix) :
  (forall i j, (i < length rows)%nat -> (j < length rows)%nat ->
               np.dot (nth i rows []) (nth j rows []) =
               if (i =? j)%nat then s else 0) ->
  orthonormal s rows.
Proof.
  induction rows as [|r rows IH]; intros Hent; cbn [orthonormal]; [exact I|].
  split; [|split].
  - apply (Hent 0%nat 0%nat); simpl; lia.
  - apply Forall_forall. intros r' Hin.
    destruct (In_nth _ _ [] Hin) as (j & Hj & <-).
    apply (Hent 0%nat (S j)); simpl; lia.
  - apply IH. intros i j Hi Hj.
    apply (Hent (S i) (S j)); simpl; lia.
Qed.

Lemma phases_have_modulus_1 (eta : R) (E : vector) (t : complex) :
  Im t = 0 ->
  Forall (fun z => np.cabs_sq z = 1)
         (map (fun e => Cexp (Cdivr (Cmul (Cscale (Copp Ci) e) t) eta)) E).
Proof.
  intros Ht. apply Forall_forall. intros z Hz. apply in_map_iff in Hz.
  destruct Hz as (e & <- & _). apply cabs_sq_Cexp.
  unfold Cdivr, Cmul, Cscale, Copp, Ci. cbn [Re Im]. rewrite Ht.
  unfold Rdiv. ring.
Qed.

End TotalProbability.

(** The total probability is conserved.  When the rows of [psi] are real
    wave functions on a grid of spacing [a] that are orthonormal,
    [a * (psi[i] . psi[j])] being 1 for [i = j] and 0 otherwise, [eta] is
    not 0, the time step is real and [len(coeff) = len(psi) = len(E)],
    then for every pair [(t, wave)] the generator yields the density
    [p = |wave|^2] of the frame sums to [a * p.sum() = sum |coeff[m]|^2],
    the same in every frame. *)
Theorem total_probability_is_conserved
        (eta a : R) (rows : matrix) (coeff : cvector) (E : vector)
        (timestep : complex) (N n fuel : nat) :
  eta <> 0 ->
  a <> 0 ->
  (forall row, In row rows -> length row = N) ->
  (forall i j, (i < length rows)%nat -> (j < length rows)%nat ->
               a * np.dot (nth i rows []) (nth j rows []) =
               if (i =? j)%nat then 1 else 0) ->
  length coeff = length rows ->
  length rows = length E ->
  Im timestep = 0 ->
  (n < fuel)%nat ->
  forall k, (k < n)%nat ->
    a * np.sum (HW2.p_wave
                  (snd (nth k (fst (HW2.Evolve.collect
                                      eta fuel
                                      (HW2.evolve coeff (map (map RtoC) rows)
                                                  E timestep
                                                  (Some (Z.of_nat n)))))
                            (C0, [])))) =
      HW2.norm coeff.
Proof.
  intros _ Ha Hrows Hent Hc HE Ht Hfuel k Hk.
  assert (Hpsi : length coeff = length (map (map RtoC) rows))
    by now rewrite length_map.
  assert (HpsiE : length (map (map RtoC) rows) = length E)
    by now rewrite length_map.
  rewrite (@collect_all eta coeff _ E timestep Hpsi HpsiE n fuel Hfuel).
  cbn [fst]. rewrite (nth_map_seq _ _ Hk). unfold kth_pair. cbn [snd].
  assert (Horth : orthonormal (1 / a) rows).
  { apply orthonormal_of_entries. intros i j Hi Hj.
    specialize (Hent i j Hi Hj). destruct (i =? j)%nat.
    - apply (Rmult_eq_reg_l a); [|exact Ha]. rewrite Hent. field. exact Ha.
    - apply (Rmult_eq_reg_l a); [|exact Ha]. rewrite Hent. ring. }
  rewrite (@parseval N (1 / a) rows _ Hrows Horth)
    by (rewrite length_map2, length_map; lia).
  rewrite norm_map2_phase.
  - field. exact Ha.
  - rewrite length_map. lia.
  - apply phases_have_modulus_1. unfold Cscale. cbn [Im]. rewrite Ht. ring.
Qed.

Lemma total_probability_is_conserved_witness :
  1 / 4 * np.sum (HW2.p_wave
                    (snd (nth 1 (fst (HW2.Evolve.collect
                                        1 3
                                        (HW2.evolve [Ci; RtoC 1]
                                                    (map (map RtoC)
                                                         [[2; 0]; [0; 2]])
                                                    [3; 4] (RtoC 5)
                                                    (Some (Z.of_nat 2)))))
                              (C0, [])))) =
    HW2.norm [Ci; RtoC 1].
Proof.
  refine (@total_probability_is_conserved
            1 (1 / 4) [[2; 0]; [0; 2]] [Ci; RtoC 1] [3; 4] (RtoC 5) 2 2 3
            R1_neq_R0 _ _ _ eq_refl eq_refl eq_refl (le_n 3) 1%nat (le_n 2)).
  - lra.
  - intros row [<-|[<-|[]]]; reflexivity.
  - intros [|[|i]] [|[|j]] Hi Hj; simpl in Hi, Hj; try lia;
      unfold np.dot, np.sum; simpl; lra.
Defined.

(* ===================================================================== *)
(** * The Hamiltonian and its eigenpairs                                  *)
(* ===================================================================== *)

Section EigenpairsOfH.

(** An eigenpair of [H], row by row. *)
Lemma eigenpair_by_rows (N : nat) (t lam : R) (eps v : vector) :
  length eps = N -> length v = N ->
  (forall i, (i < N)%nat ->
             t * left_neighbour v i + nth i eps 0 * nth i v 0
             + t * nth (i + 1) v 0 = lam * nth i v 0) ->
  eigenpair (HW2.H N t eps) lam v.
Proof.
  intros He Hv Hrows. unfold eigenpair. apply (nth_ext _ _ 0 0).
  - unfold np.matvec, np.smul. now rewrite !length_map, length_H.
  - unfold np.matvec at 1. rewrite length_map, length_H. intros i Hi.
    rewrite (@H_matvec_entry N t eps v i He Hv Hi), (Hrows i Hi).
    unfold np.smul. now rewrite (nth_map_in _ _ 0 0) by lia.
Qed.

Lemma spacing_positive (N : nat) (L : R) :
  (2 <= N)%nat -> 0 < L -> 0 < L / INR (N - 1).
Proof.
  intros HN HL. apply Rdiv_lt_0_compat; [exact HL|].
  apply lt_0_INR. lia.
Qed.

Lemma spacing_nonzero (N : nat) (L : R) :
  (2 <= N)%nat -> L <> 0 -> L / INR (N - 1) <> 0.
Proof.
  intros HN HL. unfold Rdiv. apply Rmult_integral_contrapositive.
  split; [exact HL|]. apply Rinv_neq_0_compat. apply not_0_INR. lia.
Qed.

End EigenpairsOfH.

(** C1.  For a grid of [N >= 2] points of length [L <> 0] (spacing
    [a = L/(N-1)], not 0), a mass [m <> 0] and a potential [V] applied
    entry by entry, the matrix [H] that the notebook builds is N by N; its
    entries at (i,i+1) and (i+1,i) are [t = -eta^2/(2*m*a^2)], its entry at
    (i,i) is [-2*t + q*V(x_i)], every other entry is 0; the cells hand
    exactly this [H] to [np.linalg.eig]; and, for [L > 0], when
    [np.linalg.eig] returns an eigen-decomposition of [H] and [np.argsort]
    a sorting order, the energies [vals] and wave functions [vecs] that
    the cells end with are N eigenpairs of this [H]: [vals] sorted, and
    [vecs[i]] the eigenvector of [vals[i]] divided by [sqrt a]. *)
Theorem discretized_hamiltonian
        (lib : np.routines) (V : R -> R) (N : nat) (L eta m q : R) (w : world) :
  (2 <= N)%nat -> L <> 0 -> m <> 0 ->
  let X := HW2.X N L in
  let a := L / INR (N - 1) in
  let t := - eta ^ 2 / (2 * m * a ^ 2) in
  let eps := HW2.eps t q (map V X) in
  let H := HW2.H N t eps in
  let eig := np.linalg_eig lib H in
  let order := np.argsort lib (fst eig) in
  let vals := fst (HW2.reorder a order (fst eig) (snd eig)) in
  let vecs := snd (HW2.reorder a order (fst eig) (snd eig)) in
  (a <> 0 /\ 2 * m * a ^ 2 <> 0) /\
  (length H = N /\ forall i, (i < N)%nat -> length (nth i H []) = N) /\
  (forall i j, (i < N)%nat -> (j < N)%nat ->
     nth j (nth i H []) 0 =
       if ((j =? i + 1) || (i =? j + 1))%nat then t
       else if (i =? j)%nat then -2 * t + q * V (nth i X 0)
       else 0) /\
  HW2.cell_grid (map V) N L eta m q w = (Normal (X, a, t, eps), w) /\
  HW2.cell_H N t eps w = (Normal H, w) /\
  HW2.cell_eig lib H w = (Normal eig, w) /\
  fst (HW2.cell_order lib a (fst eig) (snd eig) w) =
    Normal (order, vals, vecs) /\
  HW2.cell_solve lib (map V) N L eta m q w =
    (Normal (X, a, H, vals, vecs), w) /\
  (0 < L ->
   eig_result N H (fst eig) (snd eig) ->
   argsort_result (fst eig) order ->
   0 < a /\
   Sorted Rle vals /\ Permutation vals (fst eig) /\
   length vals = N /\ length vecs = N /\
   forall i, (i < N)%nat ->
     nth i vals 0 = nth (nth i order 0%nat) (fst eig) 0 /\
     nth i vecs [] =
       map (fun x => x / sqrt a) (np.col 0 (nth i order 0%nat) (snd eig)) /\
     eigenpair H (nth i vals 0) (nth i vecs [])).
Proof.
  intros HN HL Hm X a t eps H eig order vals vecs.
  assert (Heps : length eps = N) by apply length_eps_grid.
  assert (Ha : a <> 0) by now apply spacing_nonzero.
  split; [split; [exact Ha|]|].
  { apply Rmult_integral_contrapositive.
    split; [apply Rmult_integral_contrapositive; split; [lra|exact Hm]|].
    apply pow_nonzero. exact Ha. }
  split; [split; [apply length_H|intros i Hi; now apply length_H_row]|].
  split.
  { intros i j Hi Hj. unfold H. rewrite H_entry by assumption.
    destruct ((j =? i + 1) || (i =? j + 1))%nat; [reflexivity|].
    destruct (i =? j)%nat; [|reflexivity].
    unfold eps, X.
    rewrite nth_eps by (rewrite length_map, length_X; exact Hi).
    rewrite (nth_map_in _ _ 0 0) by (rewrite length_X; exact Hi).
    reflexivity. }
  split; [now apply cell_grid_runs|].
  split; [apply build_H_grid|].
  split; [reflexivity|].
  split; [reflexivity|].
  split; [now apply cell_solve_runs|].
  intros HLpos Heig Hsort.
  destruct (reorder_spec a Heig Hsort) as (Hl1 & Hl2 & Hpairs).
  split; [now apply spacing_positive|].
  split; [exact (proj2 Hsort)|].
  split; [exact (@take_permutation _ _ (proj1 Hsort))|].
  split; [exact Hl1|].
  split; [exact Hl2|exact Hpairs].
Qed.

Section ThreePoints.

Let X3 := HW2.X 3 2.
Let a3 := 2 / INR (3 - 1).
Let t3 := - 1 ^ 2 / (2 * 1 * a3 ^ 2).
Let eps3 := HW2.eps t3 1 (map bump_potential X3).
Let H3 := HW2.H 3 t3 eps3.

Lemma a3_value : a3 = 1.
Proof. unfold a3. simpl. field. Qed.

Lemma t3_value : t3 = - (1 / 2).
Proof. unfold t3. rewrite a3_value. field. Qed.

Lemma eps3_values : eps3 = [1; 3 / 2; 1].
Proof.
  unfold eps3, HW2.eps, np.sadd, np.smul, X3, HW2.X, np.linspace,
    bump_potential.
  rewrite t3_value. cbn [seq map Nat.sub INR].
  repeat (apply f_equal2; [field|]). reflexivity.
Qed.

Lemma H3_eigenpair (lam : R) (v0 v1 v2 : R) :
  - (1 / 2) * 0 + 1 * v0 + - (1 / 2) * v1 = lam * v0 ->
  - (1 / 2) * v0 + 3 / 2 * v1 + - (1 / 2) * v2 = lam * v1 ->
  - (1 / 2) * v1 + 1 * v2 + - (1 / 2) * 0 = lam * v2 ->
  eigenpair H3 lam [v0; v1; v2].
Proof.
  intros E0 E1 E2. unfold H3. apply eigenpair_by_rows.
  - now rewrite eps3_values.
  - reflexivity.
  - rewrite eps3_values, t3_value.
    intros [|[|[|i]]] Hi; cbn [left_neighbour nth Nat.add]; [| | |lia];
      assumption.
Qed.

Lemma three_point_eig :
  eig_result 3 H3 (fst (np.linalg_eig three_point_lib H3))
             (snd (np.linalg_eig three_point_lib H3)).
Proof.
  cbn [three_point_lib np.linalg_eig fst snd]. repeat split.
  - intros row [E|[E|[E|[]]]]; subst row; reflexivity.
  - intros [|[|[|j]]] Hj; cbn [nth np.col map]; [| | |lia];
      apply H3_eigenpair; lra.
Qed.

Lemma three_point_argsort :
  argsort_result (fst (np.linalg_eig three_point_lib H3))
                 (np.argsort three_point_lib
                             (fst (np.linalg_eig three_point_lib H3))).
Proof.
  cbn [three_point_lib np.linalg_eig np.argsort fst]. split.
  - cbn [length seq].
    apply Permutation_sym.
    apply (perm_trans (l' := [1%nat; 0%nat; 2%nat]));
      [apply perm_swap|].
    apply perm_skip, perm_swap.
  - unfold np.take. cbn [map nth]. repeat constructor; lra.
Qed.

End ThreePoints.

Lemma discretized_hamiltonian_witness :
  let a := 2 / INR (3 - 1) in
  let t := - 1 ^ 2 / (2 * 1 * a ^ 2) in
  let H := HW2.H 3 t (HW2.eps t 1 (map bump_potential (HW2.X 3 2))) in
  let eig := np.linalg_eig three_point_lib H in
  let order := np.argsort three_point_lib (fst eig) in
  ((2 <= 3)%nat /\ 2 <> 0 /\ 1 <> 0 /\ 0 < 2 /\
   eig_result 3 H (fst eig) (snd eig) /\ argsort_result (fst eig) order) /\
  nth 2 (nth 0 H []) 0 = 0 /\
  nth 1 (nth 0 H []) 0 = t /\
  nth 1 (nth 1 H []) 0 = -2 * t + 1 * bump_potential (nth 1 (HW2.X 3 2) 0) /\
  Sorted Rle (fst (HW2.reorder a order (fst eig) (snd eig))) /\
  eigenpair H (nth 0 (fst (HW2.reorder a order (fst eig) (snd eig))) 0)
              (nth 0 (snd (HW2.reorder a order (fst eig) (snd eig))) []).
Proof.
  intros a t H eig order.
  assert (HN : (2 <= 3)%nat) by (repeat constructor).
  assert (HL : 2 <> 0) by lra.
  assert (Hm : 1 <> 0) by lra.
  assert (HLpos : 0 < 2) by lra.
  pose proof three_point_eig as Heig.
  pose proof three_point_argsort as Hsort.
  pose proof (@discretized_hamiltonian three_point_lib bump_potential 3 2 1 1 1
                                       empty_world HN HL Hm) as Hthm.
  cbv zeta in Hthm.
  destruct Hthm as (_ & _ & Hentries & _ & _ & _ & _ & _ & Hsolved).
  destruct (Hsolved HLpos Heig Hsort) as (_ & Hsorted & _ & _ & _ & Hpairs).
  split; [exact (conj HN (conj HL (conj Hm (conj HLpos (conj Heig Hsort)))))|].
  split; [exact (Hentries 0%nat 2%nat ltac:(lia) ltac:(lia))|].
  split; [exact (Hentries 0%nat 1%nat ltac:(lia) ltac:(lia))|].
  split; [exact (Hentries 1%nat 1%nat ltac:(lia) ltac:(lia))|].
  split; [exact Hsorted|].
  exact (proj2 (proj2 (Hpairs 0%nat ltac:(lia)))).
Defined.

(* ===================================================================== *)
(** * The probability densities                                           *)
(* ===================================================================== *)

Section DensityCells.

(** [max(v)] is an entry of [v] that no entry exceeds. *)
Lemma fold_left_Rmax_spec (v : vector) (x : R) :
  In (fold_left Rmax v x) (x :: v) /\
  Forall (fun y => y <= fold_left Rmax v x) (x :: v).
Proof.
  revert x. induction v as [|y v IH]; intros x.
  - simpl. split; [now left|]. constructor; [lra|constructor].
  - cbn [fold_left]. destruct (IH (Rmax x y)) as [Hin Hall].
    inversion Hall as [|? ? Hxy Hv]; subst. split.
    + destruct Hin as [Hin|Hin].
      * rewrite <- Hin. unfold Rmax. destruct (Rle_dec x y).
        -- right. now left.
        -- now left.
      * right. now right.
    + pose proof (Rmax_l x y). pose proof (Rmax_r x y).
      constructor; [lra|]. constructor; [lra|exact Hv].
Qed.

(** One statement of a cell, run on the world [w]. *)
Lemma bind_ret (A B : Type) (a : A) (k : A -> M world B) (w : world) :
  bind (ret a) k w = k a w.
Proof. reflexivity. Qed.

Lemma bind_print (B : Type) (x : text) (k : unit -> M world B) (w : world) :
  bind (print x) k w =
    k tt {| stdout := stdout w ++ [x]; figures := figures w;
            qiskit_calls := qiskit_calls w; outside := outside w |}.
Proof. reflexivity. Qed.

Lemma bind_plt (B : Type) (c : fig_cmd) (k : unit -> M world B) (w : world) :
  bind (plt c) k w =
    k tt {| stdout := stdout w; figures := figures w ++ [c];
            qiskit_calls := qiskit_calls w; outside := outside w |}.
Proof. reflexivity. Qed.

Lemma bind_plt_ax_plot (B : Type) (axis : nat) (l : line) (xs ys : vector)
      (k : unit -> M world B) (w : world) :
  length xs = length ys ->
  bind (plt_ax_plot axis l xs ys) k w =
    k tt {| stdout := stdout w; figures := figures w ++ [ax_plot axis l xs ys];
            qiskit_calls := qiskit_calls w; outside := outside w |}.
Proof.
  intros Hl. unfold plt_ax_plot. rewrite Hl, Nat.eqb_refl. reflexivity.
Qed.

Lemma bind_matmul (B : Type) (c : cvector) (psi : cmatrix)
      (k : cvector -> M world B) (w : world) :
  length c = length psi ->
  bind (HW2.matmul c psi) k w = k (np.cvecmat c psi) w.
Proof.
  intros Hl. unfold HW2.matmul. rewrite Hl, Nat.eqb_refl. reflexivity.
Qed.

Lemma bind_maximum (B : Type) (x : R) (v : vector) (k : R -> M world B)
      (w : world) :
  bind (maximum (x :: v)) k w = k (fold_left Rmax v x) w.
Proof. reflexivity. Qed.

End DensityCells.

Ltac run_statement :=
  first [ rewrite bind_ret | rewrite bind_print | rewrite bind_plt
        | rewrite bind_maximum ];
  cbv beta; cbn [stdout figures qiskit_calls outside].

(** C2.  The cell of line 215 binds [p] to the array with
    [p[i][j] = |vecs[i][j]|^2], of the shape of [vecs], and does nothing
    else.  The animation cell (lines 546-594), given a [timestep], a grid
    that is not empty and shapes that fit, ends normally with
    [wave = coeff @ psi] and [p] with [p[x] = |wave[x]|^2] at every grid
    point [x]; it prints one line and issues exactly the figure commands
    listed, among them the density line [ax2.plot(X, p)] and the limits
    taken from the largest entries of [sqrt(p)] and [p].  Every frame of
    the animation then, for [eta <> 0], sets the three lines from the pair
    [(t, wave)] the generator yields, the density line to
    [|wave[x]|^2]. *)
Theorem density_is_squared_modulus :
  (forall (vecs : matrix) (w : world),
      exists p : matrix,
        HW2.cell_p vecs w = (Normal p, w) /\
        length p = length vecs /\
        forall i, (i < length vecs)%nat ->
          length (nth i p []) = length (nth i vecs []) /\
          forall j, (j < length (nth i vecs []))%nat ->
            nth j (nth i p []) 0 = (Rabs (nth j (nth i vecs []) 0)) ^ 2) /\
  (forall (ts : complex) (num_step : option Z) (eta : R) (X : vector)
          (coeff : cvector) (psi : cmatrix) (E : vector) (w : world),
      length coeff = length psi -> length X = np.ncols psi -> X <> [] ->
      exists (wave : cvector) (p : vector) (top pmax : R),
        HW2.cell_animation (Some ts) num_step eta X coeff psi E w =
          (Normal (HW2.evolve coeff psi E ts num_step, wave, p),
           {| stdout :=
                stdout w ++
                  [lit (LF ++ "Real component in blue, imaginary in red")];
              figures :=
                figures w ++
                  [subplots 2 1;
                   ax_set_title 0 (lit "Wavefunction");
                   ax_set_ylabel 0 (lit "psi(x)");
                   ax_set_title 1 (lit "Probability Density");
                   ax_set_ylabel 1 (lit "p(x)");
                   ax_set_xlabel 1 (lit "x");
                   ax_plot 0 wave_real X (map Re wave);
                   ax_plot 0 wave_imag X (map Im wave);
                   ax_plot 1 dens X p;
                   ax_grid 0;
                   ax_grid 1;
                   ax_set_ylim 0 (- (top + 0.1)) (top + 0.1);
                   ax_set_ylim 1 (- 0.0001) (pmax + 0.02);
                   FuncAnimation 10 1000;
                   show];
              qiskit_calls := qiskit_calls w;
              outside := outside w |}) /\
        wave = np.cvecmat coeff psi /\
        length wave = length X /\
        length p = length X /\
        (forall x, (x < length X)%nat ->
                   nth x p 0 = (Cabs (nth x wave C0)) ^ 2) /\
        (In top (map sqrt p) /\ Forall (fun y => y <= top) (map sqrt p)) /\
        (In pmax p /\ Forall (fun y => y <= pmax) p)) /\
  (forall (eta : R) (X : vector) (g g' : HW2.Evolve.frame) (t : complex)
          (wave : cvector) (w : world),
      eta <> 0 ->
      HW2.Evolve.next eta g = (HW2.Evolve.Yielded (t, wave), g') ->
      exists p : vector,
        HW2.animation_frame eta X g w =
          (Normal g',
           {| stdout := stdout w;
              figures :=
                figures w ++
                  [ax_set_title 0 (fmt "Wavefunction (t={:.2f})" [PyComplex t]);
                   set_data wave_real X (map Re wave);
                   set_data wave_imag X (map Im wave);
                   set_data dens X p];
              qiskit_calls := qiskit_calls w;
              outside := outside w |}) /\
        length p = length wave /\
        forall x, (x < length wave)%nat ->
                  nth x p 0 = (Cabs (nth x wave C0)) ^ 2).
Proof.
  split; [|split].
  - intros vecs w. exists (HW2.p vecs). split; [reflexivity|].
    unfold HW2.p. split; [apply length_map|].
    intros i Hi. rewrite (nth_map_in _ _ ([] : vector) ([] : vector)) by exact Hi.
    split; [apply length_map|].
    intros j Hj. now rewrite (nth_map_in _ _ 0 0) by exact Hj.
  - intros ts num_step eta X coeff psi E w Hc HX Hne.
    set (wave := np.cvecmat coeff psi).
    assert (Hw : length wave = length X)
      by (unfold wave; now rewrite length_cvecmat).
    assert (Hp : length (HW2.p_wave wave) = length X)
      by (unfold HW2.p_wave; now rewrite length_map).
    destruct (HW2.p_wave wave) as [|p0 rest] eqn:Ep.
    { destruct X; [congruence|discriminate]. }
    exists wave, (p0 :: rest),
      (fold_left Rmax (map sqrt rest) (sqrt p0)), (fold_left Rmax rest p0).
    split.
    + unfold HW2.cell_animation. cbv zeta.
      do 8 run_statement.
      rewrite bind_matmul by exact Hc. cbv beta. fold wave.
      do 2 (rewrite bind_plt_ax_plot by (now rewrite length_map);
            cbv beta; cbn [stdout figures qiskit_calls outside]).
      rewrite Ep.
      rewrite bind_plt_ax_plot by (now rewrite Hp).
      cbv beta. cbn [stdout figures qiskit_calls outside map].
      do 8 run_statement.
      unfold ret. rewrite <- !app_assoc. reflexivity.
    + split; [reflexivity|]. split; [exact Hw|]. split; [exact Hp|].
      split.
      * intros x Hx. rewrite <- Ep. unfold HW2.p_wave.
        rewrite (nth_map_in _ _ C0 0) by (rewrite Hw; exact Hx).
        reflexivity.
      * split.
        -- exact (fold_left_Rmax_spec (map sqrt rest) (sqrt p0)).
        -- exact (fold_left_Rmax_spec rest p0).
  - intros eta X g g' t wave w _ Hnext.
    exists (HW2.p_wave wave).
    unfold HW2.animation_frame. rewrite Hnext.
    unfold bind. rewrite run_figures. split; [reflexivity|].
    unfold HW2.p_wave. split; [apply length_map|].
    intros x Hx. now rewrite (nth_map_in _ _ C0 0) by exact Hx.
Qed.

Lemma density_is_squared_modulus_witness :
  (exists p : matrix,
      HW2.cell_p sample_vecs empty_world = (Normal p, empty_world) /\
      nth 1 (nth 0 p []) 0 = (Rabs (-4)) ^ 2) /\
  ((length [Ci; RtoC 1] = length [[RtoC 1; RtoC 2]; [RtoC 0; RtoC 1]] /\
    length [0; 1] = np.ncols [[RtoC 1; RtoC 2]; [RtoC 0; RtoC 1]] /\
    [0; 1] <> []) /\
   exists (wave : cvector) (p : vector) (w' : world),
     HW2.cell_animation (Some (RtoC 1)) (Some 300%Z) 1 [0; 1] [Ci; RtoC 1]
                        [[RtoC 1; RtoC 2]; [RtoC 0; RtoC 1]] [1; 2]
                        empty_world =
       (Normal (HW2.evolve [Ci; RtoC 1] [[RtoC 1; RtoC 2]; [RtoC 0; RtoC 1]]
                           [1; 2] (RtoC 1) (Some 300%Z), wave, p), w') /\
     In (ax_plot 1 dens [0; 1] p) (figures w') /\
     nth 1 p 0 = (Cabs (nth 1 wave C0)) ^ 2) /\
  ((1 <> 0 /\
    HW2.Evolve.next 1 (HW2.evolve [Ci] [[RtoC 1]] [1] (RtoC 1) (Some 1%Z)) =
     (HW2.Evolve.Yielded
        (Cadd C0 (RtoC 1),
         np.cvecmat
           (HW2.Evolve.c 1
              {| HW2.Evolve.coeff := [Ci]; HW2.Evolve.psi := [[RtoC 1]];
                 HW2.Evolve.E := [1]; HW2.Evolve.timestep := RtoC 1;
                 HW2.Evolve.num_step := Some 1%Z;
                 HW2.Evolve.ts := [Cscale (RtoC 1) 0];
                 HW2.Evolve.t := C0; HW2.Evolve.cnt := 0;
                 HW2.Evolve.at_ := HW2.Evolve.NotStarted |})
           [[RtoC 1]]),
      {| HW2.Evolve.coeff := [Ci]; HW2.Evolve.psi := [[RtoC 1]];
         HW2.Evolve.E := [1]; HW2.Evolve.timestep := RtoC 1;
         HW2.Evolve.num_step := Some 1%Z;
         HW2.Evolve.ts := [Cscale (RtoC 1) 0];
         HW2.Evolve.t := Cadd C0 (RtoC 1); HW2.Evolve.cnt := 1;
         HW2.Evolve.at_ := HW2.Evolve.Suspended |})) /\
   exists p : vector,
     last (figures
             (snd (HW2.animation_frame
                     1 [0] (HW2.evolve [Ci] [[RtoC 1]] [1] (RtoC 1) (Some 1%Z))
                     empty_world))) show
     = set_data dens [0] p).
Proof.
  destruct density_is_squared_modulus as (Hcell_p & Hcell & Hframe).
  split; [|split].
  - destruct (Hcell_p sample_vecs empty_world) as (p & Hrun & _ & Hentries).
    exists p. split; [exact Hrun|].
    exact (proj2 (Hentries 0%nat (le_n 1)) 1%nat (le_n 2)).
  - assert (Hne : [0; 1] <> []) by discriminate.
    split; [split; [reflexivity|split; [reflexivity|exact Hne]]|].
    destruct (Hcell (RtoC 1) (Some 300%Z) 1 [0; 1] [Ci; RtoC 1]
                    [[RtoC 1; RtoC 2]; [RtoC 0; RtoC 1]] [1; 2] empty_world
                    eq_refl eq_refl Hne)
      as (wave & p & top & pmax & Hrun & _ & _ & _ & Hdens & _).
    exists wave, p. eexists. split; [exact Hrun|]. split.
    + cbn [figures empty_world app In]. do 8 right. left. reflexivity.
    + exact (Hdens 1%nat (le_n 2)).
  - split; [split; [exact R1_neq_R0|reflexivity]|].
    edestruct (Hframe 1 [0]
                      (HW2.evolve [Ci] [[RtoC 1]] [1] (RtoC 1) (Some 1%Z)))
      as (p & Hrun & _).
    + exact R1_neq_R0.
    + reflexivity.
    + exists p. rewrite Hrun. reflexivity.
Defined.

(* ===================================================================== *)
(** * What reaches the state outside the process                          *)
(* ===================================================================== *)

Section LibraryWrites.

(** [c] and then [k], when the calls of [c] and its value are known. *)
Lemma confined_bind_makes (A B : Type) (c : M world A) (k : A -> M world B)
      (a : A) (calls : list qiskit.call)
      (l1 l2 : list (persistent -> persistent)) :
  makes c a calls -> confined l1 c -> confined l2 (k a) ->
  confined (l1 ++ l2) (bind c k).
Proof.
  intros Hm Hc Hk. apply confined_bind_value; [exact Hc|].
  intros w a' Ha'. destruct (Hm w) as [Hv _]. rewrite Hv in Ha'.
  injection Ha' as <-. exact Hk.
Qed.

Lemma confined_HW4_notebook (sim : qiskit.simulators) :
  confined (map (qiskit.import_writes sim)
                (HW4_import_statements ++ HW4_backend_import_statements)
            ++ [qiskit.transpile_writes sim cat_state_circuit])
           (HW4.notebook sim).
Proof.
  eapply confined_as.
  - unfold HW4.notebook.
    repeat first
      [ eapply confined_bind_makes;
        [solve [makes_auto] | solve [confined_cell] | cbv beta]
      | eapply confined_bind; [solve [confined_cell] | intros ] ].
    confined_cell.
  - cbn [app map HW4_import_statements HW4_backend_import_statements].
    reflexivity.
Qed.

Lemma confined_cells (A : Type) (c : M world A)
      (l : list (persistent -> persistent)) :
  cell c l -> confined l c.
Proof.
  intros Hc. destruct Hc;
    try apply confined_HW4_notebook;
    try unfold HW2.notebook;
    first [ solve [confined_cell] | solve [confined_collect] ].
Qed.

End LibraryWrites.

(** C7, as the code has it.  No statement of either notebook writes to
    what outlives the process (files, database, network) itself: every
    cell, run in any world and at any values of its variables, only prints
    text, adds figure commands and calls into qiskit.  What a cell changes
    outside the process is what the libraries write on their own account
    where the cell hands control to them: at its import statements (HW2
    lines 30-32 and 400, HW4 lines 41-48 and 305-306) and at [transpile]
    (HW4 line 310), in this order, all of them when the cell ends normally
    and the first of them when an exception ends it before the others.
    Most cells have no such statement and change nothing outside; and where
    the libraries write nothing, no cell does. *)
Theorem cells_write_only_what_libraries_write
        (A : Type) (c : M world A) (l : list (persistent -> persistent))
        (w : world) :
  cell c l ->
  (exists done rest,
      l = done ++ rest /\
      outside (snd (c w)) = after_writes done (outside w) /\
      (forall a, fst (c w) = Normal a -> rest = [])) /\
  (Forall (fun f => forall o, f o = o) l ->
   outside (snd (c w)) = outside w) /\
  (exists out, stdout (snd (c w)) = stdout w ++ out) /\
  (exists figs, figures (snd (c w)) = figures w ++ figs) /\
  (exists calls, qiskit_calls (snd (c w)) = qiskit_calls w ++ calls).
Proof.
  intros Hc. destruct (confined_cells Hc w) as (Hout & Hgrown).
  split; [exact Hout|]. split; [|exact Hgrown].
  intros Hnone. destruct Hout as (done & rest & Hl & Ho & _).
  rewrite Ho. apply after_writes_nothing.
  rewrite Hl in Hnone. apply Forall_app in Hnone. exact (proj1 Hnone).
Qed.

Lemma cells_write_only_what_libraries_write_witness :
  (cell (HW4.cell_backend first_run_sim cat_state_circuit)
        (map (qiskit.import_writes first_run_sim)
             HW4_backend_import_statements
         ++ [qiskit.transpile_writes first_run_sim cat_state_circuit]) /\
   outside (snd (HW4.cell_backend first_run_sim cat_state_circuit
                                  empty_world))
   = after_writes
       (map (qiskit.import_writes first_run_sim)
            HW4_backend_import_statements
        ++ [qiskit.transpile_writes first_run_sim cat_state_circuit])
       (outside empty_world) /\
   files (outside (snd (HW4.cell_backend first_run_sim cat_state_circuit
                                         empty_world)))
   = [transpile_cache]) /\
  (cell (HW2.cell_normalize [C0]) [] /\
   outside (snd (HW2.cell_normalize [C0] empty_world)) = outside empty_world).
Proof.
  split.
  - split; [exact (HW4_backend first_run_sim cat_state_circuit)|].
    destruct (proj1 (@cells_write_only_what_libraries_write
                       _ _ _ empty_world
                       (HW4_backend first_run_sim cat_state_circuit)))
      as (done & rest & Hl & Ho & Hn).
    assert (Hrest : rest = [])
      by exact (Hn (qiskit.backend_counts
                      first_run_sim
                      (qiskit.transpile_for_backend first_run_sim
                                                    cat_state_circuit))
                   eq_refl).
    rewrite Hrest, app_nil_r in Hl. rewrite <- Hl in Ho.
    split; [exact Ho|]. rewrite Ho. reflexivity.
  - split; [exact (HW2_normalize [C0])|].
    exact (proj1 (proj2 (@cells_write_only_what_libraries_write
                           _ _ _ empty_world (HW2_normalize [C0])))
                 (Forall_nil _)).
Defined.

(** C7 as stated fails: on an installation where matplotlib is imported
    for the first time, the import cell of HW2 leaves a new file, the font
    cache that matplotlib builds. *)
Lemma first_import_writes_a_file : ~ nothing_persistent_written.
Proof.
  intros Hnone.
  pose proof (Hnone _ _ _ empty_world (HW2_imports first_import_lib)) as Hout.
  apply (f_equal files) in Hout.
  discriminate Hout.
Qed.
